(** * outbound-guard: limiter, circuit breaker and request pipeline

    A shallow embedding of the TypeScript sources
    [src/utils/rollingWindow.ts], [src/limiter.ts], [src/breaker.ts],
    [src/http.ts] and [src/client.ts] (with the types of [src/types.ts] and
    [src/events.ts]) and of the load generator [demo/loadgen.ts], and the
    properties the design specification states about them.

    Conventions of the embedding.
    - A JavaScript number that comes from the caller's configuration
      ([maxInFlight], [maxQueue], [enqueueTimeoutMs], [requestTimeoutMs],
      [windowSize], [minRequests], [failureThreshold], [cooldownMs],
      [halfOpenProbeCount]) is any finite number: an exact rational [Q].
      The constructors test such a number for finiteness and sign only, and
      the embedding does the same.  Rates are exact rationals as well.
    - A number the code itself counts with (in-flight counters, probe
      counters, array indices and lengths) starts at [0] and moves by [1]:
      counters are [Z], indices and lengths are [nat].  Timestamps are the
      integral milliseconds of [Date.now()], in [Z].  Where the code compares
      a counter with a configured number the counter is injected into [Q].
    - Objects mutated in place become explicit state passing: every method
      takes the receiver and returns the updated receiver next to its result.
      A [throw] is a result in a sum or option type; the state returned with
      it is the state at the point of the [throw].
    - Suspension points of the async code ([await]) split a method into the
      synchronous segments that run between them; how an awaited promise
      settled and what the clock read are inputs of the next segment.  The
      outbound exchange itself ([doHttpRequest]) is such an awaited promise.
    - Callbacks the caller supplies ([keyFn], event listeners) may throw;
      they do not call back into the client. *)

From Stdlib Require Import ZArith QArith Qround Lia Lqa List.
From stdpp Require Import base gmap strings list fin_maps pretty.

Local Open Scope nat_scope.

(* ===================================================================== *)
(** ** JavaScript numbers and errors *)
(* ===================================================================== *)

Module Js.

(** [x < y] on numbers. *)
Definition ltb (x y : Q) : bool := negb (Qle_bool y x).

(** [x <= y] on numbers. *)
Definition leb (x y : Q) : bool := Qle_bool x y.

(** [x === y] on numbers. *)
Definition eqb (x y : Q) : bool := Qeq_bool x y.

(** A counter as a number. *)
Definition num (n : Z) : Q := inject_Z n.

(** A length or index as a number. *)
Definition len (n : nat) : Q := inject_Z (Z.of_nat n).

(** Whether a number is an integer. *)
Definition is_integer (x : Q) : bool := Qeq_bool (inject_Z (Qfloor x)) x.

(** The length [new Array(n)] accepts: an integer from [0] up to
    [2^32 - 1].  For any other number [new Array(n)] throws a
    [RangeError]. *)
Definition array_length (n : Q) : option nat :=
  if is_integer n && leb 0 n && ltb n (inject_Z (2 ^ 32))
  then Some (Z.to_nat (Qfloor n))
  else None.

End Js.

Module Errors.

(** Modelled from the spec: [src/errors.ts] is not among the sources; the
    error taxonomy of section 6 ([QueueFull], [QueueTimeout],
    [CircuitOpen{key, retry_after_ms}], [RequestTimeout{deadline_ms}], any
    transport error) is taken with the constructor arguments the call sites
    in [limiter.ts], [client.ts] and [http.ts] pass; a transport error is
    known by its [name].  The remaining constructors are errors of the
    language: [PlainError] is the built-in [Error] carrying a message,
    [GotError m x] the built-in [Error] whose message is [m] followed by
    [" (got "], the number [x] and [")"], and [RangeError] and [TypeError]
    are the built-in errors of those names. *)
Inductive Error : Type :=
| QueueFullError (maxQueue : Q)
| QueueTimeoutError (enqueueTimeoutMs : Q)
| CircuitOpenError (key : string) (retryAfterMs : Q)
| RequestTimeoutError (requestTimeoutMs : Q)
| TransportError (name : string)
| PlainError (message : string)
| GotError (message : string) (got : Q)
| RangeError (message : string)
| TypeError (message : string).

End Errors.

(* ===================================================================== *)
(** ** src/utils/rollingWindow.ts *)
(* ===================================================================== *)

Module RollingWindow.
Import Errors.

(** The argument type of [push], the literal union [0 | 1]. *)
Inductive Bit01 : Type := Zero | One.

Definition bit_val (b : Bit01) : nat :=
  match b with Zero => 0 | One => 1 end.

(** [private readonly size; private buf; private idx; private filled].
    A window that exists has passed [new Array(size)], so its [size] is an
    array length. *)
Record t : Type := mk {
  size : nat;
  buf : list nat;
  idx : nat;
  filled : bool
}.

(** The constructor body after its guard, for a size that is an array
    length: [buf = new Array(size).fill(0)], [idx = 0],
    [filled = false]. *)
Definition make (sz : nat) : t :=
  {| size := sz; buf := replicate sz 0; idx := 0; filled := false |}.

(** [new RollingWindow(size)]: throws when [size <= 0] ([size] is finite),
    and [new Array(size)] throws a [RangeError] when [size] is not an array
    length. *)
Definition new (sz : Q) : Error + t :=
  if Js.leb sz 0
  then inl (GotError "window size must be > 0" sz)
  else match Js.array_length sz with
       | Some n => inr (make n)
       | None => inl (RangeError "Invalid array length")
       end.

(** [push]: [buf[idx] = value; idx = (idx + 1) % size;
    if (idx === 0) filled = true].  The write index stays below
    [length buf] (lemma [wf_push]), so the assignment never extends the
    array and the in-range list update is the whole behaviour. *)
Definition push (w : t) (value : Bit01) : t :=
  let buf' := <[idx w := bit_val value]> (buf w) in
  let idx' := (idx w + 1) mod size w in
  {| size := size w;
     buf := buf';
     idx := idx';
     filled := if idx' =? 0 then true else filled w |}.

(** [count]: [filled ? size : idx] *)
Definition count (w : t) : nat :=
  if filled w then size w else idx w.

(** [failures]: [for (let i = 0; i < n; i++) sum += buf[i]] *)
Definition failures (w : t) : nat :=
  let n := count w in
  fold_left (fun sum i => sum + default 0 (buf w !! i)) (seq 0 n) 0.

(** [failureRate]: [n === 0 ? 0 : failures() / n] *)
Definition failureRate (w : t) : Q :=
  let n := count w in
  if n =? 0 then 0%Q
  else (inject_Z (Z.of_nat (failures w)) / inject_Z (Z.of_nat n))%Q.

(** [reset]: [idx = 0; filled = false; buf.fill(0)] *)
Definition reset (w : t) : t :=
  {| size := size w;
     buf := replicate (length (buf w)) 0;
     idx := 0;
     filled := false |}.

(** A run of pushes, oldest first. *)
Definition push_all (w : t) (xs : list Bit01) : t :=
  fold_left push xs w.

(** Shape invariant of every window the code can build. *)
Definition wf (w : t) : Prop :=
  0 < size w /\ length (buf w) = size w /\ idx w < size w.

(** The last [n] items of a history. *)
Definition last_n {A} (n : nat) (l : list A) : list A :=
  drop (length l - n) l.

(** The [N] slots in age order (oldest first), read off the ring. *)
Definition ring_view (w : t) : list nat :=
  drop (idx w) (buf w) ++ take (idx w) (buf w).

(** Relation between a window and the history [xs] pushed into a fresh one:
    the ring, read from the write index, is the last [size] items of the
    history padded in front with the zeros of the initial fill. *)
Definition tracks (w : t) (xs : list Bit01) : Prop :=
  wf w /\
  idx w = length xs mod size w /\
  filled w = bool_decide (size w <= length xs) /\
  ring_view w = last_n (size w) (replicate (size w) 0 ++ (bit_val <$> xs)).

End RollingWindow.

(* ===================================================================== *)
(** ** src/limiter.ts *)
(* ===================================================================== *)

Module Limiter.
Import Errors.

(** [interface Waiter { resolve; reject; timer }].  The two closures are the
    settle functions of one promise and are identified by that promise; the
    timer is the handle [setTimeout] returned. *)
Record Waiter : Type := mkWaiter {
  resolve : nat;
  reject : nat;
  timer : nat
}.

(** State of a promise handed out by the slow path of [acquire]. *)
Inductive PromiseState : Type :=
| Unsettled
| Fulfilled
| RejectedWith (e : Error).

(** An armed [setTimeout]: its delay and the [resolve] its callback closes
    over (the callback finds its waiter by [w.resolve === resolve]). *)
Record TimerEntry : Type := mkTimer {
  delay : Q;
  captured_resolve : nat
}.

(** The class fields ([maxInFlight], [maxQueue], [enqueueTimeoutMs],
    [inFlight], [queue]) together with the part of the runtime the limiter
    talks to: the timers it armed and has not cleared, the promises it
    created, and the supply of fresh identities. *)
Record t : Type := mk {
  maxInFlight : Q;
  maxQueue : Q;
  enqueueTimeoutMs : Q;
  inFlight : Z;
  queue : list Waiter;
  timers : gmap nat TimerEntry;
  promises : gmap nat PromiseState;
  fresh : nat
}.

Record Options : Type := mkOptions {
  opt_maxInFlight : Q;
  opt_maxQueue : Q;
  opt_enqueueTimeoutMs : Q
}.

(** The constructor: three guards (each option is finite, so only the sign
    tests remain), then the field initialisers. *)
Definition new (o : Options) : Error + t :=
  if Js.leb (opt_maxInFlight o) 0 then
    inl (GotError "maxInFlight must be > 0" (opt_maxInFlight o))
  else if Js.ltb (opt_maxQueue o) 0 then
    inl (GotError "maxQueue must be >= 0" (opt_maxQueue o))
  else if Js.leb (opt_enqueueTimeoutMs o) 0 then
    inl (GotError "enqueueTimeoutMs must be > 0" (opt_enqueueTimeoutMs o))
  else
    inr {| maxInFlight := opt_maxInFlight o;
           maxQueue := opt_maxQueue o;
           enqueueTimeoutMs := opt_enqueueTimeoutMs o;
           inFlight := 0;
           queue := [];
           timers := ∅;
           promises := ∅;
           fresh := 0 |}.

Definition set_inFlight (n : Z) (l : t) : t :=
  {| maxInFlight := maxInFlight l; maxQueue := maxQueue l;
     enqueueTimeoutMs := enqueueTimeoutMs l;
     inFlight := n; queue := queue l; timers := timers l;
     promises := promises l; fresh := fresh l |}.

Definition set_queue (q : list Waiter) (l : t) : t :=
  {| maxInFlight := maxInFlight l; maxQueue := maxQueue l;
     enqueueTimeoutMs := enqueueTimeoutMs l;
     inFlight := inFlight l; queue := q; timers := timers l;
     promises := promises l; fresh := fresh l |}.

Definition set_timers (ts : gmap nat TimerEntry) (l : t) : t :=
  {| maxInFlight := maxInFlight l; maxQueue := maxQueue l;
     enqueueTimeoutMs := enqueueTimeoutMs l;
     inFlight := inFlight l; queue := queue l; timers := ts;
     promises := promises l; fresh := fresh l |}.

Definition set_promises (ps : gmap nat PromiseState) (l : t) : t :=
  {| maxInFlight := maxInFlight l; maxQueue := maxQueue l;
     enqueueTimeoutMs := enqueueTimeoutMs l;
     inFlight := inFlight l; queue := queue l; timers := timers l;
     promises := ps; fresh := fresh l |}.

Definition set_fresh (n : nat) (l : t) : t :=
  {| maxInFlight := maxInFlight l; maxQueue := maxQueue l;
     enqueueTimeoutMs := enqueueTimeoutMs l;
     inFlight := inFlight l; queue := queue l; timers := timers l;
     promises := promises l; fresh := n |}.

(** A promise settles once: calling [resolve] or [reject] on a settled
    promise does nothing. *)
Definition settle (p : nat) (s : PromiseState) (l : t) : t :=
  match promises l !! p with
  | Some Unsettled => set_promises (<[p := s]> (promises l)) l
  | _ => l
  end.

(** [clearTimeout(h)] *)
Definition clearTimeout (h : nat) (l : t) : t :=
  set_timers (delete h (timers l)) l.

(** What the promise returned by [acquire] is at the moment of return. *)
Inductive AcquireResult : Type :=
| Resolved
| Rejected (e : Error)
| Pending (p : nat).

(** [acquire]: fast path, queue disabled or full, enqueue and wait. *)
Definition acquire (l : t) : AcquireResult * t :=
  if Js.ltb (Js.num (inFlight l)) (maxInFlight l) then
    (Resolved, set_inFlight (inFlight l + 1)%Z l)
  else if Js.eqb (maxQueue l) 0 || Js.leb (maxQueue l) (Js.len (length (queue l))) then
    (Rejected (QueueFullError (maxQueue l)), l)
  else
    let p := fresh l in
    let h := fresh l in
    let l1 := set_fresh (S (fresh l)) l in
    let l2 := set_promises (<[p := Unsettled]> (promises l1)) l1 in
    let l3 := set_timers (<[h := mkTimer (enqueueTimeoutMs l) p]> (timers l2)) l2 in
    (Pending p,
     set_queue (queue l3 ++ [{| resolve := p; reject := p; timer := h |}]) l3).

(** The body of the [setTimeout] callback of the waiter whose promise is
    [p]: [findIndex] by [resolve], [splice(idx, 1)] and [clearTimeout] when
    found, then [reject(new QueueTimeoutError(enqueueTimeoutMs))]. *)
Definition on_timeout (p : nat) (l : t) : t :=
  let l1 :=
    match list_find (fun w => resolve w = p) (queue l) with
    | Some (i, w) => clearTimeout (timer w) (set_queue (delete i (queue l)) l)
    | None => l
    end in
  settle p (RejectedWith (QueueTimeoutError (enqueueTimeoutMs l1))) l1.

(** The runtime fires timer [h]: an armed timer is disarmed and its
    callback runs; a handle that was cleared (or never armed) runs
    nothing. *)
Definition timer_fires (h : nat) (l : t) : t :=
  match timers l !! h with
  | Some e => on_timeout (captured_resolve e) (set_timers (delete h (timers l)) l)
  | None => l
  end.

(** [release]: a thrown error, or a normal return. *)
Definition release (l : t) : option Error * t :=
  if (inFlight l <=? 0)%Z then
    (Some (PlainError "release() called when inFlight is already 0"), l)
  else
    match queue l with
    | next :: rest =>
        let l1 := set_queue rest l in
        let l2 := clearTimeout (timer next) l1 in
        (None, settle (resolve next) Fulfilled l2)
    | [] => (None, set_inFlight (inFlight l - 1)%Z l)
    end.

Record Snapshot : Type := mkSnapshot {
  snap_inFlight : Z;
  snap_queueDepth : nat;
  snap_maxInFlight : Q;
  snap_maxQueue : Q
}.

Definition snapshot (l : t) : Snapshot :=
  {| snap_inFlight := inFlight l;
     snap_queueDepth := length (queue l);
     snap_maxInFlight := maxInFlight l;
     snap_maxQueue := maxQueue l |}.

(** The operations that can interleave on one limiter. *)
Inductive Op : Type :=
| OpAcquire
| OpRelease
| OpTimerFires (h : nat).

Definition step (l : t) (op : Op) : t :=
  match op with
  | OpAcquire => snd (acquire l)
  | OpRelease => snd (release l)
  | OpTimerFires h => timer_fires h l
  end.

Definition run (l : t) (ops : list Op) : t := fold_left step ops l.

(** The number of permits a limit [m] amounts to: the fast path tests
    [inFlight < m] on an integral counter, so it is [m] rounded up. *)
Definition permits (m : Q) : Z := Qceiling m.

(** The three invariants of the limiter state, with each limit rounded up
    to the next integer. *)
Definition capacity_inv (l : t) : Prop :=
  (inFlight l <= permits (maxInFlight l))%Z /\
  (Z.of_nat (length (queue l)) <= permits (maxQueue l))%Z /\
  (queue l <> [] -> inFlight l = permits (maxInFlight l)).

(** The three invariants as the design states them, on the limits
    themselves. *)
Definition capacity_stated (l : t) : Prop :=
  (Js.num (inFlight l) <= maxInFlight l)%Q /\
  (Js.len (length (queue l)) <= maxQueue l)%Q /\
  (queue l <> [] -> (Js.num (inFlight l) == maxInFlight l)%Q).

(** The promises of the queued waiters, head first. *)
Definition queued (l : t) : list nat := resolve <$> queue l.

(** What holds of the waiters of every limiter the constructor and the
    operations can produce: each queued waiter is a distinct, unsettled
    promise whose timer is armed with the enqueue timeout and closes over
    that promise; identities are drawn below [fresh]. *)
Definition queue_inv (l : t) : Prop :=
  NoDup (queued l) /\
  (forall w, w ∈ queue l ->
     resolve w < fresh l /\ reject w = resolve w /\ timer w = resolve w /\
     promises l !! resolve w = Some Unsettled /\
     timers l !! timer w = Some (mkTimer (enqueueTimeoutMs l) (resolve w))) /\
  (forall p, is_Some (promises l !! p) -> p < fresh l) /\
  (forall h e, timers l !! h = Some e -> captured_resolve e = h).

(** The constructor's guards, as they hold of a constructed limiter. *)
Definition configured (l : t) : Prop :=
  (0 < maxInFlight l)%Q /\ (0 <= maxQueue l)%Q /\ (0 < enqueueTimeoutMs l)%Q.

(** Operations other than a timer firing. *)
Definition no_timeout (op : Op) : bool :=
  match op with OpTimerFires _ => false | _ => true end.

(** A waiter [a] that enqueued has either been handed a permit or is still
    in the queue. *)
Definition served_or_queued (a : nat) (l : t) : Prop :=
  promises l !! a = Some Fulfilled \/ a ∈ queued l.

(** For waiters [a] then [b]: either [a] has been handed a permit, or [b]
    is still waiting behind [a]. *)
Definition fifo_inv (a b : nat) (l : t) : Prop :=
  promises l !! a = Some Fulfilled \/
  (promises l !! b = Some Unsettled /\
   exists q1 q2 q3, queued l = q1 ++ a :: q2 ++ b :: q3).

End Limiter.

(* ===================================================================== *)
(** ** src/breaker.ts *)
(* ===================================================================== *)

Module Breaker.
Import Errors.

(** [type BreakerState = "CLOSED" | "OPEN" | "HALF_OPEN"] *)
Inductive BreakerState : Type := CLOSED | OPEN | HALF_OPEN.

#[global] Instance BreakerState_eq_dec : EqDecision BreakerState.
Proof. solve_decision. Defined.

Record BreakerOptions : Type := mkOptions {
  windowSize : Q;
  minRequests : Q;
  failureThreshold : Q;
  cooldownMs : Q;
  halfOpenProbeCount : Q
}.

(** [interface BreakerBucket]; [openedAtMs?] is [None] for [undefined]. *)
Record BreakerBucket : Type := mkBucket {
  state : BreakerState;
  openedAtMs : option Z;
  halfOpenInFlight : Z;
  window : RollingWindow.t;
  halfOpenSuccesses : Z;
  halfOpenFailures : Z
}.

(** [interface BreakerDecision] *)
Record BreakerDecision : Type := mkDecision {
  allowed : bool;
  decided_in : BreakerState;
  retryAfterMs : option Q
}.

(** The result object of [onSuccess] and [onFailure]:
    [{ changed; from?; to? }]. *)
Record Change : Type := mkChange {
  changed : bool;
  from : option BreakerState;
  to : option BreakerState
}.

Definition unchanged : Change :=
  {| changed := false; from := None; to := None |}.

(** [private readonly opts; private readonly buckets = new Map()] *)
Record t : Type := mk {
  opts : BreakerOptions;
  buckets : gmap string BreakerBucket
}.

(** The constructor: five guards (the options are finite, so the sign and
    range tests remain; [failureThreshold] is the one option the code does
    not test for finiteness, and it is taken finite like the others), then
    [this.opts = opts].  No window is built here. *)
Definition new (o : BreakerOptions) : Error + t :=
  if Js.leb (windowSize o) 0 then inl (PlainError "windowSize must be > 0")
  else if Js.ltb (minRequests o) 0 then inl (PlainError "minRequests must be >= 0")
  else if Js.ltb (failureThreshold o) 0 || Js.ltb 1 (failureThreshold o)
       then inl (PlainError "failureThreshold must be 0..1")
  else if Js.leb (cooldownMs o) 0 then inl (PlainError "cooldownMs must be > 0")
  else if Js.leb (halfOpenProbeCount o) 0
       then inl (PlainError "halfOpenProbeCount must be > 0")
  else inr {| opts := o; buckets := ∅ |}.

(** The bucket object [bucket(key)] creates on first reference, around the
    window it has just built. *)
Definition fresh_bucket (w : RollingWindow.t) : BreakerBucket :=
  {| state := CLOSED;
     openedAtMs := None;
     halfOpenInFlight := 0;
     window := w;
     halfOpenSuccesses := 0;
     halfOpenFailures := 0 |}.

(** The methods mutate the bucket object they got from [bucket(key)]; the
    map entry of [key] is that object, so the mutation is a store at [key]. *)
Definition store (br : t) (key : string) (b : BreakerBucket) : t :=
  {| opts := opts br; buckets := <[key := b]> (buckets br) |}.

(** [bucket(key)]: look the key up; when it is missing build
    [new RollingWindow(this.opts.windowSize)], which throws for a
    [windowSize] that is not an array length, and register the new bucket.
    Returns the bucket, or what was thrown, and the breaker with the map
    as the call leaves it. *)
Definition bucket (br : t) (key : string) : (Error + BreakerBucket) * t :=
  match buckets br !! key with
  | Some b => (inr b, br)
  | None =>
      match RollingWindow.new (windowSize (opts br)) with
      | inl e => (inl e, br)
      | inr w => (inr (fresh_bucket w), store br key (fresh_bucket w))
      end
  end.

(** [toOpen]: the rolling window is kept. *)
Definition toOpen (b : BreakerBucket) (nowMs : Z) : BreakerBucket :=
  {| state := OPEN;
     openedAtMs := Some nowMs;
     halfOpenInFlight := 0;
     window := window b;
     halfOpenSuccesses := 0;
     halfOpenFailures := 0 |}.

(** [toHalfOpen] *)
Definition toHalfOpen (b : BreakerBucket) : BreakerBucket :=
  {| state := HALF_OPEN;
     openedAtMs := None;
     halfOpenInFlight := 0;
     window := window b;
     halfOpenSuccesses := 0;
     halfOpenFailures := 0 |}.

(** [toClosed]: the rolling window is reset. *)
Definition toClosed (b : BreakerBucket) : BreakerBucket :=
  {| state := CLOSED;
     openedAtMs := None;
     halfOpenInFlight := 0;
     window := RollingWindow.reset (window b);
     halfOpenSuccesses := 0;
     halfOpenFailures := 0 |}.

Definition set_halfOpenInFlight (n : Z) (b : BreakerBucket) : BreakerBucket :=
  {| state := state b; openedAtMs := openedAtMs b;
     halfOpenInFlight := n; window := window b;
     halfOpenSuccesses := halfOpenSuccesses b;
     halfOpenFailures := halfOpenFailures b |}.

Definition set_halfOpenSuccesses (n : Z) (b : BreakerBucket) : BreakerBucket :=
  {| state := state b; openedAtMs := openedAtMs b;
     halfOpenInFlight := halfOpenInFlight b; window := window b;
     halfOpenSuccesses := n;
     halfOpenFailures := halfOpenFailures b |}.

Definition set_halfOpenFailures (n : Z) (b : BreakerBucket) : BreakerBucket :=
  {| state := state b; openedAtMs := openedAtMs b;
     halfOpenInFlight := halfOpenInFlight b; window := window b;
     halfOpenSuccesses := halfOpenSuccesses b;
     halfOpenFailures := n |}.

Definition set_window (w : RollingWindow.t) (b : BreakerBucket) : BreakerBucket :=
  {| state := state b; openedAtMs := openedAtMs b;
     halfOpenInFlight := halfOpenInFlight b; window := w;
     halfOpenSuccesses := halfOpenSuccesses b;
     halfOpenFailures := halfOpenFailures b |}.

(** [allow] on the bucket object: the decision and the bucket as the call
    leaves it.  The first [if] either returns the OPEN denial or falls
    through with the bucket moved to HALF_OPEN; the second [if] is the probe
    admission; the last line is the CLOSED case. *)
Definition allow_bucket (o : BreakerOptions) (b : BreakerBucket) (nowMs : Z)
  : BreakerDecision * BreakerBucket :=
  let after_open : BreakerDecision + BreakerBucket :=
    match state b with
    | OPEN =>
        let elapsed := (nowMs - default nowMs (openedAtMs b))%Z in
        let remaining := (cooldownMs o - Js.num elapsed)%Q in
        if Js.ltb 0 remaining then
          inl {| allowed := false; decided_in := OPEN; retryAfterMs := Some remaining |}
        else inr (toHalfOpen b)
    | _ => inr b
    end in
  match after_open with
  | inl d => (d, b)
  | inr b1 =>
      match state b1 with
      | HALF_OPEN =>
          if Js.leb (halfOpenProbeCount o) (Js.num (halfOpenInFlight b1)) then
            ({| allowed := false; decided_in := HALF_OPEN; retryAfterMs := Some 0%Q |}, b1)
          else
            ({| allowed := true; decided_in := HALF_OPEN; retryAfterMs := None |},
             set_halfOpenInFlight (halfOpenInFlight b1 + 1)%Z b1)
      | _ => ({| allowed := true; decided_in := CLOSED; retryAfterMs := None |}, b1)
      end
  end.

(** A method that starts with [const b = this.bucket(key)] and then works
    on [b]: when [bucket] throws, so does the method, with nothing
    changed. *)
Definition on_bucket {A} (br : t) (key : string)
    (f : BreakerOptions -> BreakerBucket -> A * BreakerBucket)
  : (Error + A) * t :=
  match bucket br key with
  | (inl e, br1) => (inl e, br1)
  | (inr b, br1) => let '(a, b') := f (opts br1) b in (inr a, store br1 key b')
  end.

(** [allow(key, nowMs)] *)
Definition allow (br : t) (key : string) (nowMs : Z)
  : (Error + BreakerDecision) * t :=
  on_bucket br key (fun o b => allow_bucket o b nowMs).

(** [onSuccess] on the bucket object. *)
Definition onSuccess_bucket (o : BreakerOptions) (b : BreakerBucket)
  : Change * BreakerBucket :=
  match state b with
  | HALF_OPEN =>
      let b1 := set_halfOpenInFlight (Z.max 0 (halfOpenInFlight b - 1)) b in
      let b2 := set_halfOpenSuccesses (halfOpenSuccesses b1 + 1)%Z b1 in
      if Js.leb (halfOpenProbeCount o) (Js.num (halfOpenSuccesses b2)) then
        ({| changed := true; from := Some HALF_OPEN; to := Some CLOSED |},
         toClosed b2)
      else (unchanged, b2)
  | CLOSED =>
      (unchanged, set_window (RollingWindow.push (window b) RollingWindow.Zero) b)
  | OPEN => (unchanged, b)
  end.

(** [onSuccess(key)] *)
Definition onSuccess (br : t) (key : string) : (Error + Change) * t :=
  on_bucket br key onSuccess_bucket.

(** [onFailure] on the bucket object. *)
Definition onFailure_bucket (o : BreakerOptions) (b : BreakerBucket) (nowMs : Z)
  : Change * BreakerBucket :=
  match state b with
  | HALF_OPEN =>
      let b1 := set_halfOpenInFlight (Z.max 0 (halfOpenInFlight b - 1)) b in
      let b2 := set_halfOpenFailures (halfOpenFailures b1 + 1)%Z b1 in
      ({| changed := true; from := Some HALF_OPEN; to := Some OPEN |},
       toOpen b2 nowMs)
  | CLOSED =>
      let b1 := set_window (RollingWindow.push (window b) RollingWindow.One) b in
      let n := RollingWindow.count (window b1) in
      if Js.leb (minRequests o) (Js.len n)
         && Js.leb (failureThreshold o) (RollingWindow.failureRate (window b1))
      then
        ({| changed := true; from := Some CLOSED; to := Some OPEN |},
         toOpen b1 nowMs)
      else (unchanged, b1)
  | OPEN => (unchanged, b)
  end.

(** [onFailure(key, nowMs)] *)
Definition onFailure (br : t) (key : string) (nowMs : Z) : (Error + Change) * t :=
  on_bucket br key (fun o b => onFailure_bucket o b nowMs).

(** [state(key)]: what it returns or throws.  Like every accessor it goes
    through [bucket(key)]. *)
Definition state_of (br : t) (key : string) : Error + BreakerState :=
  match fst (bucket br key) with
  | inl e => inl e
  | inr b => inr (state b)
  end.

(** The bucket a key denotes, whether or not it has been created yet:
    there is none when the key is new and [bucket(key)] would throw. *)
Definition peek (br : t) (key : string) : option BreakerBucket :=
  match fst (bucket br key) with
  | inl _ => None
  | inr b => Some b
  end.

(** The number of probes a probe count amounts to: both tests against it
    are [counter >= halfOpenProbeCount] on an integral counter, so it is
    the count rounded up. *)
Definition probes (o : BreakerOptions) : Z := Qceiling (halfOpenProbeCount o).

(** What holds of every bucket the breaker can build under options [o]:
    the probe counters stay within the probe count rounded up,
    [openedAtMs] is set exactly in OPEN, and outside HALF_OPEN the
    half-open counters are zero. *)
Definition bucket_inv (o : BreakerOptions) (b : BreakerBucket) : Prop :=
  (0 <= halfOpenInFlight b <= probes o)%Z /\
  (0 <= halfOpenSuccesses b < probes o)%Z /\
  halfOpenFailures b = 0%Z /\
  (state b = OPEN <-> is_Some (openedAtMs b)) /\
  (state b <> HALF_OPEN -> halfOpenInFlight b = 0%Z /\ halfOpenSuccesses b = 0%Z).

(** The calls a client of the breaker can make. *)
Inductive Op : Type :=
| OpAllow (key : string) (nowMs : Z)
| OpOnSuccess (key : string)
| OpOnFailure (key : string) (nowMs : Z).

Definition step (br : t) (op : Op) : t :=
  match op with
  | OpAllow k now => snd (allow br k now)
  | OpOnSuccess k => snd (onSuccess br k)
  | OpOnFailure k now => snd (onFailure br k now)
  end.

Definition run (br : t) (ops : list Op) : t := fold_left step ops br.

Definition breaker_inv (br : t) : Prop :=
  (0 < halfOpenProbeCount (opts br))%Q /\
  forall key b, peek br key = Some b -> bucket_inv (opts br) b.

End Breaker.

(* ===================================================================== *)
(** ** src/types.ts, src/events.ts, src/client.ts *)
(* ===================================================================== *)

Module Client.
Import Errors.

(** [type HttpMethod] *)
Inductive HttpMethod : Type := GET | POST | PUT | PATCH | DELETE | HEAD | OPTIONS.

(** [interface ResilientRequest] *)
Record ResilientRequest : Type := mkRequest {
  method : HttpMethod;
  url : string;
  headers : option (list (string * string));
  body : option string
}.

(** [interface ResilientResponse] *)
Record ResilientResponse : Type := mkResponse {
  status : Z;
  resp_headers : list (string * string);
  resp_body : string
}.

(** The events [request] emits, with their payloads
    ([events.ts]: [RequestEventBase], [RequestResultEvent],
    [BreakerStateEvent]). *)
Inductive Event : Type :=
| RequestRejected (key requestId : string) (request : ResilientRequest) (error : Error)
| RequestStart (key requestId : string) (request : ResilientRequest)
| RequestSuccess (key requestId : string) (request : ResilientRequest)
    (status : Z) (durationMs : Z)
| RequestFailure (key requestId : string) (request : ResilientRequest)
    (error : Error) (durationMs : Z)
| BreakerStateChanged (key : string) (from to : option Breaker.BreakerState).

(** What one synchronous segment of [request] does to its collaborators, in
    program order: events handed to [emit], calls into the breaker and the
    limiter, and the start of the outbound exchange. *)
Inductive Effect : Type :=
| Emit (e : Event)
| CallAllow (key : string) (nowMs : Z)
| CallOnSuccess (key : string)
| CallOnFailure (key : string) (nowMs : Z)
| CallAcquire
| CallRelease
| CallDoHttp (request : ResilientRequest) (requestTimeoutMs : Q).

(** The fields of [ResilientHttpClient], the listeners registered on the
    emitter it extends, and the chronological record of its effects.
    [EventEmitter.emit] calls the listeners of the event synchronously and
    an exception of a listener propagates out of [emit]: [listeners] says,
    for the effects so far and the event emitted, whether a listener throws
    and what ([None]: every listener returns). *)
Record t : Type := mk {
  limiter : Limiter.t;
  breaker : Breaker.t;
  requestTimeoutMs : Q;
  keyFn : ResilientRequest -> Error + string;
  listeners : list Effect -> Event -> option Error;
  trace : list Effect
}.

(** [interface ResilientHttpClientOptions].  A [keyFn] returns a key or
    throws. *)
Record Options : Type := mkOptions {
  opt_maxInFlight : Q;
  opt_maxQueue : Q;
  opt_enqueueTimeoutMs : Q;
  opt_requestTimeoutMs : Q;
  opt_breaker : Breaker.BreakerOptions;
  opt_keyFn : option (ResilientRequest -> Error + string)
}.

(** [defaultKeyFn]: [new URL(req.url).host].  The URL parser is the
    platform's and is passed in as [url_host], [None] where [new URL]
    throws its [TypeError]. *)
Definition defaultKeyFn (url_host : string -> option string)
    (req : ResilientRequest) : Error + string :=
  match url_host (url req) with
  | Some host => inr host
  | None => inl (TypeError "Invalid URL")
  end.

(** No listener registered: nothing throws. *)
Definition no_listeners : list Effect -> Event -> option Error :=
  fun _ _ => None.

(** The constructor: builds the limiter and the breaker (either may throw),
    [keyFn = opts.keyFn ?? defaultKeyFn].  The emitter starts without
    listeners. *)
Definition new (url_host : string -> option string) (o : Options) : Error + t :=
  match Limiter.new {| Limiter.opt_maxInFlight := opt_maxInFlight o;
                       Limiter.opt_maxQueue := opt_maxQueue o;
                       Limiter.opt_enqueueTimeoutMs := opt_enqueueTimeoutMs o |} with
  | inl e => inl e
  | inr lim =>
      match Breaker.new (opt_breaker o) with
      | inl e => inl e
      | inr br =>
          inr {| limiter := lim;
                 breaker := br;
                 requestTimeoutMs := opt_requestTimeoutMs o;
                 keyFn := default (defaultKeyFn url_host) (opt_keyFn o);
                 listeners := no_listeners;
                 trace := [] |}
      end
  end.

(** [on(name, listener)] and its relatives ([once], [off], ...): the
    listeners behave as [ls] from now on. *)
Definition on (ls : list Effect -> Event -> option Error) (c : t) : t :=
  {| limiter := limiter c; breaker := breaker c;
     requestTimeoutMs := requestTimeoutMs c;
     keyFn := keyFn c; listeners := ls; trace := trace c |}.

(** No listener of the client ever throws. *)
Definition quiet (c : t) : Prop := forall tr e, listeners c tr e = None.

(** *** A state and exception monad over the client

    A computation returns a value or throws, and leaves the client as it is
    at that point. *)

Definition M (A : Type) : Type := t -> (Error + A) * t.

Definition ret {A} (a : A) : M A := fun c => (inr a, c).

Definition throw {A} (e : Error) : M A := fun c => (inl e, c).

Definition bind {A B} (m : M A) (k : A -> M B) : M B :=
  fun c => match m c with
           | (inl e, c1) => (inl e, c1)
           | (inr a, c1) => k a c1
           end.

Notation "x <- m ;; k" := (bind m (fun x => k))
  (at level 63, m at next level, right associativity).
Notation "m ;;; k" := (bind m (fun _ => k))
  (at level 63, right associativity).

(** [try { m } catch (err) { h err }] *)
Definition try_catch {A} (m : M A) (h : Error -> M A) : M A :=
  fun c => match m c with
           | (inl e, c1) => h e c1
           | (inr a, c1) => (inr a, c1)
           end.

(** [try { m } finally { f }]: [f] runs however [m] ended; what [m]
    returned or threw stands unless [f] throws. *)
Definition try_finally {A} (m : M A) (f : M unit) : M A :=
  fun c => let '(r, c1) := m c in
           match f c1 with
           | (inl e, c2) => (inl e, c2)
           | (inr _, c2) => (r, c2)
           end.

Definition logged (es : list Effect) (c : t) : t :=
  {| limiter := limiter c; breaker := breaker c;
     requestTimeoutMs := requestTimeoutMs c;
     keyFn := keyFn c; listeners := listeners c;
     trace := trace c ++ es |}.

Definition set_breaker (br : Breaker.t) (c : t) : t :=
  {| limiter := limiter c; breaker := br;
     requestTimeoutMs := requestTimeoutMs c;
     keyFn := keyFn c; listeners := listeners c;
     trace := trace c |}.

Definition set_limiter (lim : Limiter.t) (c : t) : t :=
  {| limiter := lim; breaker := breaker c;
     requestTimeoutMs := requestTimeoutMs c;
     keyFn := keyFn c; listeners := listeners c;
     trace := trace c |}.

Definition record_effect (e : Effect) : M unit :=
  fun c => (inr tt, logged [e] c).

Definition with_breaker {A} (f : Breaker.t -> (Error + A) * Breaker.t) : M A :=
  fun c => let '(a, br) := f (breaker c) in (a, set_breaker br c).

Definition with_limiter {A} (f : Limiter.t -> A * Limiter.t) : M A :=
  fun c => let '(a, lim) := f (limiter c) in (inr a, set_limiter lim c).

Definition get {A} (f : t -> A) : M A := fun c => (inr (f c), c).

(** The value of a call that returns or throws. *)
Definition returned {A} (r : Error + A) : M A :=
  match r with
  | inl e => throw e
  | inr a => ret a
  end.

(** [this.emit(name, payload)]: the event reaches the listeners, and what
    a listener throws comes out of the call. *)
Definition emit (e : Event) : M unit :=
  thrown <- get (fun c => listeners c (trace c) e) ;;
  record_effect (Emit e) ;;;
  match thrown with
  | Some err => throw err
  | None => ret tt
  end.

(** [this.keyFn(req)] *)
Definition call_keyFn (req : ResilientRequest) : M string :=
  r <- get (fun c => keyFn c req) ;;
  returned r.

(** [this.breaker.allow(key)], [nowMs] being the clock at the call. *)
Definition breaker_allow (key : string) (nowMs : Z) : M Breaker.BreakerDecision :=
  record_effect (CallAllow key nowMs) ;;;
  with_breaker (fun br => Breaker.allow br key nowMs).

(** [this.breaker.onSuccess(key)] *)
Definition breaker_onSuccess (key : string) : M Breaker.Change :=
  record_effect (CallOnSuccess key) ;;;
  with_breaker (fun br => Breaker.onSuccess br key).

(** [this.breaker.onFailure(key)], [nowMs] being the clock at the call. *)
Definition breaker_onFailure (key : string) (nowMs : Z) : M Breaker.Change :=
  record_effect (CallOnFailure key nowMs) ;;;
  with_breaker (fun br => Breaker.onFailure br key nowMs).

(** [this.limiter.acquire()]: the promise it returns. *)
Definition limiter_acquire : M Limiter.AcquireResult :=
  record_effect CallAcquire ;;; with_limiter Limiter.acquire.

(** [this.limiter.release()] *)
Definition limiter_release : M unit :=
  record_effect CallRelease ;;;
  thrown <- with_limiter Limiter.release ;;
  match thrown with
  | Some e => throw e
  | None => ret tt
  end.

(** [if (change.changed) this.emit("breaker:state", ...)] *)
Definition emit_change (key : string) (change : Breaker.Change) : M unit :=
  if Breaker.changed change
  then emit (BreakerStateChanged key (Breaker.from change) (Breaker.to change))
  else ret tt.

(** *** [request], segment by segment

    The value of a segment is [inl err] when the promise of [request] is
    rejected with [err] in that segment, by a [throw] or by
    [return Promise.reject(err)]. *)

(** The locals of [request] that live across its [await]s. *)
Record Ctx : Type := mkCtx {
  ctx_key : string;
  ctx_requestId : string;
  ctx_req : ResilientRequest
}.

(** Segment 1: from entry to [await this.limiter.acquire()].  [requestId] is
    what [genRequestId()] produced and [nowMs] the clock [allow] read.  It
    ends with the request rejected, or at the [await] on the promise
    [acquire] returned. *)
Definition request_begin (req : ResilientRequest) (requestId : string) (nowMs : Z)
  : M (Ctx * Limiter.AcquireResult) :=
  key <- call_keyFn req ;;
  decision <- breaker_allow key nowMs ;;
  if negb (Breaker.allowed decision) then
    let err := CircuitOpenError key (default 0%Q (Breaker.retryAfterMs decision)) in
    emit (RequestRejected key requestId req err) ;;;
    throw err
  else
    p <- limiter_acquire ;;
    ret (mkCtx key requestId req, p).

(** Segment 2: the continuation of [await this.limiter.acquire()].
    [outcome] is how the promise settled ([None]: fulfilled); [nowMs] is the
    clock read into [start].  It ends with the request rejected, or at the
    [await] on [doHttpRequest] with [start] recorded.  [emit("request:start")]
    comes before the [try]: when a listener throws there, the permit is
    held and nothing releases it. *)
Definition request_acquired (ctx : Ctx) (outcome : option Error) (nowMs : Z)
  : M (Ctx * Z) :=
  match outcome with
  | Some err =>
      emit (RequestRejected (ctx_key ctx) (ctx_requestId ctx) (ctx_req ctx) err) ;;;
      throw err
  | None =>
      let start := nowMs in
      emit (RequestStart (ctx_key ctx) (ctx_requestId ctx) (ctx_req ctx)) ;;;
      timeoutMs <- get requestTimeoutMs ;;
      record_effect (CallDoHttp (ctx_req ctx) timeoutMs) ;;;
      ret (ctx, start)
  end.

(** The rest of the [try] block once the exchange has produced [res];
    [nowSignal] is the clock [onFailure] reads and [nowEnd] the clock read
    for [durationMs]. *)
Definition request_try (ctx : Ctx) (start : Z) (res : ResilientResponse)
    (nowSignal nowEnd : Z) : M ResilientResponse :=
  let key := ctx_key ctx in
  (if (500 <=? status res)%Z then
     change <- breaker_onFailure key nowSignal ;;
     emit_change key change
   else
     change <- breaker_onSuccess key ;;
     emit_change key change) ;;;
  let durationMs := (nowEnd - start)%Z in
  emit (RequestSuccess key (ctx_requestId ctx) (ctx_req ctx) (status res) durationMs) ;;;
  ret res.

(** The [catch] block, entered with [err]. *)
Definition request_catch (ctx : Ctx) (start : Z) (err : Error)
    (nowSignal nowEnd : Z) : M ResilientResponse :=
  let key := ctx_key ctx in
  change <- breaker_onFailure key nowSignal ;;
  emit_change key change ;;;
  let durationMs := (nowEnd - start)%Z in
  emit (RequestFailure key (ctx_requestId ctx) (ctx_req ctx) err durationMs) ;;;
  throw err.

(** Segment 3: the continuation of [await doHttpRequest(...)], that is the
    rest of the [try], the [catch] and the [finally].  [result] is how the
    transport promise settled.  When it was rejected the [catch] block runs
    at once, reading the clocks [nowSignal] and [nowEnd].  When it was
    fulfilled the rest of the [try] reads those clocks, and if anything in
    it throws (the breaker or a listener) the [catch] block runs on that
    exception and reads the later clocks [nowSignal2] and [nowEnd2].  The
    value is what the promise of [request] settles to. *)
Definition request_completed (ctx : Ctx) (start : Z)
    (result : Error + ResilientResponse) (nowSignal nowEnd nowSignal2 nowEnd2 : Z)
  : M ResilientResponse :=
  try_finally
    match result with
    | inr res =>
        try_catch (request_try ctx start res nowSignal nowEnd)
                  (fun err => request_catch ctx start err nowSignal2 nowEnd2)
    | inl err => request_catch ctx start err nowSignal nowEnd
    end
    limiter_release.

(** The breaker outcome signals among a list of effects, in order. *)
Inductive Signal : Type := SignalSuccess | SignalFailure.

Definition signal_of (e : Effect) : option Signal :=
  match e with
  | CallOnSuccess _ => Some SignalSuccess
  | CallOnFailure _ _ => Some SignalFailure
  | _ => None
  end.

Definition signals (es : list Effect) : list Signal := omap signal_of es.

(** The events among a list of effects, in order. *)
Definition event_of (e : Effect) : option Event :=
  match e with Emit ev => Some ev | _ => None end.

Definition events (es : list Effect) : list Event := omap event_of es.

(** The outbound exchanges started among a list of effects. *)
Definition is_transport (e : Effect) : bool :=
  match e with CallDoHttp _ _ => true | _ => false end.

(** The effects recorded between an earlier client state and a later one. *)
Definition since (c c' : t) : list Effect :=
  drop (length (trace c)) (trace c').

(** The runtime fires timer [h] of the client's limiter. *)
Definition limiter_timer_fires (h : nat) : M unit :=
  with_limiter (fun l => (tt, Limiter.timer_fires h l)).

(** The state a computation leaves, and what it returned or threw. *)
Definition exec {A} (m : M A) (c : t) : t := snd (m c).
Definition eval {A} (m : M A) (c : t) : Error + A := fst (m c).

(** The [breaker:state] event a change object gives rise to. *)
Definition change_events (key : string) (change : Breaker.Change) : list Event :=
  if Breaker.changed change
  then [BreakerStateChanged key (Breaker.from change) (Breaker.to change)]
  else [].

(** *** A scenario

    One permit, no queue, a breaker that opens on the first failure and
    admits one probe after 100 ms; the key of a request is its URL. *)
Definition scenario_options : Options :=
  {| opt_maxInFlight := 1;
     opt_maxQueue := 0;
     opt_enqueueTimeoutMs := 100;
     opt_requestTimeoutMs := 500;
     opt_breaker := Breaker.mkOptions 5 1 1 100 1;
     opt_keyFn := Some (fun req => inr (url req)) |}.

(** The client [new ResilientHttpClient(scenario_options)]. *)
Definition scenario_client : t :=
  {| limiter := Limiter.mk 1 0 100 0 [] ∅ ∅ 0;
     breaker := Breaker.mk (Breaker.mkOptions 5 1 1 100 1) ∅;
     requestTimeoutMs := 500;
     keyFn := fun req => inr (url req);
     listeners := no_listeners;
     trace := [] |}.

Definition get_req (u : string) : ResilientRequest :=
  {| method := GET; url := u; headers := None; body := None |}.

Definition ctx_of (u requestId : string) : Ctx :=
  mkCtx u requestId (get_req u).

(** Request r1 to ["svc"] enters at 1000, gets the permit, and its exchange
    is in progress. *)
Definition scenario_in_transport : t :=
  exec (request_begin (get_req "svc") "r1" 1000 ;;;
        request_acquired (ctx_of "svc" "r1") None 1000)
       scenario_client.

(** The exchange of r1 fails at 1010: the breaker opens for ["svc"]. *)
Definition scenario_opened : t :=
  exec (request_completed (ctx_of "svc" "r1") 1000
          (inl (TransportError "ECONNREFUSED")) 1010 1010 1010 1010)
       scenario_in_transport.

(** Request r2 to ["other"] enters at 1020 and holds the only permit. *)
Definition scenario_before_probe : t :=
  exec (request_begin (get_req "other") "r2" 1020 ;;;
        request_acquired (ctx_of "other" "r2") None 1020)
       scenario_opened.

(** Request r3 to ["svc"] enters at 1200, after the cooldown: segment 1,
    then the continuation of its rejected [acquire]. *)
Definition scenario_probe_rejected : t :=
  exec (request_begin (get_req "svc") "r3" 1200 ;;;
        request_acquired (ctx_of "svc" "r3") (Some (QueueFullError 0)) 1200)
       scenario_before_probe.

(** r2 completes with a 200 at 1250 and releases the permit. *)
Definition scenario_idle : t :=
  exec (request_completed (ctx_of "other" "r2") 1020
          (inr (mkResponse 200 [] "ok")) 1250 1250 1250 1250)
       scenario_probe_rejected.

End Client.


(* ===================================================================== *)
(** ** Accounting over runs of the limiter *)
(* ===================================================================== *)

Module LimiterAudit.
Import Errors Limiter.

(** Permits one operation hands out: a fast-path [acquire], or a [release]
    that transfers its permit to the head waiter. *)
Definition granted_by (l : t) (op : Op) : Z :=
  match op with
  | OpAcquire =>
      match fst (acquire l) with Resolved => 1%Z | _ => 0%Z end
  | OpRelease =>
      match fst (release l), queue l with
      | None, _ :: _ => 1%Z
      | _, _ => 0%Z
      end
  | OpTimerFires _ => 0%Z
  end.

(** Permits one operation takes back: a [release] that returns normally. *)
Definition returned_by (l : t) (op : Op) : Z :=
  match op with
  | OpRelease => match fst (release l) with None => 1%Z | Some _ => 0%Z end
  | _ => 0%Z
  end.

Fixpoint granted (l : t) (ops : list Op) : Z :=
  match ops with
  | [] => 0%Z
  | op :: rest => (granted_by l op + granted (step l op) rest)%Z
  end.

Fixpoint returned (l : t) (ops : list Op) : Z :=
  match ops with
  | [] => 0%Z
  | op :: rest => (returned_by l op + returned (step l op) rest)%Z
  end.

(** The limiter's books agree with its queue: only queued waiters have an
    armed timer, only queued waiters have an unsettled promise, and the
    in-flight count is not negative. *)
Definition books_inv (l : t) : Prop :=
  (0 <= inFlight l)%Z /\
  (forall h e, timers l !! h = Some e -> exists w, w ∈ queue l /\ timer w = h) /\
  (forall p, promises l !! p = Some Unsettled -> p ∈ queued l).

(** All that holds of a limiter built by the constructor and driven by its
    operations. *)
Definition reachable_inv (l : t) : Prop :=
  configured l /\ capacity_inv l /\ queue_inv l /\ books_inv l.

End LimiterAudit.

(* ===================================================================== *)
(** ** src/breaker.ts: the [state] accessor, and runs of calls *)
(* ===================================================================== *)

Module BreakerAudit.
Import Errors Breaker.

(** [state(key)] as the method is written: [return this.bucket(key).state].
    It goes through [bucket(key)], so a first reference to a key registers
    its bucket; the call returns the state, or throws what [bucket]
    threw, and leaves the breaker with the map as [bucket] left it. *)
Definition state_call (br : t) (key : string) : (Error + BreakerState) * t :=
  match bucket br key with
  | (inl e, br1) => (inl e, br1)
  | (inr b, br1) => (inr (state b), br1)
  end.

(** The key a call is about. *)
Definition op_key (op : Op) : string :=
  match op with
  | OpAllow k _ | OpOnSuccess k | OpOnFailure k _ => k
  end.

(** The calls that report a result ([onSuccess], [onFailure]). *)
Definition is_outcome (op : Op) : bool :=
  match op with OpAllow _ _ => false | _ => true end.

(** The number of results reported for [key] in a run of calls. *)
Definition outcomes_for (key : string) (ops : list Op) : nat :=
  length (filter (fun op => is_outcome op = true /\ op_key op = key) ops).

(** An [allow] on [key] in a run reads the clock before [deadline]. *)
Definition allow_before (key : string) (deadline : Q) (op : Op) : Prop :=
  match op with
  | OpAllow k nowMs => k = key -> (Js.num nowMs < deadline)%Q
  | _ => True
  end.

(** The window of a bucket built under options [o]: well-formed, and of
    the size the constructor gives a window for [windowSize]. *)
Definition window_inv (o : BreakerOptions) (b : BreakerBucket) : Prop :=
  RollingWindow.wf (window b) /\
  RollingWindow.new (windowSize o)
  = inr (RollingWindow.make (RollingWindow.size (window b))).

(** What a call does to the bucket of its own key depends on the options
    and on that bucket only. *)
Definition step_bucket (o : BreakerOptions) (b : BreakerBucket) (op : Op)
  : BreakerBucket :=
  match op with
  | OpAllow _ now => snd (allow_bucket o b now)
  | OpOnSuccess _ => snd (onSuccess_bucket o b)
  | OpOnFailure _ now => snd (onFailure_bucket o b now)
  end.

End BreakerAudit.

(* ===================================================================== *)
(** ** src/http.ts *)
(* ===================================================================== *)

Module Http.
Import Errors.

(** A value of the header object undici returns: a string, an array of
    strings, or anything else, given by what [String(v)] yields for it. *)
Inductive HeaderValue : Type :=
| HString (s : string)
| HArray (vs : list string)
| HOther (as_string : string).

(** The value [normalizeHeaders] stores for a header: [v.join(", ")],
    [v], or [String(v)]. *)
Definition render (v : HeaderValue) : string :=
  match v with
  | HArray vs => String.concat ", " vs
  | HString s => s
  | HOther s => s
  end.

(** [out[name] = value] on the plain object [out] (created as [{}]) for a
    string [value]: the property is created or overwritten, except that
    the name ["__proto__"] reaches the setter inherited from
    [Object.prototype], which ignores a value that is not an object, so
    [out] gets no property of that name.  The object is the map of its own
    properties. *)
Definition assign (name value : string) (out : gmap string string)
  : gmap string string :=
  if decide (name = "__proto__") then out else <[name := value]> out.

(** [normalizeHeaders(headers)].  [headers] is [None] when it is falsy and
    otherwise the entries [Object.entries(headers)] enumerates, in that
    order; [toLowerCase] is the platform's [String.prototype.toLowerCase].
    Every branch of the loop body assigns a string to
    [out[k.toLowerCase()]]. *)
Definition normalizeHeaders (toLowerCase : string -> string)
    (headers : option (list (string * HeaderValue))) : gmap string string :=
  match headers with
  | None => ∅
  | Some entries =>
      fold_left (fun out kv => assign (toLowerCase (fst kv)) (render (snd kv)) out)
                entries ∅
  end.

(** How the one exchange [doHttpRequest] awaits went: [undiciRequest]
    rejected with an error of the given [name]; it resolved but reading the
    body ([res.body.arrayBuffer()]) rejected; or both resolved. *)
Inductive Exchange : Type :=
| RequestThrew (name : string)
| BodyThrew (statusCode : Z) (headers : option (list (string * HeaderValue)))
    (name : string)
| Completed (statusCode : Z) (headers : option (list (string * HeaderValue)))
    (body : string).

(** The object [doHttpRequest] returns: [{ status, headers, body }]. *)
Record HttpResponse : Type := mkHttpResponse {
  status : Z;
  headers : gmap string string;
  body : string
}.

(** The [catch] block: an error named ["AbortError"] becomes
    [RequestTimeoutError(requestTimeoutMs)], any other is rethrown. *)
Definition on_catch (name : string) (requestTimeoutMs : Q) : Error :=
  if decide (name = "AbortError") then RequestTimeoutError requestTimeoutMs
  else TransportError name.

(** What the promise of [doHttpRequest(req, requestTimeoutMs)] settles to,
    given how the exchange went.  (The [finally] block clears the abort
    timer on every path; the timer itself belongs to the runtime.) *)
Definition doHttpRequest (toLowerCase : string -> string)
    (x : Exchange) (requestTimeoutMs : Q) : Error + HttpResponse :=
  match x with
  | RequestThrew name => inl (on_catch name requestTimeoutMs)
  | BodyThrew _ _ name => inl (on_catch name requestTimeoutMs)
  | Completed statusCode hs b =>
      inr {| status := statusCode;
             headers := normalizeHeaders toLowerCase hs;
             body := b |}
  end.

(** The entries of [entries] whose normalised name is [k]. *)
Definition named (toLowerCase : string -> string) (k : string)
    (entries : list (string * HeaderValue)) : list (string * HeaderValue) :=
  filter (fun kv => toLowerCase (fst kv) = k) entries.

(** ASCII lower-casing, the restriction of [toLowerCase] to header names
    made of ASCII characters. *)
Definition lower_ascii (a : Ascii.ascii) : Ascii.ascii :=
  let n := Ascii.nat_of_ascii a in
  if (65 <=? n) && (n <=? 90) then Ascii.ascii_of_nat (n + 32) else a.

Fixpoint ascii_lower (s : string) : string :=
  match s with
  | EmptyString => EmptyString
  | String a rest => String (lower_ascii a) (ascii_lower rest)
  end.

End Http.

(* ===================================================================== *)
(** ** src/client.ts: [request] without interleaving, and with [http.ts] *)
(* ===================================================================== *)

Module Pipeline.
Import Errors Client.

(** The response as [request] hands it on.  The header object becomes the
    list of its entries. *)
Definition to_response (r : Http.HttpResponse) : ResilientResponse :=
  {| status := Http.status r;
     resp_headers := map_to_list (Http.headers r);
     resp_body := Http.body r |}.

(** How [await doHttpRequest(req, this.requestTimeoutMs)] settles for a
    client, given how the exchange went. *)
Definition transport_result (toLowerCase : string -> string) (c : t)
    (x : Http.Exchange) : Error + ResilientResponse :=
  match Http.doHttpRequest toLowerCase x (requestTimeoutMs c) with
  | inl e => inl e
  | inr r => inr (to_response r)
  end.

(** Segment 3 of [request] fed by [doHttpRequest]. *)
Definition request_after_exchange (toLowerCase : string -> string)
    (ctx : Ctx) (start : Z) (x : Http.Exchange)
    (nowSignal nowEnd nowSignal2 nowEnd2 : Z)
  : M ResilientResponse :=
  fun c =>
    request_completed ctx start (transport_result toLowerCase c x)
      nowSignal nowEnd nowSignal2 nowEnd2 c.

(** The clock readings of one call of [request], in program order: by
    [allow], into [start], and the four of segment 3. *)
Record Clocks : Type := mkClocks {
  atAllow : Z;
  atStart : Z;
  atSignal : Z;
  atEnd : Z;
  atSignal2 : Z;
  atEnd2 : Z
}.

(** One call of [request] whose segments run back to back, no other request
    in between: [result] is how the transport promise settles if the
    request gets that far.  The value is what the promise of [request]
    settles to, or [None] when the request is left waiting in the limiter's
    queue. *)
Definition request_uninterrupted (req : ResilientRequest) (requestId : string)
    (clk : Clocks) (result : Error + ResilientResponse)
  : M (option ResilientResponse) :=
  b <- request_begin req requestId (atAllow clk) ;;
  match b with
  | (ctx, Limiter.Pending p) => ret None
  | (ctx, settled) =>
      let outcome :=
        match settled with Limiter.Rejected e => Some e | _ => None end in
      a <- request_acquired ctx outcome (atStart clk) ;;
      let '(ctx', start) := a in
      r <- request_completed ctx' start result
             (atSignal clk) (atEnd clk) (atSignal2 clk) (atEnd2 clk) ;;
      ret (Some r)
  end.

(** What can happen on a client between two points in time: segments of
    requests, and timers of the limiter firing. *)
Inductive Op : Type :=
| OpBegin (req : ResilientRequest) (requestId : string) (nowMs : Z)
| OpAcquired (ctx : Ctx) (outcome : option Error) (nowMs : Z)
| OpCompleted (ctx : Ctx) (start : Z) (result : Error + ResilientResponse)
    (nowSignal nowEnd nowSignal2 nowEnd2 : Z)
| OpTimerFires (h : nat).

Definition step (c : t) (op : Op) : t :=
  match op with
  | OpBegin req requestId nowMs => exec (request_begin req requestId nowMs) c
  | OpAcquired ctx outcome nowMs => exec (request_acquired ctx outcome nowMs) c
  | OpCompleted ctx start result s e s2 e2 =>
      exec (request_completed ctx start result s e s2 e2) c
  | OpTimerFires h => exec (limiter_timer_fires h) c
  end.

Definition run (c : t) (ops : list Op) : t := fold_left step ops c.

(** A request for [key] that begins in a run reads the clock before
    [deadline]. *)
Definition begins_before (c : t) (key : string) (deadline : Q) (op : Op) : Prop :=
  match op with
  | OpBegin req _ nowMs => keyFn c req = inr key -> (Js.num nowMs < deadline)%Q
  | _ => True
  end.

(** What no segment of [request] writes: the timeout, [keyFn] and the
    listeners. *)
Definition config (c : t)
  : Q * (ResilientRequest -> Error + string)
    * (list Effect -> Event -> option Error) :=
  (requestTimeoutMs c, keyFn c, listeners c).

(** Run from [c], the computation [m] leaves the breaker as the breaker of
    [c0] is after some further calls, among which every [allow] on [key]
    reads a clock before [deadline]; and it leaves the configuration of
    [c0]. *)
Definition confined_from {A} (c0 : t) (key : string) (deadline : Q)
    (m : M A) (c : t) : Prop :=
  exists bops,
    breaker (snd (m c)) = Breaker.run (breaker c0) bops /\
    Forall (BreakerAudit.allow_before key deadline) bops /\
    config (snd (m c)) = config c0.

(** The outbound exchanges started among a list of effects. *)
Definition transports (es : list Effect) : list Effect := filter is_transport es.

(** What counts as a failure of the exchange for the breaker. *)
Definition failed (result : Error + ResilientResponse) : Prop :=
  match result with
  | inl _ => True
  | inr res => (500 <= status res)%Z
  end.

End Pipeline.

(* ===================================================================== *)
(** ** demo/loadgen.ts *)
(* ===================================================================== *)

Module Loadgen.
Import Errors Client.

(** [chunkIndices(total, workers)]:
    [chunks = Array.from({ length: workers }, () => []);
     for (let i = 0; i < total; i++) chunks[i % workers].push(i)].
    With [workers = 0] the array is empty and [i % 0] is [NaN], so the first
    iteration reads [undefined.push] and throws a [TypeError]: the result is
    [None].  With [workers > 0] the index [i % workers] is in range. *)
Definition chunkIndices (total workers : nat) : option (list (list nat)) :=
  fold_left
    (fun acc i =>
       match acc with
       | None => None
       | Some chunks =>
           if workers =? 0 then None
           else Some (alter (fun ch => ch ++ [i]) (i mod workers) chunks)
       end)
    (seq 0 total)
    (Some (replicate workers [])).

(** [classifyErr(err)]: the [instanceof] chain. *)
Definition classifyErr (err : Error) : string :=
  match err with
  | CircuitOpenError _ _ => "circuitOpen"
  | QueueFullError _ => "queueFull"
  | QueueTimeoutError _ => "queueTimeout"
  | RequestTimeoutError _ => "timeout"
  | _ => "otherErr"
  end.

(** The counters object [c] in its initial state. *)
Definition counters0 : gmap string nat :=
  <["ok" := 0]> (<["http5xx" := 0]> (<["timeout" := 0]> (<["queueFull" := 0]>
  (<["queueTimeout" := 0]> (<["circuitOpen" := 0]> (<["otherErr" := 0]> ∅)))))).

(** The names of the counters. *)
Definition counter_names : list string :=
  ["ok"; "http5xx"; "timeout"; "queueFull"; "queueTimeout"; "circuitOpen";
   "otherErr"].

(** The counter one finished request goes to: the two branches of the [try]
    and the [catch] of [worker]. *)
Definition counter_of (outcome : Error + ResilientResponse) : string :=
  match outcome with
  | inr resp => if (500 <=? status resp)%Z then "http5xx" else "ok"
  | inl err => classifyErr err
  end.

(** [c[k]++] on a counter that exists (each name [counter_of] yields is a
    key of [c] from the start). *)
Definition bump (k : string) (c : gmap string nat) : gmap string nat :=
  alter S k c.

(** The bookkeeping of [worker] for one finished request. *)
Definition tally (c : gmap string nat) (outcome : Error + ResilientResponse)
  : gmap string nat :=
  bump (counter_of outcome) c.

(** The sum [worker] takes modulo 50:
    [c.ok + c.http5xx + c.timeout + c.queueFull + c.queueTimeout
     + c.circuitOpen + c.otherErr]. *)
Definition finished (c : gmap string nat) : nat :=
  default 0 (c !! "ok") + default 0 (c !! "http5xx") + default 0 (c !! "timeout")
  + default 0 (c !! "queueFull") + default 0 (c !! "queueTimeout")
  + default 0 (c !! "circuitOpen") + default 0 (c !! "otherErr").

(** The requests among [outcomes] that go to counter [k]. *)
Definition counted_as (k : string) (outcomes : list (Error + ResilientResponse))
  : list (Error + ResilientResponse) :=
  filter (fun o => counter_of o = k) outcomes.

End Loadgen.
(* ===================================================================== *)
(** * Properties *)
(* ===================================================================== *)

(** ** Comparisons of counters with configured numbers *)

Section JsFacts.

Lemma ltb_lt (x y : Q) : Js.ltb x y = true <-> (x < y)%Q.
Proof.
  unfold Js.ltb. rewrite negb_true_iff, <- not_true_iff_false, Qle_bool_iff.
  split; [apply Qnot_le_lt|apply Qlt_not_le].
Qed.

Lemma ltb_ge (x y : Q) : Js.ltb x y = false <-> (y <= x)%Q.
Proof.
  unfold Js.ltb. by rewrite negb_false_iff, Qle_bool_iff.
Qed.

Lemma leb_le (x y : Q) : Js.leb x y = true <-> (x <= y)%Q.
Proof. apply Qle_bool_iff. Qed.

Lemma leb_gt (x y : Q) : Js.leb x y = false <-> (y < x)%Q.
Proof.
  unfold Js.leb. rewrite <- not_true_iff_false, Qle_bool_iff.
  split; [apply Qnot_le_lt|apply Qlt_not_le].
Qed.

Lemma eqb_eq (x y : Q) : Js.eqb x y = true <-> (x == y)%Q.
Proof. apply Qeq_bool_iff. Qed.

Lemma eqb_neq (x y : Q) : Js.eqb x y = false <-> ~ (x == y)%Q.
Proof.
  unfold Js.eqb. by rewrite <- not_true_iff_false, Qeq_bool_iff.
Qed.

(** An integral counter is below a number exactly when it is below the
    number rounded up. *)
Lemma num_lt_ceiling (n : Z) (q : Q) :
  (Js.num n < q)%Q <-> (n < Qceiling q)%Z.
Proof.
  unfold Js.num. split.
  - intros H. rewrite Zlt_Qlt. eapply Qlt_le_trans; [exact H|apply Qle_ceiling].
  - intros H. eapply Qle_lt_trans; [|apply Qceiling_lt].
    rewrite <- Zle_Qle. lia.
Qed.

Lemma num_ge_ceiling (n : Z) (q : Q) :
  (q <= Js.num n)%Q <-> (Qceiling q <= n)%Z.
Proof.
  split.
  - intros H. destruct (Z.le_gt_cases (Qceiling q) n) as [|Hlt]; [done|].
    apply num_lt_ceiling in Hlt. by apply Qlt_not_le in Hlt.
  - intros H. apply Qnot_lt_le. intros Hlt%num_lt_ceiling. lia.
Qed.

Lemma ltb_ceiling (n : Z) (q : Q) :
  Js.ltb (Js.num n) q = (n <? Qceiling q)%Z.
Proof.
  apply eq_true_iff_eq. by rewrite ltb_lt, Z.ltb_lt, num_lt_ceiling.
Qed.

Lemma leb_ceiling (n : Z) (q : Q) :
  Js.leb q (Js.num n) = (Qceiling q <=? n)%Z.
Proof.
  apply eq_true_iff_eq. by rewrite leb_le, Z.leb_le, num_ge_ceiling.
Qed.

Lemma ceiling_pos (q : Q) : (0 < q)%Q -> (0 < Qceiling q)%Z.
Proof. intros H. by apply (num_lt_ceiling 0 q). Qed.

Lemma ceiling_nonneg (q : Q) : (0 <= q)%Q -> (0 <= Qceiling q)%Z.
Proof.
  intros H. rewrite <- (Qceiling_Z 0). by apply Qceiling_resp_le.
Qed.

Lemma ceiling_zero (q : Q) : (0 <= q)%Q -> (Qceiling q = 0%Z <-> (q == 0)%Q).
Proof.
  intros H. split.
  - intros H0. apply Qle_antisym; [|done].
    rewrite <- H0. apply Qle_ceiling.
  - intros H0. rewrite H0. apply (Qceiling_Z 0).
Qed.

Lemma is_integer_floor (q : Q) :
  Js.is_integer q = true <-> (inject_Z (Qfloor q) == q)%Q.
Proof. apply Qeq_bool_iff. Qed.

Lemma is_integer_ceiling (q : Q) :
  Js.is_integer q = true -> (inject_Z (Qceiling q) == q)%Q.
Proof.
  intros H%is_integer_floor. rewrite <- H at 1. by rewrite Qceiling_Z.
Qed.

(** A counter within a number rounded up is less than one above the
    number. *)
Lemma le_ceiling_lt_succ (n : Z) (q : Q) :
  (n <= Qceiling q)%Z -> (Js.num n < q + 1)%Q.
Proof.
  intros H. assert (Hlt : (Js.num (n - 1) < q)%Q) by (apply num_lt_ceiling; lia).
  unfold Js.num in *. unfold Z.sub in Hlt.
  rewrite inject_Z_plus, inject_Z_opp in Hlt.
  change (inject_Z 1) with 1%Q in Hlt. lra.
Qed.

Lemma is_integer_num (n : Z) : Js.is_integer (Js.num n) = true.
Proof. apply is_integer_floor. unfold Js.num. by rewrite Qfloor_Z. Qed.

(** What [new Array(n)] accepts, for a positive [n]. *)
Lemma array_length_Some (q : Q) (n : nat) :
  (0 < q)%Q -> Js.array_length q = Some n -> 0 < n /\ (Js.len n == q)%Q.
Proof.
  intros Hpos. unfold Js.array_length.
  destruct (Js.is_integer q) eqn:Hint; [|done].
  destruct (Js.leb 0 q); [|done]. destruct (Js.ltb q _); [|done].
  intros [= <-]. apply is_integer_floor in Hint.
  assert (0 < Qfloor q)%Z.
  { rewrite Zlt_Qlt. by rewrite Hint. }
  split; [lia|]. unfold Js.len. rewrite Z2Nat.id by lia. done.
Qed.

End JsFacts.

(** ** Rolling window *)

Section RollingWindowFacts.
Import RollingWindow.

Lemma loop_sum (l : list nat) (n a acc : nat) :
  fold_left (fun sum i => sum + default 0 (l !! i)) (seq a n) acc
  = acc + sum_list (take n (drop a l)).
Proof.
  revert a acc. induction n as [|n IH]; intros a acc; simpl.
  - lia.
  - rewrite IH. destruct (l !! a) as [x|] eqn:Hx; simpl.
    + rewrite (drop_S l x a Hx). simpl. lia.
    + apply lookup_ge_None in Hx.
      rewrite !drop_ge by lia. rewrite !take_nil. simpl. lia.
Qed.

Lemma failures_take (w : t) :
  failures w = sum_list (take (count w) (buf w)).
Proof. unfold failures. rewrite loop_sum. by rewrite drop_0. Qed.

Lemma sum_list_ring (w : t) :
  sum_list (ring_view w) = sum_list (buf w).
Proof.
  unfold ring_view. rewrite sum_list_with_app.
  rewrite <- (take_drop (idx w) (buf w)) at 3. rewrite sum_list_with_app. lia.
Qed.

Lemma wf_make (N : nat) : 0 < N -> wf (make N).
Proof. intros HN. unfold wf, make; simpl. rewrite length_replicate. lia. Qed.

Lemma wf_push (w : t) (v : Bit01) : wf w -> wf (push w v).
Proof.
  intros (Hs & Hl & Hi). unfold wf, push; simpl.
  rewrite length_insert. split_and!; [done..|].
  apply Nat.mod_upper_bound. lia.
Qed.

Lemma wf_reset (w : t) : wf w -> wf (reset w).
Proof.
  intros (Hs & Hl & Hi). unfold wf, reset; simpl.
  rewrite length_replicate. lia.
Qed.

Lemma reset_is_make (w : t) : wf w -> reset w = make (size w).
Proof. intros (Hs & Hl & Hi). unfold reset, make. by rewrite Hl. Qed.

Lemma size_push_all (w : t) (xs : list Bit01) : size (push_all w xs) = size w.
Proof.
  unfold push_all. revert w.
  induction xs as [|x xs IH]; intros w; cbn [fold_left]; [done|].
  by rewrite IH.
Qed.

Lemma wf_push_all (w : t) (xs : list Bit01) : wf w -> wf (push_all w xs).
Proof.
  unfold push_all. revert w.
  induction xs as [|x xs IH]; intros w Hw; cbn [fold_left]; [done|].
  apply IH. by apply wf_push.
Qed.

Lemma last_n_snoc {A} (n : nat) (h : list A) (v : A) :
  0 < n -> n <= length h ->
  last_n n (h ++ [v]) = drop 1 (last_n n h) ++ [v].
Proof.
  intros Hn Hh. unfold last_n. rewrite length_app. simpl.
  rewrite drop_drop.
  replace (length h + 1 - n) with (length h - n + 1) by lia.
  rewrite drop_app_le; [done|lia].
Qed.

Lemma tracks_make (N : nat) : 0 < N -> tracks (make N) [].
Proof.
  intros HN. split; [by apply wf_make|]. simpl.
  split_and!.
  - by rewrite Nat.Div0.mod_0_l.
  - rewrite bool_decide_eq_false_2; [done|lia].
  - unfold ring_view, last_n. simpl. rewrite !app_nil_r.
    rewrite length_replicate. by rewrite Nat.sub_diag.
Qed.

Lemma tracks_push (w : t) (xs : list Bit01) (v : Bit01) :
  tracks w xs -> tracks (push w v) (xs ++ [v]).
Proof.
  intros (Hwf & Hidx & Hfill & Hring).
  pose proof Hwf as (Hs & Hl & Hi).
  split; [by apply wf_push|].
  assert (Hidx' : idx (push w v) = length (xs ++ [v]) mod size (push w v)).
  { simpl. rewrite length_app. simpl. rewrite Hidx.
    by rewrite Nat.Div0.add_mod_idemp_l. }
  split_and!; [exact Hidx'| |].
  - simpl. simpl in Hidx'. rewrite length_app in *. simpl in *.
    destruct (Nat.eqb_spec ((idx w + 1) mod size w) 0) as [H0|H0].
    + symmetry. apply bool_decide_eq_true_2.
      rewrite Hidx' in H0. apply Nat.Div0.mod_divides in H0 as [c Hc].
      destruct c; nia.
    + rewrite Hfill. apply bool_decide_ext.
      split; [lia|]. intros Hle.
      destruct (decide (size w = length xs + 1)) as [He|He]; [|lia].
      exfalso. apply H0. rewrite Hidx', <- He. apply Nat.Div0.mod_same.
  - destruct (lookup_lt_is_Some_2 (buf w) (idx w)) as [x Hx]; [lia|].
    rewrite fmap_app, app_assoc. simpl.
    rewrite last_n_snoc; [|lia|rewrite length_app, length_replicate; lia].
    rewrite <- Hring. unfold ring_view at 2.
    rewrite (drop_S _ _ _ Hx). simpl. rewrite drop_0.
    unfold ring_view, push; simpl.
    assert (Hbuf : <[idx w := bit_val v]> (buf w)
                   = take (idx w) (buf w) ++ bit_val v :: drop (S (idx w)) (buf w)).
    { rewrite <- (take_drop_middle _ _ _ Hx) at 1.
      rewrite insert_app_r_alt; rewrite length_take; [|lia].
      replace (idx w - idx w `min` length (buf w)) with 0 by lia. done. }
    rewrite Hbuf.
    assert (Hlt : length (take (idx w) (buf w)) = idx w) by (rewrite length_take; lia).
    destruct (decide (idx w + 1 < size w)) as [Hlt'|Hge].
    + rewrite Nat.mod_small by lia.
      replace (idx w + 1) with (length (take (idx w) (buf w)) + 1) by lia.
      rewrite drop_app_add, take_app_add. simpl. rewrite take_0.
      by rewrite <- app_assoc.
    + assert (idx w + 1 = size w) as -> by lia.
      rewrite Nat.Div0.mod_same. rewrite drop_0, take_0, app_nil_r.
      rewrite (drop_ge (buf w) (S (idx w))) by lia. done.
Qed.

Lemma tracks_push_all (w : t) (xs ys : list Bit01) :
  tracks w xs -> tracks (push_all w ys) (xs ++ ys).
Proof.
  revert w xs. induction ys as [|y ys IH]; intros w xs Hw; simpl.
  - by rewrite app_nil_r.
  - replace (xs ++ y :: ys) with ((xs ++ [y]) ++ ys) by (by rewrite <- app_assoc).
    apply IH. by apply tracks_push.
Qed.

Lemma count_tracks (w : t) (xs : list Bit01) :
  tracks w xs -> count w = size w `min` length xs.
Proof.
  intros ((Hs & Hl & Hi) & Hidx & Hfill & _). unfold count. rewrite Hfill.
  case_bool_decide; [lia|].
  rewrite Hidx, Nat.mod_small; lia.
Qed.

Lemma failures_tracks (w : t) (xs : list Bit01) :
  tracks w xs ->
  failures w = sum_list (bit_val <$> last_n (size w `min` length xs) xs).
Proof.
  intros Ht. rewrite failures_take, (count_tracks w xs Ht).
  destruct Ht as ((Hs & Hl & Hi) & Hidx & Hfill & Hring).
  destruct (decide (size w <= length xs)) as [Hle|Hlt].
  - rewrite Nat.min_l by lia. rewrite take_ge by lia.
    rewrite <- sum_list_ring, Hring. f_equal.
    unfold last_n. rewrite length_app, length_replicate, length_fmap.
    replace (size w + length xs - size w) with (size w + (length xs - size w)) by lia.
    rewrite <- (length_replicate (size w) 0) at 1.
    rewrite drop_app_add. by rewrite fmap_drop.
  - rewrite Nat.min_r by lia.
    rewrite Nat.mod_small in Hidx by lia.
    unfold last_n. rewrite Nat.sub_diag, drop_0. f_equal.
    unfold ring_view, last_n in Hring.
    rewrite length_app, length_replicate, length_fmap in Hring.
    replace (size w + length xs - size w) with (length xs) in Hring by lia.
    rewrite drop_app_le in Hring by (rewrite length_replicate; lia).
    apply app_inj_1 in Hring as [_ Hring]; [by rewrite <- Hidx|].
    rewrite !length_drop, length_replicate. lia.
Qed.

Lemma sum_bits_le (bs : list Bit01) : sum_list (bit_val <$> bs) <= length bs.
Proof.
  induction bs as [|b bs IH]; simpl; [lia|].
  destruct b; simpl; [by apply Nat.le_le_succ_r | by apply le_n_S].
Qed.

Lemma failures_le_count_tracks (w : t) (xs : list Bit01) :
  tracks w xs -> failures w <= count w.
Proof.
  intros Ht. rewrite (failures_tracks w xs Ht), (count_tracks w xs Ht).
  etrans; [apply sum_bits_le|]. unfold last_n. rewrite length_drop. lia.
Qed.

Lemma ratio_in_unit (f n : nat) :
  f <= n -> 0 < n ->
  (0 <= inject_Z (Z.of_nat f) / inject_Z (Z.of_nat n) <= 1)%Q.
Proof.
  intros Hf Hn.
  assert (Hpos : (0 < inject_Z (Z.of_nat n))%Q).
  { replace 0%Q with (inject_Z 0) by done. rewrite <- Zlt_Qlt. lia. }
  split.
  - apply Qle_shift_div_l; [done|]. rewrite Qmult_0_l.
    replace 0%Q with (inject_Z 0) by done. rewrite <- Zle_Qle. lia.
  - apply Qle_shift_div_r; [done|]. rewrite Qmult_1_l.
    rewrite <- Zle_Qle. lia.
Qed.

Lemma failureRate_in_unit (w : t) :
  failures w <= count w -> (0 <= failureRate w <= 1)%Q.
Proof.
  intros Hle. unfold failureRate.
  destruct (Nat.eqb_spec (count w) 0) as [H0|H0].
  - split; [apply Qle_refl|]. by apply Qle_bool_imp_le.
  - apply ratio_in_unit; lia.
Qed.

Lemma new_inr (sz : Q) (w : t) :
  new sz = inr w -> exists N, 0 < N /\ w = make N /\ (Js.len N == sz)%Q.
Proof.
  unfold new. destruct (Js.leb sz 0) eqn:Hpos; [done|].
  apply leb_gt in Hpos.
  destruct (Js.array_length sz) as [N|] eqn:Hlen; [|done].
  intros [= <-]. exists N.
  destruct (array_length_Some sz N Hpos Hlen). done.
Qed.

Lemma new_len (N : nat) :
  0 < N -> (Z.of_nat N < 2 ^ 32)%Z -> new (Js.len N) = inr (make N).
Proof.
  intros HN Hlt. unfold new.
  assert (Hpos : (0 < Js.len N)%Q).
  { unfold Js.len. rewrite <- (Zlt_Qlt 0). lia. }
  apply leb_gt in Hpos as Hpos'. rewrite Hpos'.
  unfold Js.array_length, Js.len.
  pose proof (is_integer_num (Z.of_nat N)) as Hint. unfold Js.num in Hint.
  rewrite Hint, Qfloor_Z, Nat2Z.id.
  replace (Js.leb 0 (inject_Z (Z.of_nat N))) with true
    by (symmetry; apply leb_le, Qlt_le_weak, Hpos).
  replace (Js.ltb (inject_Z (Z.of_nat N)) (inject_Z (2 ^ 32))) with true
    by (symmetry; apply ltb_lt; by rewrite <- Zlt_Qlt).
  done.
Qed.

(** C9. Window arithmetic: for a window of capacity [N >= 1], freshly
    constructed (from any number the constructor accepts, [N] being the
    size it got) or just reset, and any sequence [xs] of pushes,
    [count = min N |xs|], [failures] is the sum of the last [min N |xs|]
    pushed outcomes, [failures <= count], and [failureRate] is
    [failures / count] when [count > 0] and [0] when [count = 0]; hence it
    lies in [0, 1]. *)
Theorem C9_window_arithmetic (sz : Q) (pre xs : list Bit01) (w0 : t) :
  (new sz = inr w0 \/
   exists w1, new sz = inr w1 /\ w0 = reset (push_all w1 pre)) ->
  let N := size w0 in
  let w := push_all w0 xs in
  let k := N `min` length xs in
  (Js.len N == sz)%Q /\
  1 <= N /\
  count w = k /\
  failures w = sum_list (bit_val <$> last_n k xs) /\
  failures w <= count w /\
  (0 < count w ->
     failureRate w
     = (inject_Z (Z.of_nat (failures w)) / inject_Z (Z.of_nat (count w)))%Q) /\
  (count w = 0 -> failureRate w = 0%Q) /\
  (0 <= failureRate w <= 1)%Q.
Proof.
  intros Hw0.
  assert (HN : exists N, 0 < N /\ w0 = make N /\ (Js.len N == sz)%Q).
  { destruct Hw0 as [Hnew|(w1 & Hnew & ->)];
      apply new_inr in Hnew as (N & HN & -> & Hsz); exists N; [done|].
    split; [done|]. split; [|done].
    rewrite reset_is_make by (by apply wf_push_all, wf_make).
    by rewrite size_push_all. }
  destruct HN as (N & HN & -> & HszN). intros N0 w k.
  change N0 with N in *. clear N0.
  assert (Ht : tracks w xs).
  { apply (tracks_push_all (make N) [] xs). by apply tracks_make. }
  assert (Hsz : size w = N) by (unfold w; by rewrite size_push_all).
  pose proof (failures_le_count_tracks w xs Ht) as Hle.
  split_and!.
  - done.
  - lia.
  - by rewrite (count_tracks w xs Ht), Hsz.
  - by rewrite (failures_tracks w xs Ht), Hsz.
  - done.
  - intros Hpos. unfold failureRate.
    destruct (Nat.eqb_spec (count w) 0); [lia|done].
  - intros H0. unfold failureRate. by rewrite H0.
  - by apply failureRate_in_unit.
  - by apply failureRate_in_unit.
Qed.

Lemma C9_window_arithmetic_witness :
  let w := push_all (reset (push_all (make 3) [One; One]))
                    [One; Zero; Zero; One; One] in
  count w = 3 /\ failures w = 2 /\ (0 <= failureRate w <= 1)%Q.
Proof.
  intros w.
  destruct (C9_window_arithmetic 3 [One; One] [One; Zero; Zero; One; One]
              (reset (push_all (make 3) [One; One]))
              (or_intror (ex_intro _ (make 3) (conj eq_refl eq_refl))))
    as (_ & _ & Hc & Hf & _ & _ & _ & Hr).
  split_and!; [exact Hc|exact Hf|exact (proj1 Hr)|exact (proj2 Hr)].
Defined.

End RollingWindowFacts.

(** ** Concurrency limiter *)

Section LimiterFacts.
Import Errors Limiter.

(** [settle] touches the promise table only. *)
Lemma settle_frame (p : nat) (s : PromiseState) (l : t) :
  maxInFlight (settle p s l) = maxInFlight l /\
  maxQueue (settle p s l) = maxQueue l /\
  enqueueTimeoutMs (settle p s l) = enqueueTimeoutMs l /\
  inFlight (settle p s l) = inFlight l /\
  queue (settle p s l) = queue l /\
  timers (settle p s l) = timers l /\
  fresh (settle p s l) = fresh l.
Proof. unfold settle. by destruct (promises l !! p) as [[]|]. Qed.

Lemma settle_unsettled (p : nat) (s : PromiseState) (l : t) :
  promises l !! p = Some Unsettled ->
  promises (settle p s l) = <[p := s]> (promises l).
Proof. intros H. unfold settle. by rewrite H. Qed.

Lemma settle_other (p q : nat) (s : PromiseState) (l : t) :
  q <> p -> promises (settle p s l) !! q = promises l !! q.
Proof.
  intros Hne. unfold settle.
  destruct (promises l !! p) as [[]|]; simpl; try done.
  by rewrite lookup_insert_ne.
Qed.

Lemma settle_keeps_settled (p q : nat) (s s' : PromiseState) (l : t) :
  promises l !! q = Some s' -> s' <> Unsettled ->
  promises (settle p s l) !! q = Some s'.
Proof.
  intros Hq Hs. destruct (decide (q = p)) as [->|Hne].
  - unfold settle. rewrite Hq. by destruct s'.
  - by rewrite settle_other.
Qed.

Ltac settle_fields :=
  repeat match goal with
  | |- context [maxInFlight (settle ?p ?s ?l)] =>
      rewrite (proj1 (settle_frame p s l))
  | |- context [maxQueue (settle ?p ?s ?l)] =>
      rewrite (proj1 (proj2 (settle_frame p s l)))
  | |- context [enqueueTimeoutMs (settle ?p ?s ?l)] =>
      rewrite (proj1 (proj2 (proj2 (settle_frame p s l))))
  | |- context [inFlight (settle ?p ?s ?l)] =>
      rewrite (proj1 (proj2 (proj2 (proj2 (settle_frame p s l)))))
  | |- context [queue (settle ?p ?s ?l)] =>
      rewrite (proj1 (proj2 (proj2 (proj2 (proj2 (settle_frame p s l))))))
  | |- context [timers (settle ?p ?s ?l)] =>
      rewrite (proj1 (proj2 (proj2 (proj2 (proj2 (proj2 (settle_frame p s l)))))))
  | |- context [fresh (settle ?p ?s ?l)] =>
      rewrite (proj2 (proj2 (proj2 (proj2 (proj2 (proj2 (settle_frame p s l)))))))
  end.

(** The tests of [acquire], read on the limits rounded up. *)
Lemma fast_test (l : t) :
  Js.ltb (Js.num (inFlight l)) (maxInFlight l)
  = (inFlight l <? permits (maxInFlight l))%Z.
Proof. apply ltb_ceiling. Qed.

Lemma full_test (l : t) :
  Js.eqb (maxQueue l) 0 || Js.leb (maxQueue l) (Js.len (length (queue l)))
  = (permits (maxQueue l) <=? Z.of_nat (length (queue l)))%Z.
Proof.
  unfold Js.len. rewrite (leb_ceiling (Z.of_nat (length (queue l)))).
  fold (permits (maxQueue l)).
  destruct (Js.eqb (maxQueue l) 0) eqn:H0; [|done]. simpl.
  apply eqb_eq in H0. symmetry. apply Z.leb_le.
  assert (permits (maxQueue l) = 0%Z) as ->; [|lia].
  unfold permits. rewrite H0. apply (Qceiling_Z 0).
Qed.

(** The three branches of [acquire], as equations. *)
Lemma acquire_fast (l : t) :
  (inFlight l < permits (maxInFlight l))%Z ->
  acquire l = (Resolved, set_inFlight (inFlight l + 1)%Z l).
Proof.
  intros H. unfold acquire. rewrite fast_test.
  destruct (Z.ltb_spec (inFlight l) (permits (maxInFlight l))); [done|lia].
Qed.

Lemma acquire_full (l : t) :
  (permits (maxInFlight l) <= inFlight l)%Z ->
  permits (maxQueue l) = 0%Z \/
    (permits (maxQueue l) <= Z.of_nat (length (queue l)))%Z ->
  acquire l = (Rejected (QueueFullError (maxQueue l)), l).
Proof.
  intros H Hq. unfold acquire. rewrite fast_test, full_test.
  destruct (Z.ltb_spec (inFlight l) (permits (maxInFlight l))); [lia|].
  destruct (Z.leb_spec (permits (maxQueue l)) (Z.of_nat (length (queue l))));
    [done|lia].
Qed.

Lemma acquire_enqueue (l : t) :
  (permits (maxInFlight l) <= inFlight l)%Z ->
  permits (maxQueue l) <> 0%Z ->
  (Z.of_nat (length (queue l)) < permits (maxQueue l))%Z ->
  acquire l =
    (Pending (fresh l),
     {| maxInFlight := maxInFlight l; maxQueue := maxQueue l;
        enqueueTimeoutMs := enqueueTimeoutMs l;
        inFlight := inFlight l;
        queue := queue l ++ [mkWaiter (fresh l) (fresh l) (fresh l)];
        timers := <[fresh l := mkTimer (enqueueTimeoutMs l) (fresh l)]> (timers l);
        promises := <[fresh l := Unsettled]> (promises l);
        fresh := S (fresh l) |}).
Proof.
  intros H Hq Hlen. unfold acquire. rewrite fast_test, full_test.
  destruct (Z.ltb_spec (inFlight l) (permits (maxInFlight l))); [lia|].
  destruct (Z.leb_spec (permits (maxQueue l)) (Z.of_nat (length (queue l))));
    [lia|done].
Qed.

(** Which branch [acquire] takes is decided by the state. *)
Lemma acquire_cases (l : t) :
  ((inFlight l < permits (maxInFlight l))%Z /\
   acquire l = (Resolved, set_inFlight (inFlight l + 1)%Z l)) \/
  ((permits (maxInFlight l) <= inFlight l)%Z /\
   (permits (maxQueue l) = 0%Z \/
    (permits (maxQueue l) <= Z.of_nat (length (queue l)))%Z) /\
   acquire l = (Rejected (QueueFullError (maxQueue l)), l)) \/
  ((permits (maxInFlight l) <= inFlight l)%Z /\ permits (maxQueue l) <> 0%Z /\
   (Z.of_nat (length (queue l)) < permits (maxQueue l))%Z /\
   fst (acquire l) = Pending (fresh l) /\
   inFlight (snd (acquire l)) = inFlight l /\
   queue (snd (acquire l)) = queue l ++ [mkWaiter (fresh l) (fresh l) (fresh l)]).
Proof.
  destruct (Z.lt_ge_cases (inFlight l) (permits (maxInFlight l))) as [H|H].
  { left. split; [done|]. by apply acquire_fast. }
  right.
  destruct (decide (permits (maxQueue l) = 0%Z)) as [H0|H0].
  { left. split_and!; [done|by left|]. apply acquire_full; auto. }
  destruct (Z.le_gt_cases (permits (maxQueue l)) (Z.of_nat (length (queue l))))
    as [Hl|Hl].
  { left. split_and!; [done|by right|]. apply acquire_full; auto. }
  right. rewrite acquire_enqueue by (done || lia). by split_and!.
Qed.

(** The same branches under the tests as the code writes them. *)
Lemma acquire_fast_test (l : t) :
  (Js.num (inFlight l) < maxInFlight l)%Q ->
  acquire l = (Resolved, set_inFlight (inFlight l + 1)%Z l).
Proof. intros H%num_lt_ceiling. by apply acquire_fast. Qed.

Lemma acquire_full_test (l : t) :
  (maxInFlight l <= Js.num (inFlight l))%Q ->
  (maxQueue l == 0)%Q \/ (maxQueue l <= Js.len (length (queue l)))%Q ->
  acquire l = (Rejected (QueueFullError (maxQueue l)), l).
Proof.
  intros H%num_ge_ceiling Hq. apply acquire_full; [done|].
  destruct Hq as [H0|Hl].
  - left. unfold permits. rewrite H0. apply (Qceiling_Z 0).
  - right. by apply num_ge_ceiling in Hl.
Qed.

Lemma acquire_enqueue_test (l : t) :
  (maxInFlight l <= Js.num (inFlight l))%Q ->
  ~ (maxQueue l == 0)%Q ->
  (Js.len (length (queue l)) < maxQueue l)%Q ->
  (permits (maxInFlight l) <= inFlight l)%Z /\
  permits (maxQueue l) <> 0%Z /\
  (Z.of_nat (length (queue l)) < permits (maxQueue l))%Z.
Proof.
  intros H%num_ge_ceiling H0 Hl%num_lt_ceiling. split_and!; [done| |done].
  fold (permits (maxQueue l)) in Hl. lia.
Qed.

(** The three branches of [release], as equations. *)
Lemma release_throws (l : t) :
  (inFlight l <= 0)%Z ->
  release l = (Some (PlainError "release() called when inFlight is already 0"), l).
Proof.
  intros H. unfold release. destruct (Z.leb_spec (inFlight l) 0); [done|lia].
Qed.

Lemma release_hands_off (l : t) (next : Waiter) (rest : list Waiter) :
  (0 < inFlight l)%Z -> queue l = next :: rest ->
  release l =
    (None, settle (resolve next) Fulfilled
             (clearTimeout (timer next) (set_queue rest l))).
Proof.
  intros H Hq. unfold release. rewrite Hq.
  destruct (Z.leb_spec (inFlight l) 0); [lia|done].
Qed.

Lemma release_decrements (l : t) :
  (0 < inFlight l)%Z -> queue l = [] ->
  release l = (None, set_inFlight (inFlight l - 1)%Z l).
Proof.
  intros H Hq. unfold release. rewrite Hq.
  destruct (Z.leb_spec (inFlight l) 0); [lia|done].
Qed.

(** The configuration is read-only. *)
Lemma step_config (l : t) (op : Op) :
  maxInFlight (step l op) = maxInFlight l /\
  maxQueue (step l op) = maxQueue l /\
  enqueueTimeoutMs (step l op) = enqueueTimeoutMs l.
Proof.
  destruct op as [| |h]; simpl.
  - unfold acquire. repeat case_match; by simpl.
  - unfold release. repeat case_match; simpl; settle_fields; by simpl.
  - unfold timer_fires, on_timeout.
    repeat case_match; simpl; settle_fields; by simpl.
Qed.

Lemma step_configured (l : t) (op : Op) :
  configured l -> configured (step l op).
Proof.
  unfold configured. destruct (step_config l op) as (-> & -> & ->). done.
Qed.

Lemma delete_nonempty {A} (i : nat) (q : list A) : delete i q <> [] -> q <> [].
Proof. by destruct q. Qed.

Lemma length_delete_le {A} (i : nat) (q : list A) :
  length (delete i q) <= length q.
Proof.
  revert i. induction q as [|x q IH]; intros [|i]; simpl; try lia.
  specialize (IH i). lia.
Qed.

(** Every operation preserves the capacity invariants. *)
Lemma capacity_step (l : t) (op : Op) :
  capacity_inv l -> capacity_inv (step l op).
Proof.
  intros (Hin & Hq & Hne). unfold capacity_inv.
  destruct op as [| |h]; simpl.
  - destruct (acquire_cases l) as [[H ->]|[(H & H' & ->)|(H & H0 & Hl & _ & Hi & Hq')]]; simpl.
    + split_and!; [lia|done|]. intros Hq'. specialize (Hne Hq'). lia.
    + done.
    + destruct (step_config l OpAcquire) as (Hc1 & Hc2 & _). simpl in Hc1, Hc2.
      rewrite Hc1, Hc2, Hi, Hq'. rewrite length_app. simpl.
      split_and!; [done|lia|lia].
  - destruct (Z.le_gt_cases (inFlight l) 0) as [H|H].
    { by rewrite release_throws. }
    destruct (queue l) as [|next rest] eqn:Hql.
    + rewrite release_decrements by done. simpl. rewrite Hql. simpl.
      split_and!; [lia|done|done].
    + rewrite (release_hands_off l next rest) by done. simpl.
      settle_fields. simpl. simpl in Hq.
      split_and!; [done|lia|]. intros _. by apply Hne.
  - unfold timer_fires. destruct (timers l !! h) as [e|]; [|done].
    unfold on_timeout. simpl.
    destruct (list_find _ (queue l)) as [[i w]|]; settle_fields; simpl; [|done].
    split_and!; [done| |].
    + pose proof (length_delete_le i (queue l)). lia.
    + intros Hd. apply Hne. by apply delete_nonempty in Hd.
Qed.

Lemma new_configured (o : Options) (l0 : t) :
  new o = inr l0 -> configured l0.
Proof.
  unfold new, configured. intros H.
  destruct (Js.leb (opt_maxInFlight o) 0) eqn:H1; [done|].
  destruct (Js.ltb (opt_maxQueue o) 0) eqn:H2; [done|].
  destruct (Js.leb (opt_enqueueTimeoutMs o) 0) eqn:H3; [done|].
  injection H as <-. simpl.
  apply leb_gt in H1, H3. by apply ltb_ge in H2.
Qed.

Lemma configured_permits (l : t) :
  configured l ->
  (0 < permits (maxInFlight l))%Z /\ (0 <= permits (maxQueue l))%Z.
Proof.
  intros (H1 & H2 & _). split; [by apply ceiling_pos|by apply ceiling_nonneg].
Qed.

Lemma new_fields (o : Options) (l0 : t) :
  new o = inr l0 ->
  inFlight l0 = 0%Z /\ queue l0 = [] /\ timers l0 = ∅ /\ promises l0 = ∅.
Proof.
  unfold new. intros H. repeat case_match; try done. by injection H as <-.
Qed.

Lemma new_capacity (o : Options) (l0 : t) :
  new o = inr l0 -> capacity_inv l0.
Proof.
  intros H.
  destruct (configured_permits l0 (new_configured o l0 H)) as (H1 & H2).
  destruct (new_fields o l0 H) as (Hi & Hq & _).
  unfold capacity_inv. rewrite Hi, Hq. simpl. split_and!; [lia|lia|done].
Qed.

Lemma run_snoc (l : t) (ops : list Op) (op : Op) :
  run l (ops ++ [op]) = step (run l ops) op.
Proof. unfold run. by rewrite fold_left_app. Qed.

Lemma run_app (l : t) (ops1 ops2 : list Op) :
  run l (ops1 ++ ops2) = run (run l ops1) ops2.
Proof. unfold run. by rewrite fold_left_app. Qed.

Lemma capacity_run (l : t) (ops : list Op) :
  capacity_inv l -> capacity_inv (run l ops).
Proof.
  induction ops as [|op ops IH] using rev_ind; intros H; [done|].
  rewrite run_snoc. apply capacity_step. by apply IH.
Qed.

Lemma run_cons (l : t) (op : Op) (ops : list Op) :
  run l (op :: ops) = run (step l op) ops.
Proof. done. Qed.

Lemma run_config (l : t) (ops : list Op) :
  maxInFlight (run l ops) = maxInFlight l /\
  maxQueue (run l ops) = maxQueue l /\
  enqueueTimeoutMs (run l ops) = enqueueTimeoutMs l.
Proof.
  revert l. induction ops as [|op ops IH]; intros l; [done|].
  rewrite run_cons. destruct (IH (step l op)) as (-> & -> & ->).
  apply step_config.
Qed.

Lemma new_config (o : Options) (l0 : t) :
  new o = inr l0 ->
  maxInFlight l0 = opt_maxInFlight o /\ maxQueue l0 = opt_maxQueue o /\
  enqueueTimeoutMs l0 = opt_enqueueTimeoutMs o.
Proof.
  unfold new. intros H. repeat case_match; try done. by injection H as <-.
Qed.


(** Removing position [i] from a list whose keys are distinct leaves no
    element with the key found at [i]. *)
Lemma delete_other_key {A} (f : A -> nat) (q : list A) (i : nat) (w w' : A) :
  NoDup (f <$> q) -> q !! i = Some w -> w' ∈ delete i q ->
  w' ∈ q /\ f w' <> f w.
Proof.
  intros Hnd Hi Hin.
  rewrite delete_take_drop in Hin.
  rewrite <- (take_drop_middle q i w Hi) in Hnd |- *.
  rewrite fmap_app, fmap_cons in Hnd.
  apply NoDup_app in Hnd as (_ & Hdisj & Hnd).
  apply NoDup_cons in Hnd as (Hnotin & _).
  apply elem_of_app in Hin as [Hin|Hin].
  - split; [apply elem_of_app; by left|].
    intros Heq. apply (Hdisj (f w')).
    + apply list_elem_of_fmap. eauto.
    + rewrite Heq. apply elem_of_cons. by left.
  - split; [apply elem_of_app; right; apply elem_of_cons; by right|].
    intros Heq. apply Hnotin. rewrite <- Heq.
    apply list_elem_of_fmap. eauto.
Qed.

Lemma NoDup_fmap_delete {A} (f : A -> nat) (q : list A) (i : nat) :
  NoDup (f <$> q) -> NoDup (f <$> delete i q).
Proof.
  intros H. apply (sublist_NoDup (f <$> delete i q) (f <$> q)); [done|].
  apply fmap_sublist, sublist_delete.
Qed.

(** Every operation preserves the waiter invariant. *)
Lemma queue_inv_step (l : t) (op : Op) :
  queue_inv l -> queue_inv (step l op).
Proof.
  intros (Hnd & Hw & Hp & Ht). unfold queue_inv, queued in *.
  destruct op as [| |h]; simpl.
  - destruct (acquire_cases l) as [[H ->]|[(H & H' & ->)|(H & H0 & Hl & _)]]; simpl.
    + done.
    + done.
    + rewrite acquire_enqueue by done. simpl. split_and!.
      * rewrite fmap_app. simpl. apply NoDup_app. split_and!; [done| |].
        -- intros p Hin Hin'. apply list_elem_of_fmap in Hin as (w & -> & Hin).
           apply list_elem_of_singleton in Hin'.
           destruct (Hw w Hin) as (Hlt & _). lia.
        -- apply NoDup_singleton.
      * intros w Hin. apply elem_of_app in Hin as [Hin|Hin].
        -- destruct (Hw w Hin) as (Hlt & Hrj & Htm & Hpr & Harm).
           split_and!; [lia|done|done| |].
           ++ rewrite lookup_insert_ne by lia. done.
           ++ rewrite lookup_insert_ne by lia. done.
        -- apply list_elem_of_singleton in Hin as ->. simpl.
           split_and!; [lia|done|done| |]; by rewrite lookup_insert_eq.
      * intros p Hs. destruct (decide (p = fresh l)) as [->|Hne]; [lia|].
        rewrite lookup_insert_ne in Hs by done. specialize (Hp p Hs). lia.
      * intros h e He. destruct (decide (h = fresh l)) as [->|Hne].
        -- rewrite lookup_insert_eq in He. by injection He as <-.
        -- rewrite lookup_insert_ne in He by done. by apply Ht.
  - destruct (Z.le_gt_cases (inFlight l) 0) as [H|H].
    { by rewrite release_throws. }
    destruct (queue l) as [|next rest] eqn:Hql.
    + rewrite release_decrements by done. simpl. by rewrite Hql.
    + rewrite (release_hands_off l next rest) by done. simpl.
      destruct (Hw next) as (Hlt & Hrj & Htm & Hpr & Harm);
        [apply elem_of_cons; by left|].
      rewrite settle_unsettled by done. settle_fields. simpl.
      simpl in Hnd. apply NoDup_cons in Hnd as (Hnotin & Hnd).
      assert (Hother : forall w, w ∈ rest -> resolve w <> resolve next).
      { intros w Hin Heq. apply Hnotin. rewrite <- Heq.
        apply list_elem_of_fmap. eauto. }
      split_and!; [done| | |].
      * intros w Hin. pose proof (Hother w Hin) as Hne.
        destruct (Hw w) as (Hlt' & Hrj' & Htm' & Hpr' & Harm');
          [apply elem_of_cons; by right|].
        split_and!; [done|done|done| |].
        -- by rewrite lookup_insert_ne.
        -- rewrite lookup_delete_ne by congruence. done.
      * intros p Hs. destruct (decide (p = resolve next)) as [->|Hne]; [done|].
        rewrite lookup_insert_ne in Hs by done. by apply Hp.
      * intros h e He. apply lookup_delete_Some in He as [_ He]. by apply Ht.
  - unfold timer_fires. destruct (timers l !! h) as [e|] eqn:He; [|done].
    pose proof (Ht h e He) as Hcap. rewrite Hcap.
    unfold on_timeout. simpl.
    destruct (list_find _ (queue l)) as [[i w]|] eqn:Hfind.
    + apply list_find_Some in Hfind as (Hi & Hres & _).
      destruct (Hw w) as (Hlt & Hrj & Htm & Hpr & Harm);
        [by eapply list_elem_of_lookup_2|].
      rewrite settle_unsettled by (simpl; by rewrite <- Hres).
      settle_fields. simpl.
      split_and!.
      * by apply NoDup_fmap_delete.
      * intros w' Hin.
        destruct (delete_other_key resolve (queue l) i w w' Hnd Hi Hin) as (Hin' & Hne).
        destruct (Hw w' Hin') as (Hlt' & Hrj' & Htm' & Hpr' & Harm').
        split_and!; [done|done|done| |].
        -- rewrite lookup_insert_ne by congruence. done.
        -- rewrite !lookup_delete_ne by congruence. done.
      * intros p Hs. destruct (decide (p = h)) as [->|Hne]; [lia|].
        rewrite lookup_insert_ne in Hs by done. by apply Hp.
      * intros h' e' He'.
        apply lookup_delete_Some in He' as [_ He'].
        apply lookup_delete_Some in He' as [_ He']. by apply Ht.
    + pose proof (list_find_None (fun w => resolve w = h) (queue l)) as [Hnone _].
      specialize (Hnone Hfind). rewrite Forall_forall in Hnone.
      assert (Hfr : forall p, is_Some
                (promises (settle h (RejectedWith (QueueTimeoutError (enqueueTimeoutMs l)))
                             (set_timers (delete h (timers l)) l)) !! p) ->
                p < fresh l).
      { intros p Hs. destruct (decide (p = h)) as [->|Hne].
        - apply Hp. unfold settle in Hs. simpl in Hs.
          destruct (promises l !! h) as [[]|] eqn:Hph; simpl in Hs;
            first [by eauto | rewrite Hph in Hs; by destruct Hs].
        - rewrite settle_other in Hs by done. by apply Hp. }
      settle_fields. simpl. split_and!; [done| |done|].
      * intros w Hin. pose proof (Hnone w Hin) as Hne.
        destruct (Hw w Hin) as (Hlt' & Hrj' & Htm' & Hpr' & Harm').
        split_and!; [done|done|done| |].
        -- rewrite settle_other by done. done.
        -- rewrite lookup_delete_ne by congruence. done.
      * intros h' e' He'. apply lookup_delete_Some in He' as [_ He']. by apply Ht.
Qed.

Lemma new_queue_inv (o : Options) (l0 : t) :
  new o = inr l0 -> queue_inv l0.
Proof.
  intros H. destruct (new_fields o l0 H) as (Hi & Hq & Ht & Hp).
  unfold queue_inv, queued. rewrite Hq, Ht, Hp. simpl. split_and!.
  - apply NoDup_nil_2.
  - intros w Hin. by apply elem_of_nil in Hin.
  - intros p [x Hx]. by rewrite lookup_empty in Hx.
  - intros h e He. by rewrite lookup_empty in He.
Qed.

Lemma queue_inv_run (l : t) (ops : list Op) :
  queue_inv l -> queue_inv (run l ops).
Proof.
  induction ops as [|op ops IH] using rev_ind; intros H; [done|].
  rewrite run_snoc. apply queue_inv_step. by apply IH.
Qed.

(** What an [acquire] or a [release] does to the queue and the promises. *)
Lemma step_shape (l : t) (op : Op) :
  queue_inv l -> no_timeout op = true ->
  (queue (step l op) = queue l /\ promises (step l op) = promises l) \/
  (queue (step l op) = queue l ++ [mkWaiter (fresh l) (fresh l) (fresh l)] /\
   promises (step l op) = <[fresh l := Unsettled]> (promises l)) \/
  (exists next rest, queue l = next :: rest /\ queue (step l op) = rest /\
     promises (step l op) = <[resolve next := Fulfilled]> (promises l)).
Proof.
  intros (Hnd & Hw & Hp & Ht) Hop. destruct op as [| |h]; [| |done]; simpl.
  - destruct (acquire_cases l) as [[H ->]|[(H & H' & ->)|(H & H0 & Hl & _)]]; simpl.
    + by left.
    + by left.
    + right; left. by rewrite acquire_enqueue.
  - destruct (Z.le_gt_cases (inFlight l) 0) as [H|H].
    { rewrite release_throws by done. by left. }
    destruct (queue l) as [|next rest] eqn:Hql.
    + rewrite release_decrements by done. simpl. left. by rewrite Hql.
    + rewrite (release_hands_off l next rest) by done. simpl.
      right; right. exists next, rest.
      destruct (Hw next) as (_ & _ & _ & Hpr & _); [apply elem_of_cons; by left|].
      rewrite settle_unsettled by done. settle_fields. done.
Qed.

Lemma served_or_queued_step (a : nat) (l : t) (op : Op) :
  queue_inv l -> no_timeout op = true ->
  served_or_queued a l -> served_or_queued a (step l op).
Proof.
  intros Hinv Hop Ha. pose proof Hinv as (Hnd & Hw & Hp & Ht).
  unfold served_or_queued, queued in *.
  destruct (step_shape l op Hinv Hop)
    as [(-> & ->)|[(-> & ->)|(next & rest & Hq & -> & ->)]].
  - done.
  - destruct Ha as [Ha|Ha].
    + left. rewrite lookup_insert_ne; [done|].
      assert (a < fresh l) by (apply Hp; eauto). lia.
    + right. rewrite fmap_app. apply elem_of_app. by left.
  - destruct (Hw next) as (_ & _ & _ & Hpr & _);
      [rewrite Hq; apply elem_of_cons; by left|].
    destruct Ha as [Ha|Ha].
    + left. rewrite lookup_insert_ne; [done|]. intros <-. congruence.
    + rewrite Hq in Ha. simpl in Ha. apply elem_of_cons in Ha as [->|Ha].
      * left. by rewrite lookup_insert_eq.
      * by right.
Qed.

Lemma fifo_inv_step (a b : nat) (l : t) (op : Op) :
  queue_inv l -> no_timeout op = true ->
  fifo_inv a b l -> fifo_inv a b (step l op).
Proof.
  intros Hinv Hop Hab. pose proof Hinv as (Hnd & Hw & Hp & Ht).
  unfold fifo_inv, queued in *.
  destruct (step_shape l op Hinv Hop)
    as [(-> & ->)|[(-> & ->)|(next & rest & Hq & -> & ->)]].
  - done.
  - destruct Hab as [Ha|(Hb & q1 & q2 & q3 & Hqs)].
    + left. rewrite lookup_insert_ne; [done|].
      assert (a < fresh l) by (apply Hp; eauto). lia.
    + right. split.
      * rewrite lookup_insert_ne; [done|].
        assert (b < fresh l) by (apply Hp; eauto). lia.
      * exists q1, q2, (q3 ++ [fresh l]). rewrite fmap_app, Hqs. simpl.
        by rewrite <- !app_assoc, <- !app_comm_cons, <- !app_assoc.
  - destruct (Hw next) as (_ & _ & _ & Hpr & _);
      [rewrite Hq; apply elem_of_cons; by left|].
    destruct Hab as [Ha|(Hb & q1 & q2 & q3 & Hqs)].
    + left. rewrite lookup_insert_ne; [done|]. intros <-. congruence.
    + rewrite Hq in Hqs, Hnd. simpl in Hqs, Hnd.
      destruct q1 as [|x q1]; simpl in Hqs.
      * injection Hqs as -> _. left. by rewrite lookup_insert_eq.
      * injection Hqs as Hx Hrest. right. split.
        -- rewrite lookup_insert_ne; [done|]. intros Heq.
           apply NoDup_cons in Hnd as (Hnotin & _). apply Hnotin.
           rewrite Hrest, Heq. apply elem_of_app. right.
           apply elem_of_cons. right. apply elem_of_app. right.
           apply elem_of_cons. by left.
        -- by exists q1, q2, q3.
Qed.

Lemma forallb_snoc {A} (f : A -> bool) (xs : list A) (x : A) :
  forallb f (xs ++ [x]) = true -> forallb f xs = true /\ f x = true.
Proof.
  rewrite forallb_app. simpl. intros H.
  apply andb_prop in H as [-> H]. apply andb_prop in H as [-> _]. done.
Qed.

Lemma served_or_queued_run (a : nat) (l : t) (ops : list Op) :
  queue_inv l -> forallb no_timeout ops = true ->
  served_or_queued a l -> served_or_queued a (run l ops).
Proof.
  induction ops as [|op ops IH] using rev_ind; intros Hinv Hops Ha; [done|].
  apply forallb_snoc in Hops as [Hops Hop].
  rewrite run_snoc. apply served_or_queued_step; auto using queue_inv_run.
Qed.

Lemma fifo_inv_run (a b : nat) (l : t) (ops : list Op) :
  queue_inv l -> forallb no_timeout ops = true ->
  fifo_inv a b l -> fifo_inv a b (run l ops).
Proof.
  induction ops as [|op ops IH] using rev_ind; intros Hinv Hops Ha; [done|].
  apply forallb_snoc in Hops as [Hops Hop].
  rewrite run_snoc. apply fifo_inv_step; auto using queue_inv_run.
Qed.

(** An [acquire] that returns a pending promise has enqueued it. *)
Lemma acquire_pending (l l' : t) (p : nat) :
  acquire l = (Pending p, l') ->
  p = fresh l /\ l' = step l OpAcquire /\
  queue l' = queue l ++ [mkWaiter p p p] /\
  promises l' = <[p := Unsettled]> (promises l).
Proof.
  intros H. simpl. rewrite H. simpl.
  destruct (acquire_cases l) as [[_ H1]|[(_ & _ & H1)|(H1 & H2 & H3 & _)]];
    [congruence|congruence|].
  rewrite acquire_enqueue in H by done. by injection H as <- <-.
Qed.

(** FIFO hand-off: once [a] and then [b] have enqueued and no timer fires,
    [b] holds a permit only if [a] does. *)
Lemma fifo_handoff (l la lb : t) (a b : nat) (ops1 ops2 : list Op) :
  queue_inv l ->
  acquire l = (Pending a, la) ->
  forallb no_timeout ops1 = true ->
  acquire (run la ops1) = (Pending b, lb) ->
  forallb no_timeout ops2 = true ->
  promises (run lb ops2) !! b = Some Fulfilled ->
  promises (run lb ops2) !! a = Some Fulfilled.
Proof.
  intros Hinv Ha Hops1 Hb Hops2 Hfb.
  apply acquire_pending in Ha as (-> & Hla & Hqa & Hpa).
  assert (Hinva : queue_inv la) by (rewrite Hla; by apply queue_inv_step).
  assert (Hka : served_or_queued (fresh l) (run la ops1)).
  { apply served_or_queued_run; [done..|]. right. unfold queued.
    rewrite Hqa, fmap_app. apply elem_of_app. right. simpl.
    apply elem_of_cons. by left. }
  pose proof (queue_inv_run la ops1 Hinva) as Hinv1.
  apply acquire_pending in Hb as (-> & Hlb & Hqb & Hpb).
  assert (Hinvb : queue_inv lb) by (rewrite Hlb; by apply queue_inv_step).
  assert (Hj : fifo_inv (fresh l) (fresh (run la ops1)) lb).
  { destruct Hinv1 as (_ & _ & Hp1 & _). destruct Hka as [Hf|Hin].
    - left. rewrite Hpb, lookup_insert_ne; [done|].
      assert (fresh l < fresh (run la ops1)) by (apply Hp1; eauto). lia.
    - right. split; [by rewrite Hpb, lookup_insert_eq|].
      apply list_elem_of_split in Hin as (q1 & q2 & Hq).
      exists q1, q2, []. unfold queued in *. rewrite Hqb, fmap_app, Hq. simpl.
      by rewrite <- app_assoc. }
  destruct (fifo_inv_run _ _ lb ops2 Hinvb Hops2 Hj) as [Hf|(Hu & _)];
    [done|congruence].
Qed.

(** A queued waiter whose timer fires leaves the queue and is rejected. *)
Lemma timeout_removes (l : t) (w : Waiter) :
  queue_inv l -> w ∈ queue l ->
  let l' := timer_fires (timer w) l in
  (w ∉ queue l') /\
  (exists q1 q2, queue l = q1 ++ w :: q2 /\ queue l' = q1 ++ q2) /\
  promises l' !! resolve w
    = Some (RejectedWith (QueueTimeoutError (enqueueTimeoutMs l))) /\
  timers l' !! timer w = None /\
  inFlight l' = inFlight l.
Proof.
  intros (Hnd & Hw & Hp & Ht) Hin. simpl.
  destruct (Hw w Hin) as (Hlt & Hrj & Htm & Hpr & Harm).
  unfold timer_fires. rewrite Harm. simpl. unfold on_timeout. simpl.
  destruct (list_find_elem_of (fun x => resolve x = resolve w) (queue l) w Hin eq_refl)
    as [[i x] Hfind].
  rewrite Hfind. apply list_find_Some in Hfind as (Hi & Hres & _).
  assert (x = w) as ->.
  { destruct (Hw x) as (_ & Hrj' & Htm' & _); [by eapply list_elem_of_lookup_2|].
    destruct x, w; simpl in *. congruence. }
  rewrite settle_unsettled by done. settle_fields. simpl.
  split_and!.
  - intros Hin'.
    by destruct (delete_other_key resolve (queue l) i w w Hnd Hi Hin').
  - exists (take i (queue l)), (drop (S i) (queue l)).
    split; [by rewrite take_drop_middle|by rewrite delete_take_drop].
  - by rewrite lookup_insert_eq.
  - by rewrite lookup_delete_eq.
  - done.
Qed.

(** With integer limits the invariants on the rounded limits are the
    invariants as the design states them. *)
Lemma capacity_stated_integral (l : t) :
  capacity_inv l ->
  (Js.is_integer (maxInFlight l) = true ->
     (Js.num (inFlight l) <= maxInFlight l)%Q /\
     (queue l <> [] -> (Js.num (inFlight l) == maxInFlight l)%Q)) /\
  (Js.is_integer (maxQueue l) = true ->
     (Js.len (length (queue l)) <= maxQueue l)%Q).
Proof.
  intros (Hin & Hq & Hne). unfold permits in *. split.
  - intros Hint%is_integer_ceiling. split.
    + rewrite <- Hint. unfold Js.num. by rewrite <- Zle_Qle.
    + intros Hq'. rewrite <- Hint. unfold Js.num. by rewrite (Hne Hq').
  - intros Hint%is_integer_ceiling.
    rewrite <- Hint. unfold Js.len. by rewrite <- Zle_Qle.
Qed.

(** C3.  Limiter capacity invariants: starting from a freshly
    constructed limiter, after every prefix of every interleaving of
    acquires (fast path, rejected or enqueued), releases (with or without
    hand-off) and enqueue-timeout firings: when [maxInFlight] is an integer,
    [inFlight <= maxInFlight] and a non-empty queue implies
    [inFlight = maxInFlight]; when [maxQueue] is an integer, the queue
    length is at most [maxQueue].  For limits that are not integers (the
    constructor accepts every finite positive number) the same three
    statements hold of the limits rounded up to the next integer. *)
Theorem C3_limiter_capacity (o : Options) (l0 : t) (ops : list Op) (n : nat) :
  new o = inr l0 ->
  let l := run l0 (take n ops) in
  let depth := snap_queueDepth (snapshot l) in
  maxInFlight l = opt_maxInFlight o /\ maxQueue l = opt_maxQueue o /\
  (Js.is_integer (opt_maxInFlight o) = true ->
     (Js.num (inFlight l) <= maxInFlight l)%Q /\
     (0 < depth -> (Js.num (inFlight l) == maxInFlight l)%Q)) /\
  (Js.is_integer (opt_maxQueue o) = true ->
     (Js.len depth <= maxQueue l)%Q) /\
  (inFlight l <= Qceiling (maxInFlight l))%Z /\
  (Z.of_nat depth <= Qceiling (maxQueue l))%Z /\
  (0 < depth -> inFlight l = Qceiling (maxInFlight l)).
Proof.
  intros Hnew l depth.
  pose proof (capacity_run l0 (take n ops) (new_capacity o l0 Hnew)) as Hcap.
  fold l in Hcap.
  destruct (run_config l0 (take n ops)) as (Hc1 & Hc2 & _). fold l in Hc1, Hc2.
  destruct (new_config o l0 Hnew) as (Ho1 & Ho2 & _).
  assert (Hdepth : 0 < depth -> queue l <> []).
  { unfold depth. simpl. intros Hpos Hnil. rewrite Hnil in Hpos.
    simpl in Hpos. lia. }
  destruct (capacity_stated_integral l Hcap) as (Hi1 & Hi2).
  destruct Hcap as (Hin & Hq & Hne).
  split_and!.
  - congruence.
  - congruence.
  - intros Hint. rewrite <- Ho1, <- Hc1 in Hint.
    destruct (Hi1 Hint) as (Hle & Heq). split; [done|].
    intros Hpos. by apply Heq, Hdepth.
  - intros Hint. rewrite <- Ho2, <- Hc2 in Hint. by apply Hi2.
  - done.
  - done.
  - intros Hpos. by apply Hne, Hdepth.
Qed.

Lemma C3_limiter_capacity_witness :
  let l := run (mk 1 1 200 0 [] ∅ ∅ 0)
               (take 2 [OpAcquire; OpAcquire; OpAcquire; OpTimerFires 0; OpRelease]) in
  (Js.num (inFlight l) <= maxInFlight l)%Q /\
  (Js.len (snap_queueDepth (snapshot l)) <= maxQueue l)%Q /\
  (0 < snap_queueDepth (snapshot l) -> (Js.num (inFlight l) == maxInFlight l)%Q).
Proof.
  intros l.
  destruct (C3_limiter_capacity (mkOptions 1 1 200) (mk 1 1 200 0 [] ∅ ∅ 0)
              [OpAcquire; OpAcquire; OpAcquire; OpTimerFires 0; OpRelease] 2
              eq_refl) as (_ & _ & H1 & H2 & _).
  destruct (H1 eq_refl) as (Hle & Heq).
  split_and!; [exact Hle|exact (H2 eq_refl)|exact Heq].
Defined.

(** C3 on limits that are not integers: the three bounds taken on the
    limits themselves fail.  With [maxInFlight = 3/2] and
    [maxQueue = 1/2], which the constructor accepts, three acquires leave two permits out and one waiter queued,
    so [inFlight > maxInFlight], the queue is longer than [maxQueue], and
    the queue is non-empty with [inFlight <> maxInFlight]. *)
Lemma C3_limiter_capacity_counterexample :
  let o := mkOptions (3 # 2) (1 # 2) 100 in
  let l0 := mk (3 # 2) (1 # 2) 100 0 [] ∅ ∅ 0 in
  let l := run l0 [OpAcquire; OpAcquire; OpAcquire] in
  new o = inr l0 /\
  inFlight l = 2%Z /\ length (queue l) = 1 /\
  ~ capacity_stated l /\
  ~ (Js.num (inFlight l) <= maxInFlight l)%Q /\
  ~ (Js.len (length (queue l)) <= maxQueue l)%Q /\
  ~ (Js.num (inFlight l) == maxInFlight l)%Q.
Proof.
  intros o l0 l.
  assert (H1 : ~ (Js.num (inFlight l) <= maxInFlight l)%Q).
  { apply Qlt_not_le. reflexivity. }
  split_and!; [reflexivity|reflexivity|reflexivity| |exact H1| |].
  - intros (H & _). by apply H1.
  - apply Qlt_not_le. reflexivity.
  - intros H. discriminate H.
Qed.

(** C4. [release]: with [inFlight = 0] it throws and leaves the state as it
    was; otherwise with a non-empty queue it removes exactly the head
    waiter, clears that waiter's timer, fulfils its promise and keeps
    [inFlight] (the waiters behind stay queued and unsettled); otherwise it
    decrements [inFlight].  Hence, for waiters A then B enqueued in that
    order with no timer firing, B holds a permit only once A does. *)
Theorem C4_release_handoff (o : Options) (l0 : t) (ops : list Op) :
  new o = inr l0 ->
  let l := run l0 ops in
  (inFlight l = 0%Z ->
     exists e, release l = (Some e, l)) /\
  ((0 < inFlight l)%Z -> forall next rest, queue l = next :: rest ->
     exists l', release l = (None, l') /\
       queue l' = rest /\
       inFlight l' = inFlight l /\
       timers l' !! timer next = None /\
       promises l !! resolve next = Some Unsettled /\
       promises l' !! resolve next = Some Fulfilled /\
       (forall w, w ∈ rest -> promises l' !! resolve w = Some Unsettled)) /\
  ((0 < inFlight l)%Z -> queue l = [] ->
     release l = (None, set_inFlight (inFlight l - 1)%Z l)) /\
  (forall (a b : nat) (la lb : t) (ops1 ops2 : list Op),
     acquire l = (Pending a, la) ->
     forallb no_timeout ops1 = true ->
     acquire (run la ops1) = (Pending b, lb) ->
     forallb no_timeout ops2 = true ->
     promises (run lb ops2) !! b = Some Fulfilled ->
     promises (run lb ops2) !! a = Some Fulfilled).
Proof.
  intros Hnew l.
  assert (Hinv : queue_inv l) by (apply queue_inv_run; by eapply new_queue_inv).
  split_and!.
  - intros H0. eexists. apply release_throws. lia.
  - intros Hpos next rest Hq.
    eexists. split; [by apply release_hands_off|].
    pose proof (queue_inv_step l OpRelease Hinv) as Hinv'.
    simpl in Hinv'. rewrite (release_hands_off l next rest) in Hinv' by done.
    simpl in Hinv'. destruct Hinv' as (_ & Hw' & _).
    destruct Hinv as (_ & Hw & _).
    destruct (Hw next) as (_ & _ & _ & Hpr & _);
      [rewrite Hq; apply elem_of_cons; by left|].
    rewrite settle_unsettled by done. settle_fields. simpl.
    split_and!; [done|done|by rewrite lookup_delete_eq|done
                 |by rewrite lookup_insert_eq|].
    intros w Hin.
    destruct (Hw' w) as (_ & _ & _ & Hpr' & _); [settle_fields; by simpl|].
    rewrite settle_unsettled in Hpr' by done. exact Hpr'.
  - intros Hpos Hq. by apply release_decrements.
  - intros a b la lb ops1 ops2. by apply fifo_handoff.
Qed.

Lemma C4_release_handoff_witness :
  let l0 := mk 1 10 200 0 [] ∅ ∅ 0 in
  let l3 := run l0 [OpAcquire; OpAcquire; OpAcquire] in
  promises (snd (release l3)) !! 0 = Some Fulfilled /\
  promises (snd (release l3)) !! 1 = Some Unsettled /\
  promises (run l3 [OpRelease; OpRelease]) !! 0 = Some Fulfilled.
Proof.
  intros l0 l3.
  pose proof (C4_release_handoff (mkOptions 1 10 200) l0
                [OpAcquire; OpAcquire; OpAcquire] eq_refl) as (_ & Hhand & _ & _).
  pose proof (C4_release_handoff (mkOptions 1 10 200) l0
                [OpAcquire] eq_refl) as (_ & _ & _ & Hfifo).
  destruct (Hhand ltac:(vm_compute; reflexivity) (mkWaiter 0 0 0) [mkWaiter 1 1 1]
              eq_refl) as (l' & Hrel & _ & _ & _ & _ & Hf & Hrest).
  fold l3 in Hrel. rewrite Hrel. simpl.
  split_and!.
  - exact Hf.
  - apply (Hrest (mkWaiter 1 1 1)). apply elem_of_cons. by left.
  - apply (Hfifo 0 1 (snd (acquire (run l0 [OpAcquire]))) l3 [] [OpRelease; OpRelease]);
      reflexivity.
Defined.

(** C5. [acquire]: with [inFlight < maxInFlight] it increments [inFlight]
    and returns a resolved promise; otherwise with [maxQueue = 0] or a queue
    of [maxQueue] or more waiters it returns a promise rejected with
    [QueueFullError(maxQueue)] and leaves the state as it was; otherwise it
    appends a waiter for a new pending promise and arms a timer with
    [enqueueTimeoutMs] for it, [inFlight] unchanged.  When the timer of a
    queued waiter fires, exactly that waiter leaves the queue, its promise
    is rejected with [QueueTimeoutError(enqueueTimeoutMs)], and [inFlight]
    is unchanged. *)
Theorem C5_acquire_admission (o : Options) (l0 : t) (ops : list Op) :
  new o = inr l0 ->
  let l := run l0 ops in
  ((Js.num (inFlight l) < maxInFlight l)%Q ->
     acquire l = (Resolved, set_inFlight (inFlight l + 1)%Z l)) /\
  ((maxInFlight l <= Js.num (inFlight l))%Q ->
   (maxQueue l == 0)%Q \/ (maxQueue l <= Js.len (length (queue l)))%Q ->
     acquire l = (Rejected (QueueFullError (maxQueue l)), l)) /\
  ((maxInFlight l <= Js.num (inFlight l))%Q ->
   ~ (maxQueue l == 0)%Q -> (Js.len (length (queue l)) < maxQueue l)%Q ->
     exists p w l', acquire l = (Pending p, l') /\
       queue l' = queue l ++ [w] /\ resolve w = p /\
       promises l !! p = None /\
       promises l' !! p = Some Unsettled /\
       timers l' !! timer w = Some (mkTimer (enqueueTimeoutMs l) p) /\
       inFlight l' = inFlight l) /\
  (forall w, w ∈ queue l ->
     let l' := timer_fires (timer w) l in
     (w ∉ queue l') /\
     (exists q1 q2, queue l = q1 ++ w :: q2 /\ queue l' = q1 ++ q2) /\
     promises l' !! resolve w
       = Some (RejectedWith (QueueTimeoutError (enqueueTimeoutMs l))) /\
     timers l' !! timer w = None /\
     inFlight l' = inFlight l).
Proof.
  intros Hnew l.
  assert (Hinv : queue_inv l) by (apply queue_inv_run; by eapply new_queue_inv).
  split_and!.
  - apply acquire_fast_test.
  - apply acquire_full_test.
  - intros H1 H2 H3.
    destruct (acquire_enqueue_test l H1 H2 H3) as (H1' & H2' & H3').
    eexists _, _, _. split; [by apply acquire_enqueue|]. simpl.
    split_and!; [done|done| |by rewrite lookup_insert_eq
                 |by rewrite lookup_insert_eq|done].
    destruct Hinv as (_ & _ & Hp & _).
    destruct (promises l !! fresh l) eqn:E; [|done].
    assert (fresh l < fresh l) by (apply Hp; eauto). lia.
  - intros w Hin. by apply timeout_removes.
Qed.

Lemma C5_acquire_admission_witness :
  let l := run (mk 1 10 50 0 [] ∅ ∅ 0) [OpAcquire; OpAcquire] in
  let l' := timer_fires 0 l in
  queue l = [mkWaiter 0 0 0] /\
  queue l' = [] /\
  promises l' !! 0 = Some (RejectedWith (QueueTimeoutError 50)) /\
  inFlight l' = 1%Z.
Proof.
  intros l l'.
  pose proof (C5_acquire_admission (mkOptions 1 10 50) (mk 1 10 50 0 [] ∅ ∅ 0)
                [OpAcquire; OpAcquire] eq_refl) as (_ & _ & _ & Hfire).
  destruct (Hfire (mkWaiter 0 0 0) ltac:(vm_compute; apply elem_of_cons; by left))
    as (_ & _ & Hrej & _ & Hin).
  split_and!; [reflexivity|reflexivity|exact Hrej|exact Hin].
Defined.

End LimiterFacts.
(** ** Circuit breaker *)

Section BreakerFacts.
Import Errors Breaker.

(** [bucket(key)] returns the bucket the key denotes and registers it, or
    throws and changes nothing. *)
Lemma peek_registered (br : t) (key : string) (b : BreakerBucket) :
  buckets br !! key = Some b -> peek br key = Some b.
Proof. intros H. unfold peek, bucket. by rewrite H. Qed.

Lemma peek_fresh (br : t) (key : string) (w : RollingWindow.t) :
  buckets br !! key = None ->
  RollingWindow.new (windowSize (opts br)) = inr w ->
  peek br key = Some (fresh_bucket w).
Proof. intros H Hw. unfold peek, bucket. by rewrite H, Hw. Qed.

Lemma peek_cases (br : t) (key : string) :
  (exists b, buckets br !! key = Some b /\ peek br key = Some b) \/
  (exists w, buckets br !! key = None /\
     RollingWindow.new (windowSize (opts br)) = inr w /\
     peek br key = Some (fresh_bucket w)) \/
  (exists e, buckets br !! key = None /\
     RollingWindow.new (windowSize (opts br)) = inl e /\
     peek br key = None).
Proof.
  unfold peek, bucket.
  destruct (buckets br !! key) as [b|]; [left; eauto|right].
  destruct (RollingWindow.new (windowSize (opts br))) as [e|w];
    [right|left]; eauto.
Qed.

Lemma bucket_Some (br : t) (key : string) (b : BreakerBucket) :
  peek br key = Some b -> bucket br key = (inr b, store br key b).
Proof.
  unfold peek, bucket, store.
  destruct (buckets br !! key) as [b0|] eqn:Hb; simpl.
  - intros [= ->]. rewrite insert_id by done. by destruct br.
  - destruct (RollingWindow.new (windowSize (opts br))) as [e|w]; simpl; [done|].
    by intros [= <-].
Qed.

Lemma bucket_None (br : t) (key : string) :
  peek br key = None -> exists e, bucket br key = (inl e, br).
Proof.
  unfold peek, bucket.
  destruct (buckets br !! key) as [b0|]; simpl; [done|].
  destruct (RollingWindow.new (windowSize (opts br))) as [e|w]; simpl; [eauto|done].
Qed.

(** A bucket that is not CLOSED is registered in the map. *)
Lemma bucket_registered (br : t) (key : string) (b : BreakerBucket) :
  peek br key = Some b -> state b <> CLOSED -> buckets br !! key = Some b.
Proof.
  intros Hp Hst.
  destruct (peek_cases br key) as [(b0 & Hb & Hp')|[(w & _ & _ & Hp')|(e & _ & _ & Hp')]];
    rewrite Hp in Hp'; [congruence| |done].
  injection Hp' as ->. by destruct Hst.
Qed.

Lemma store_opts (br : t) (key : string) (b : BreakerBucket) :
  opts (store br key b) = opts br.
Proof. done. Qed.

Lemma store_store (br : t) (key : string) (b b' : BreakerBucket) :
  store (store br key b) key b' = store br key b'.
Proof. unfold store; simpl. by rewrite insert_insert_eq. Qed.

Lemma peek_store (br : t) (key k : string) (b : BreakerBucket) :
  peek (store br key b) k = if decide (key = k) then Some b else peek br k.
Proof.
  unfold peek, bucket, store; simpl. case_decide as Hk.
  - subst. by rewrite lookup_insert_eq.
  - rewrite lookup_insert_ne by done. destruct (buckets br !! k); [done|].
    by destruct (RollingWindow.new _).
Qed.

Lemma store_registered (br : t) (key : string) (b : BreakerBucket) :
  buckets br !! key = Some b -> store br key b = br.
Proof.
  intros H. unfold store. rewrite insert_id by done. by destruct br.
Qed.

(** A method that leaves a bucket that is not CLOSED as it found it leaves
    the whole breaker as it found it. *)
Lemma store_back (br : t) (key : string) (b : BreakerBucket) :
  peek br key = Some b -> state b <> CLOSED -> store br key b = br.
Proof.
  intros Hp Hst. by apply store_registered, bucket_registered.
Qed.

(** The three methods act on the bucket of their key and on nothing else;
    they throw, changing nothing, when the key has no bucket and cannot get
    one. *)
Lemma on_bucket_Some {A} (br : t) (key : string)
    (f : BreakerOptions -> BreakerBucket -> A * BreakerBucket) (b : BreakerBucket) :
  peek br key = Some b ->
  on_bucket br key f
  = (inr (fst (f (opts br) b)), store br key (snd (f (opts br) b))).
Proof.
  intros Hp. unfold on_bucket. rewrite (bucket_Some br key b Hp). simpl.
  destruct (f (opts br) b) as [a b']. simpl. by rewrite store_store.
Qed.

Lemma on_bucket_None {A} (br : t) (key : string)
    (f : BreakerOptions -> BreakerBucket -> A * BreakerBucket) :
  peek br key = None -> exists e, on_bucket br key f = (inl e, br).
Proof.
  intros Hp. destruct (bucket_None br key Hp) as [e He].
  exists e. unfold on_bucket. by rewrite He.
Qed.

Lemma allow_Some (br : t) (key : string) (nowMs : Z) (b : BreakerBucket) :
  peek br key = Some b ->
  allow br key nowMs =
    (inr (fst (allow_bucket (opts br) b nowMs)),
     store br key (snd (allow_bucket (opts br) b nowMs))).
Proof. apply (on_bucket_Some br key (fun o b => allow_bucket o b nowMs)). Qed.

Lemma onSuccess_Some (br : t) (key : string) (b : BreakerBucket) :
  peek br key = Some b ->
  onSuccess br key =
    (inr (fst (onSuccess_bucket (opts br) b)),
     store br key (snd (onSuccess_bucket (opts br) b))).
Proof. apply (on_bucket_Some br key onSuccess_bucket). Qed.

Lemma onFailure_Some (br : t) (key : string) (nowMs : Z) (b : BreakerBucket) :
  peek br key = Some b ->
  onFailure br key nowMs =
    (inr (fst (onFailure_bucket (opts br) b nowMs)),
     store br key (snd (onFailure_bucket (opts br) b nowMs))).
Proof. apply (on_bucket_Some br key (fun o b => onFailure_bucket o b nowMs)). Qed.

Lemma allow_None (br : t) (key : string) (nowMs : Z) :
  peek br key = None -> exists e, allow br key nowMs = (inl e, br).
Proof. apply on_bucket_None. Qed.

Lemma onSuccess_None (br : t) (key : string) :
  peek br key = None -> exists e, onSuccess br key = (inl e, br).
Proof. apply on_bucket_None. Qed.

Lemma onFailure_None (br : t) (key : string) (nowMs : Z) :
  peek br key = None -> exists e, onFailure br key nowMs = (inl e, br).
Proof. apply on_bucket_None. Qed.

Lemma on_bucket_opts {A} (br : t) (key : string)
    (f : BreakerOptions -> BreakerBucket -> A * BreakerBucket) :
  opts (snd (on_bucket br key f)) = opts br.
Proof.
  destruct (peek br key) as [b|] eqn:Hp.
  - by rewrite (on_bucket_Some br key f b Hp).
  - destruct (on_bucket_None br key f Hp) as [e ->]. done.
Qed.

Lemma peek_on_bucket {A} (br : t) (key k : string)
    (f : BreakerOptions -> BreakerBucket -> A * BreakerBucket) :
  peek (snd (on_bucket br key f)) k =
    match peek br key with
    | Some b => if decide (key = k) then Some (snd (f (opts br) b)) else peek br k
    | None => peek br k
    end.
Proof.
  destruct (peek br key) as [b|] eqn:Hp.
  - rewrite (on_bucket_Some br key f b Hp). simpl. apply peek_store.
  - destruct (on_bucket_None br key f Hp) as [e ->]. done.
Qed.

Lemma peek_allow (br : t) (key k : string) (nowMs : Z) :
  peek (snd (allow br key nowMs)) k =
    match peek br key with
    | Some b => if decide (key = k)
                then Some (snd (allow_bucket (opts br) b nowMs))
                else peek br k
    | None => peek br k
    end.
Proof. apply (peek_on_bucket br key k (fun o b => allow_bucket o b nowMs)). Qed.

Lemma peek_onSuccess (br : t) (key k : string) :
  peek (snd (onSuccess br key)) k =
    match peek br key with
    | Some b => if decide (key = k)
                then Some (snd (onSuccess_bucket (opts br) b))
                else peek br k
    | None => peek br k
    end.
Proof. apply (peek_on_bucket br key k onSuccess_bucket). Qed.

Lemma peek_onFailure (br : t) (key k : string) (nowMs : Z) :
  peek (snd (onFailure br key nowMs)) k =
    match peek br key with
    | Some b => if decide (key = k)
                then Some (snd (onFailure_bucket (opts br) b nowMs))
                else peek br k
    | None => peek br k
    end.
Proof. apply (peek_on_bucket br key k (fun o b => onFailure_bucket o b nowMs)). Qed.

Lemma step_opts (br : t) (op : Op) : opts (step br op) = opts br.
Proof. destruct op; simpl; apply on_bucket_opts. Qed.

Lemma run_opts (br : t) (ops : list Op) : opts (run br ops) = opts br.
Proof.
  unfold run. revert br. induction ops as [|op ops IH]; intros br; [done|].
  cbn [fold_left]. rewrite IH. apply step_opts.
Qed.

(** No method touches another key's bucket. *)
Lemma peek_step_other (br : t) (op : Op) (k : string) :
  match op with
  | OpAllow key _ | OpOnSuccess key | OpOnFailure key _ => key <> k
  end ->
  peek (step br op) k = peek br k.
Proof.
  destruct op as [key now|key|key now]; simpl; intros Hne;
    rewrite ?peek_allow, ?peek_onSuccess, ?peek_onFailure;
    destruct (peek br key); try done; by case_decide.
Qed.

(** The tests against the probe count, read on the count rounded up. *)
Lemma probe_test (o : BreakerOptions) (n : Z) :
  Js.leb (halfOpenProbeCount o) (Js.num n) = (probes o <=? n)%Z.
Proof. apply leb_ceiling. Qed.

Lemma probes_pos (o : BreakerOptions) :
  (0 < halfOpenProbeCount o)%Q -> (0 < probes o)%Z.
Proof. apply ceiling_pos. Qed.

(** The bucket invariant. *)
Ltac close_bucket_inv :=
  repeat match goal with H : state _ = _ |- _ => rewrite H end;
  split_and!;
  first [ lia | done | by intros [? ?] | by eauto | intuition (try lia; eauto; done) ].

Lemma fresh_bucket_inv (o : BreakerOptions) (w : RollingWindow.t) :
  (0 < probes o)%Z -> bucket_inv o (fresh_bucket w).
Proof.
  intros Hp. unfold bucket_inv, fresh_bucket; simpl. close_bucket_inv.
Qed.

Lemma allow_bucket_inv (o : BreakerOptions) (b : BreakerBucket) (nowMs : Z) :
  (0 < probes o)%Z ->
  bucket_inv o b -> bucket_inv o (snd (allow_bucket o b nowMs)).
Proof.
  intros Hp (Hi & Hs & Hf & Ho & Hz). unfold allow_bucket, bucket_inv.
  destruct (state b) eqn:Hst; simpl.
  - rewrite Hst; simpl. close_bucket_inv.
  - destruct (Js.ltb 0 _); simpl.
    + close_bucket_inv.
    + rewrite probe_test.
      destruct (Z.leb_spec (probes o) 0); [lia|]. simpl.
      close_bucket_inv.
  - rewrite Hst; simpl. rewrite probe_test.
    destruct (Z.leb_spec (probes o) (halfOpenInFlight b)); simpl;
      close_bucket_inv.
Qed.

Lemma onSuccess_bucket_inv (o : BreakerOptions) (b : BreakerBucket) :
  (0 < probes o)%Z ->
  bucket_inv o b -> bucket_inv o (snd (onSuccess_bucket o b)).
Proof.
  intros Hp (Hi & Hs & Hf & Ho & Hz). unfold onSuccess_bucket, bucket_inv.
  destruct (state b) eqn:Hst; simpl.
  - close_bucket_inv.
  - close_bucket_inv.
  - rewrite probe_test.
    destruct (Z.leb_spec (probes o) (halfOpenSuccesses b + 1)); simpl;
      close_bucket_inv.
Qed.

Lemma onFailure_bucket_inv (o : BreakerOptions) (b : BreakerBucket) (nowMs : Z) :
  (0 < probes o)%Z ->
  bucket_inv o b -> bucket_inv o (snd (onFailure_bucket o b nowMs)).
Proof.
  intros Hp (Hi & Hs & Hf & Ho & Hz). unfold onFailure_bucket, bucket_inv.
  destruct (state b) eqn:Hst; simpl.
  - destruct (_ && _); simpl; close_bucket_inv.
  - close_bucket_inv.
  - close_bucket_inv.
Qed.

Lemma breaker_inv_step (br : t) (op : Op) :
  breaker_inv br -> breaker_inv (step br op).
Proof.
  intros [Hp Hb]. split; [by rewrite step_opts|].
  pose proof (probes_pos _ Hp) as Hp'.
  intros k bk. rewrite step_opts.
  destruct op as [key now|key|key now]; simpl;
    rewrite ?peek_allow, ?peek_onSuccess, ?peek_onFailure;
    destruct (peek br key) as [b|] eqn:Hpk; try (by apply Hb);
    case_decide; try (by apply Hb); intros [= <-];
    [apply allow_bucket_inv|apply onSuccess_bucket_inv|apply onFailure_bucket_inv];
    eauto.
Qed.

Lemma breaker_inv_run (br : t) (ops : list Op) :
  breaker_inv br -> breaker_inv (run br ops).
Proof.
  unfold run. revert br. induction ops as [|op ops IH]; intros br H; [done|].
  cbn [fold_left]. apply IH. by apply breaker_inv_step.
Qed.

Lemma new_valid (o : BreakerOptions) (br0 : t) :
  new o = inr br0 ->
  br0 = mk o ∅ /\
  (0 < windowSize o)%Q /\ (0 <= minRequests o)%Q /\
  (0 <= failureThreshold o <= 1)%Q /\
  (0 < cooldownMs o)%Q /\ (0 < halfOpenProbeCount o)%Q.
Proof.
  unfold new. intros H.
  destruct (Js.leb (windowSize o) 0) eqn:H1; [done|].
  destruct (Js.ltb (minRequests o) 0) eqn:H2; [done|].
  destruct (Js.ltb (failureThreshold o) 0) eqn:H3; [done|].
  destruct (Js.ltb 1 (failureThreshold o)) eqn:H4; [done|].
  simpl in H.
  destruct (Js.leb (cooldownMs o) 0) eqn:H5; [done|].
  destruct (Js.leb (halfOpenProbeCount o) 0) eqn:H6; [done|].
  injection H as <-.
  apply leb_gt in H1, H5, H6. apply ltb_ge in H2, H3, H4.
  by split_and!.
Qed.

Lemma new_breaker_inv (o : BreakerOptions) (br0 : t) :
  new o = inr br0 -> breaker_inv br0.
Proof.
  intros H. apply new_valid in H as (-> & _ & _ & _ & _ & Hp).
  split; [done|]. intros key b. unfold peek, bucket; simpl.
  rewrite lookup_empty. destruct (RollingWindow.new _) as [e|w]; simpl; [done|].
  intros [= <-]. by apply fresh_bucket_inv, probes_pos.
Qed.
(** The cooldown test of [allow], read as the design states it. *)
Lemma cooldown_test (c : Q) (elapsed : Z) :
  Js.ltb 0 (c - Js.num elapsed) = true <-> (Js.num elapsed < c)%Q.
Proof.
  rewrite ltb_lt. unfold Qminus. symmetry. apply Qlt_minus_iff.
Qed.

Lemma cooldown_test_false (c : Q) (elapsed : Z) :
  Js.ltb 0 (c - Js.num elapsed) = false <-> (c <= Js.num elapsed)%Q.
Proof.
  rewrite ltb_ge. unfold Qminus. split; intros H.
  - apply Qnot_lt_le. intros Hlt. apply Qlt_minus_iff in Hlt.
    by apply Qlt_not_le in Hlt.
  - apply Qnot_lt_le. intros Hlt. apply Qlt_minus_iff in Hlt.
    by apply Qlt_not_le in Hlt.
Qed.

(** The probe counters stay within the probe count rounded up; for an
    integer probe count that is the count itself. *)
Lemma probe_bound (o : BreakerOptions) (b : BreakerBucket) :
  bucket_inv o b ->
  (0 <= halfOpenInFlight b <= Qceiling (halfOpenProbeCount o))%Z /\
  (Js.is_integer (halfOpenProbeCount o) = true ->
     (Js.num (halfOpenInFlight b) <= halfOpenProbeCount o)%Q).
Proof.
  intros (Hi & _). split; [exact Hi|].
  intros Hint%is_integer_ceiling. rewrite <- Hint.
  unfold Js.num. rewrite <- Zle_Qle. apply Hi.
Qed.

(** C6.  [allow(key, now)] on a key that has a bucket or can
    get one: in OPEN, before the cooldown has elapsed it denies with
    [retryAfterMs = cooldownMs - (now - openedAtMs)] and changes nothing;
    once it has elapsed it moves the bucket to HALF_OPEN (the three
    half-open counters reset, [openedAtMs] cleared) and goes on to probe
    admission.  In HALF_OPEN it denies with [retryAfterMs = 0] when
    [halfOpenInFlight >= halfOpenProbeCount], else it increments
    [halfOpenInFlight] and allows.  In CLOSED it allows.  For every key and
    every sequence of calls, [halfOpenInFlight] stays within [0] and
    [halfOpenProbeCount] rounded up to the next integer, hence within
    [0 .. halfOpenProbeCount] when the probe count is an integer. *)
Theorem C6_allow_admission
    (o : BreakerOptions) (br0 : t) (ops : list Op) (key : string) (nowMs : Z)
    (b : BreakerBucket) :
  new o = inr br0 ->
  let br := run br0 ops in
  peek br key = Some b ->
  let d := fst (allow br key nowMs) in
  let br' := snd (allow br key nowMs) in
  (state b = OPEN ->
     exists openedAt, openedAtMs b = Some openedAt /\
       ((Js.num (nowMs - openedAt) < cooldownMs o)%Q ->
          d = inr (mkDecision false OPEN
                     (Some (cooldownMs o - Js.num (nowMs - openedAt))%Q)) /\
          br' = br) /\
       ((cooldownMs o <= Js.num (nowMs - openedAt))%Q ->
          toHalfOpen b = mkBucket HALF_OPEN None 0 (window b) 0 0 /\
          allow_bucket o b nowMs = allow_bucket o (toHalfOpen b) nowMs /\
          d = inr (mkDecision true HALF_OPEN None) /\
          peek br' key = Some (mkBucket HALF_OPEN None 1 (window b) 0 0))) /\
  (state b = HALF_OPEN ->
     ((halfOpenProbeCount o <= Js.num (halfOpenInFlight b))%Q ->
        d = inr (mkDecision false HALF_OPEN (Some 0%Q)) /\ br' = br) /\
     ((Js.num (halfOpenInFlight b) < halfOpenProbeCount o)%Q ->
        d = inr (mkDecision true HALF_OPEN None) /\
        peek br' key = Some (set_halfOpenInFlight (halfOpenInFlight b + 1)%Z b))) /\
  (state b = CLOSED ->
     d = inr (mkDecision true CLOSED None) /\ peek br' key = Some b) /\
  (forall k, k <> key -> peek br' k = peek br k) /\
  (forall k bk, peek br k = Some bk ->
     (0 <= halfOpenInFlight bk <= Qceiling (halfOpenProbeCount o))%Z /\
     (Js.is_integer (halfOpenProbeCount o) = true ->
        (Js.num (halfOpenInFlight bk) <= halfOpenProbeCount o)%Q)).
Proof.
  intros Hnew br Hpk d br'.
  pose proof (new_breaker_inv o br0 Hnew) as Hinv0.
  pose proof (breaker_inv_run br0 ops Hinv0) as [Hp Hb]. fold br in Hp, Hb.
  assert (Ho : opts br = o).
  { unfold br. rewrite run_opts. by apply new_valid in Hnew as (-> & _). }
  rewrite Ho in Hp, Hb. pose proof (probes_pos o Hp) as Hp'.
  assert (Hd : d = inr (fst (allow_bucket o b nowMs))).
  { unfold d. by rewrite (allow_Some br key nowMs b Hpk), Ho. }
  assert (Hb' : peek br' key = Some (snd (allow_bucket o b nowMs))).
  { unfold br'. rewrite peek_allow, Hpk, Ho. by case_decide. }
  assert (Hbr' : br' = store br key (snd (allow_bucket o b nowMs))).
  { unfold br'. by rewrite (allow_Some br key nowMs b Hpk), Ho. }
  split_and!.
  - intros Hst. destruct (Hb key b Hpk) as (_ & _ & _ & Hopen & _).
    destruct (proj1 Hopen Hst) as [openedAt Hat]. exists openedAt.
    split; [done|]. split.
    + intros Hlt. rewrite Hd, Hbr'. unfold allow_bucket. rewrite Hst, Hat. simpl.
      apply cooldown_test in Hlt. rewrite Hlt. simpl.
      split; [done|]. apply store_back; [done|]. by rewrite Hst.
    + intros Hge. rewrite Hd, Hb'. unfold allow_bucket. rewrite Hst, Hat. simpl.
      apply cooldown_test_false in Hge. rewrite Hge. simpl.
      rewrite probe_test.
      destruct (Z.leb_spec (probes o) 0); [lia|]. done.
  - intros Hst. split.
    + intros Hge. rewrite Hd, Hbr'. unfold allow_bucket. rewrite Hst. simpl.
      rewrite Hst. apply leb_le in Hge. rewrite Hge.
      simpl. split; [done|]. apply store_back; [done|]. by rewrite Hst.
    + intros Hlt. rewrite Hd, Hb'. unfold allow_bucket. rewrite Hst. simpl.
      rewrite Hst. apply leb_gt in Hlt. by rewrite Hlt.
  - intros Hst. rewrite Hd, Hb'. unfold allow_bucket. rewrite Hst. simpl.
    by rewrite Hst.
  - intros k Hne. unfold br'. rewrite peek_allow, Hpk. by case_decide.
  - intros k bk Hk. apply probe_bound. by apply (Hb k).
Qed.

Lemma C6_allow_admission_witness :
  let o := mkOptions 5 1 1 100 2 in
  let br := run (mk o ∅) [OpAllow "svc" 1000; OpOnFailure "svc" 1000] in
  fst (allow br "svc" 1050)
    = inr (mkDecision false OPEN (Some (100 - Js.num (1050 - 1000))%Q)) /\
  snd (allow br "svc" 1050) = br /\
  fst (allow br "svc" 1120) = inr (mkDecision true HALF_OPEN None) /\
  (forall b', peek (snd (allow br "svc" 1120)) "svc" = Some b' ->
     (Js.num (halfOpenInFlight b') <= 2)%Q).
Proof.
  intros o br.
  pose (b := mkBucket OPEN (Some 1000%Z) 0
               (RollingWindow.push (RollingWindow.make 5) RollingWindow.One) 0 0).
  pose proof (C6_allow_admission o (mk o ∅)
                [OpAllow "svc" 1000; OpOnFailure "svc" 1000] "svc" 1050 b
                eq_refl eq_refl)
    as (Hopen & _).
  pose proof (C6_allow_admission o (mk o ∅)
                [OpAllow "svc" 1000; OpOnFailure "svc" 1000; OpAllow "svc" 1120]
                "svc" 1120 (mkBucket HALF_OPEN None 1
                  (RollingWindow.push (RollingWindow.make 5) RollingWindow.One) 0 0)
                eq_refl eq_refl)
    as (_ & _ & _ & _ & Hbound).
  pose proof (C6_allow_admission o (mk o ∅)
                [OpAllow "svc" 1000; OpOnFailure "svc" 1000] "svc" 1120 b
                eq_refl eq_refl)
    as (Hopen' & _).
  destruct (Hopen eq_refl) as (t0 & Ht0 & Hdeny & _).
  destruct (Hopen' eq_refl) as (t1 & Ht1 & _ & Hprobe).
  injection Ht0 as <-. injection Ht1 as <-.
  destruct (Hdeny ltac:(vm_compute; reflexivity)) as [Hd Hs].
  destruct (Hprobe ltac:(vm_compute; discriminate)) as (_ & _ & Hd' & Hb').
  split_and!; [exact Hd|exact Hs|exact Hd'|].
  intros b' Hpb. exact (proj2 (Hbound "svc" b' Hpb) eq_refl).
Defined.

(** C6 on a probe count that is not an integer: the bound taken on the
    probe count itself fails.  With [halfOpenProbeCount = 1/2], which the
    constructor accepts, the first probe after the cooldown is admitted (0 >= 1/2 is
    false) and leaves [halfOpenInFlight = 1 > 1/2]. *)
Lemma C6_allow_admission_counterexample :
  let o := mkOptions 5 1 1 100 (1 # 2) in
  let br := run (mk o ∅) [OpOnFailure "svc" 1000; OpAllow "svc" 1100] in
  new o = inr (mk o ∅) /\
  exists b, peek br "svc" = Some b /\
    state b = HALF_OPEN /\ halfOpenInFlight b = 1%Z /\
    ~ (Js.num (halfOpenInFlight b) <= halfOpenProbeCount o)%Q.
Proof.
  intros o br. split; [reflexivity|].
  eexists. split; [reflexivity|]. split_and!; [reflexivity|reflexivity|].
  apply Qlt_not_le. reflexivity.
Qed.

(** C7. In HALF_OPEN, [onFailure(key, now)] decrements [halfOpenInFlight]
    (clamped at 0), increments [halfOpenFailures] and moves the bucket to
    OPEN with [openedAtMs = now], the half-open counters reset and the
    window untouched; it reports [changed] with [from = HALF_OPEN],
    [to = OPEN].  [onSuccess(key)] decrements [halfOpenInFlight] (clamped
    at 0), increments [halfOpenSuccesses], and moves the bucket to CLOSED
    exactly when the incremented count has reached [halfOpenProbeCount],
    reported as a change from HALF_OPEN to CLOSED; the half-open counters
    are then zero and the window is reset: every slot holds [0], the write
    index is [0], the filled flag is off, so [count], [failures] and
    [failureRate] are [0].  Otherwise it reports no change. *)
Theorem C7_half_open_results
    (br : t) (key : string) (nowMs : Z) (b : BreakerBucket) :
  peek br key = Some b -> state b = HALF_OPEN ->
  let o := opts br in
  let b1 := set_halfOpenInFlight (Z.max 0 (halfOpenInFlight b - 1)) b in
  let emptied :=
    RollingWindow.mk (RollingWindow.size (window b))
      (replicate (length (RollingWindow.buf (window b))) 0) 0 false in
  (fst (onFailure br key nowMs) = inr (mkChange true (Some HALF_OPEN) (Some OPEN)) /\
   peek (snd (onFailure br key nowMs)) key
     = Some (toOpen (set_halfOpenFailures (halfOpenFailures b + 1)%Z b1) nowMs) /\
   peek (snd (onFailure br key nowMs)) key
     = Some (mkBucket OPEN (Some nowMs) 0 (window b) 0 0)) /\
  ((halfOpenProbeCount o <= Js.num (halfOpenSuccesses b + 1))%Q ->
     fst (onSuccess br key) = inr (mkChange true (Some HALF_OPEN) (Some CLOSED)) /\
     peek (snd (onSuccess br key)) key
       = Some (toClosed (set_halfOpenSuccesses (halfOpenSuccesses b + 1)%Z b1)) /\
     peek (snd (onSuccess br key)) key
       = Some (mkBucket CLOSED None 0 emptied 0 0) /\
     RollingWindow.count emptied = 0 /\
     RollingWindow.failures emptied = 0 /\
     RollingWindow.failureRate emptied = 0%Q /\
     Forall (fun slot => slot = 0) (RollingWindow.buf emptied)) /\
  ((Js.num (halfOpenSuccesses b + 1) < halfOpenProbeCount o)%Q ->
     fst (onSuccess br key) = inr (mkChange false None None) /\
     peek (snd (onSuccess br key)) key
       = Some (mkBucket HALF_OPEN (openedAtMs b) (Z.max 0 (halfOpenInFlight b - 1))
                  (window b) (halfOpenSuccesses b + 1)%Z (halfOpenFailures b))) /\
  (state <$> peek (snd (onSuccess br key)) key = Some CLOSED <->
     (halfOpenProbeCount o <= Js.num (halfOpenSuccesses b + 1))%Q).
Proof.
  intros Hpk Hst o b1 emptied.
  rewrite (onFailure_Some br key nowMs b Hpk), (onSuccess_Some br key b Hpk).
  simpl. rewrite !peek_store.
  destruct (decide (key = key)) as [_|]; [|done].
  unfold onFailure_bucket, onSuccess_bucket. rewrite Hst. simpl. fold o.
  destruct (Js.leb (halfOpenProbeCount o) (Js.num (halfOpenSuccesses b + 1)))
    eqn:E; simpl.
  - apply leb_le in E.
    split; [done|]. split; [|split; [|done]].
    + intros _. split_and!; try done. by apply Forall_replicate.
    + intros Hlt. by apply Qlt_not_le in Hlt.
  - apply leb_gt in E.
    split; [done|]. split; [|split].
    + intros Hle. by apply Qlt_not_le in E.
    + intros _. split; [done|].
      unfold set_halfOpenSuccesses, set_halfOpenInFlight. simpl. by rewrite Hst.
    + rewrite Hst. split; [intros [=]|].
      intros Hle. by apply Qlt_not_le in E.
Qed.

Lemma C7_half_open_results_witness :
  let o := mkOptions 5 1 1 50 2 in
  let br := run (mk o ∅) [OpAllow "svc" 1000; OpOnFailure "svc" 1000;
                          OpAllow "svc" 1060; OpAllow "svc" 1061;
                          OpOnSuccess "svc"] in
  fst (onFailure br "svc" 1062) = inr (mkChange true (Some HALF_OPEN) (Some OPEN)) /\
  fst (onSuccess br "svc") = inr (mkChange true (Some HALF_OPEN) (Some CLOSED)) /\
  peek (snd (onSuccess br "svc")) "svc"
    = Some (mkBucket CLOSED None 0 (RollingWindow.mk 5 [0; 0; 0; 0; 0] 0 false) 0 0).
Proof.
  intros o br.
  destruct (C7_half_open_results br "svc" 1062
              (mkBucket HALF_OPEN None 1
                 (RollingWindow.push (RollingWindow.make 5) RollingWindow.One) 1 0)
              eq_refl eq_refl)
    as ((Hf & _) & Hclose & _ & Hiff).
  destruct (Hclose ltac:(vm_compute; discriminate)) as (Hs & _ & Hb & _).
  split_and!; [exact Hf|exact Hs|exact Hb].
Defined.

(** [onFailure] on a CLOSED bucket: push, then the threshold check. *)
Lemma closed_failure (br : t) (key : string) (nowMs : Z) (b : BreakerBucket) :
  peek br key = Some b -> state b = CLOSED ->
  let o := opts br in
  let w' := RollingWindow.push (window b) RollingWindow.One in
  let trips := (minRequests o <= Js.len (RollingWindow.count w'))%Q /\
               (failureThreshold o <= RollingWindow.failureRate w')%Q in
  let b' := peek (snd (onFailure br key nowMs)) key in
  window <$> b' = Some w' /\
  (trips ->
     fst (onFailure br key nowMs) = inr (mkChange true (Some CLOSED) (Some OPEN)) /\
     b' = Some (mkBucket OPEN (Some nowMs) 0 w' 0 0)) /\
  (~ trips ->
     fst (onFailure br key nowMs) = inr (mkChange false None None) /\
     b' = Some (set_window w' b)) /\
  (state <$> b' = Some OPEN <-> trips).
Proof.
  intros Hpk Hst o w' trips b'.
  unfold b'. rewrite (onFailure_Some br key nowMs b Hpk). simpl.
  rewrite !peek_store.
  destruct (decide (key = key)) as [_|]; [|done].
  unfold onFailure_bucket. rewrite Hst. simpl. fold o w'.
  assert (Htrips : trips <->
            Js.leb (minRequests o) (Js.len (RollingWindow.count w'))
            && Js.leb (failureThreshold o) (RollingWindow.failureRate w') = true).
  { unfold trips. by rewrite andb_true_iff, !leb_le. }
  destruct (Js.leb (minRequests o) (Js.len (RollingWindow.count w'))
            && Js.leb (failureThreshold o) (RollingWindow.failureRate w')) eqn:E;
    simpl.
  - assert (Ht : trips) by (by apply Htrips).
    split; [done|]. split; [done|]. split; [by intros Hn|]. by split.
  - assert (Hn : ~ trips) by (intros Ht; apply Htrips in Ht; discriminate).
    split; [done|]. split; [by intros Ht|]. split; [done|].
    rewrite Hst.
    split; [intros Hc; discriminate Hc|by intros Ht].
Qed.

(** [onSuccess] on a CLOSED bucket: push, and nothing else. *)
Lemma closed_success (br : t) (key : string) (b : BreakerBucket) :
  peek br key = Some b -> state b = CLOSED ->
  let b' := peek (snd (onSuccess br key)) key in
  fst (onSuccess br key) = inr (mkChange false None None) /\
  b' = Some (set_window (RollingWindow.push (window b) RollingWindow.Zero) b) /\
  state <$> b' = Some CLOSED.
Proof.
  intros Hpk Hst b'.
  unfold b'. rewrite (onSuccess_Some br key b Hpk). simpl. rewrite !peek_store.
  destruct (decide (key = key)) as [_|]; [|done].
  unfold onSuccess_bucket. rewrite Hst. simpl. by rewrite Hst.
Qed.

(** C8. In CLOSED, [onFailure(key, now)] pushes [1] into the key's window
    and then moves the bucket to OPEN ([openedAtMs = now], half-open
    counters reset, window kept) if and only if the window's count is at
    least [minRequests] and its failure rate is at least
    [failureThreshold].  With window 10, min 4, threshold 0.5, the outcomes
    F,S,F,S followed by one more F leave the state OPEN after the fifth. *)
Theorem C8_closed_failure_opens
    (br : t) (key : string) (nowMs : Z) (b : BreakerBucket) :
  peek br key = Some b -> state b = CLOSED ->
  let o := opts br in
  let w' := RollingWindow.push (window b) RollingWindow.One in
  let trips := (minRequests o <= Js.len (RollingWindow.count w'))%Q /\
               (failureThreshold o <= RollingWindow.failureRate w')%Q in
  let b' := peek (snd (onFailure br key nowMs)) key in
  window <$> b' = Some w' /\
  (trips ->
     fst (onFailure br key nowMs) = inr (mkChange true (Some CLOSED) (Some OPEN)) /\
     b' = Some (mkBucket OPEN (Some nowMs) 0 w' 0 0)) /\
  (~ trips ->
     fst (onFailure br key nowMs) = inr (mkChange false None None) /\
     b' = Some (set_window w' b)) /\
  (state <$> b' = Some OPEN <-> trips) /\
  (let br5 := run (mk (mkOptions 10 4 (1 # 2) 1000 2) ∅)
                  [OpOnFailure "svc" 1; OpOnSuccess "svc"; OpOnFailure "svc" 3;
                   OpOnSuccess "svc"; OpOnFailure "svc" 5] in
   new (mkOptions 10 4 (1 # 2) 1000 2) = inr (mk (mkOptions 10 4 (1 # 2) 1000 2) ∅) /\
   state_of br5 "svc" = inr OPEN).
Proof.
  intros Hpk Hst o w' trips b'.
  destruct (closed_failure br key nowMs b Hpk Hst) as (H1 & H2 & H3 & H4).
  refine (conj H1 (conj H2 (conj H3 (conj H4 (conj _ _)))));
    vm_compute; reflexivity.
Qed.

Lemma C8_closed_failure_opens_witness :
  let br4 := run (mk (mkOptions 10 4 (1 # 2) 1000 2) ∅)
                 [OpOnFailure "svc" 1; OpOnSuccess "svc"; OpOnFailure "svc" 3;
                  OpOnSuccess "svc"] in
  state <$> peek br4 "svc" = Some CLOSED /\
  state <$> peek (snd (onFailure br4 "svc" 5)) "svc" = Some OPEN.
Proof.
  intros br4. split; [reflexivity|].
  destruct (C8_closed_failure_opens br4 "svc" 5
              (mkBucket CLOSED None 0
                 (RollingWindow.push_all (RollingWindow.make 10)
                    [RollingWindow.One; RollingWindow.Zero;
                     RollingWindow.One; RollingWindow.Zero]) 0 0)
              eq_refl eq_refl)
    as (_ & _ & _ & Hiff & _).
  apply Hiff. split; vm_compute; discriminate.
Defined.

(** C10. The CLOSED-to-OPEN check runs only in [onFailure]: in CLOSED,
    [onSuccess] pushes [0] into the window, reports no change and leaves the
    bucket CLOSED whatever the window then holds.  With window 10,
    min 4, threshold 0.5, after F,S,F,S the window has count 4 and failure
    rate 1/2, which meets both thresholds, and the bucket is still CLOSED;
    the next [onFailure] opens it. *)
Theorem C10_success_never_opens (br : t) (key : string) (b : BreakerBucket) :
  peek br key = Some b -> state b = CLOSED ->
  let b' := peek (snd (onSuccess br key)) key in
  fst (onSuccess br key) = inr (mkChange false None None) /\
  b' = Some (set_window (RollingWindow.push (window b) RollingWindow.Zero) b) /\
  state <$> b' = Some CLOSED /\
  (let o := mkOptions 10 4 (1 # 2) 1000 2 in
   let br3 := run (mk o ∅)
                  [OpOnFailure "svc" 1; OpOnSuccess "svc"; OpOnFailure "svc" 3] in
   let br4 := snd (onSuccess br3 "svc") in
   new o = inr (mk o ∅) /\
   state <$> peek br3 "svc" = Some CLOSED /\
   exists b4, peek br4 "svc" = Some b4 /\
   RollingWindow.count (window b4) = 4 /\
   (RollingWindow.failureRate (window b4) == 1 # 2)%Q /\
   (minRequests o <= Js.len (RollingWindow.count (window b4)))%Q /\
   (failureThreshold o <= RollingWindow.failureRate (window b4))%Q /\
   state b4 = CLOSED /\
   state <$> peek (snd (onFailure br4 "svc" 5)) "svc" = Some OPEN).
Proof.
  intros Hpk Hst b'.
  destruct (closed_success br key b Hpk Hst) as (H1 & H2 & H3).
  refine (conj H1 (conj H2 (conj H3 _))).
  split; [reflexivity|]. split; [reflexivity|].
  eexists. split; [reflexivity|].
  split_and!; vm_compute; first [reflexivity | discriminate].
Qed.

Lemma C10_success_never_opens_witness :
  let o := mkOptions 10 4 (1 # 2) 1000 2 in
  let br3 := run (mk o ∅)
                 [OpOnFailure "svc" 1; OpOnSuccess "svc"; OpOnFailure "svc" 3] in
  fst (onSuccess br3 "svc") = inr (mkChange false None None) /\
  state <$> peek (snd (onSuccess br3 "svc")) "svc" = Some CLOSED.
Proof.
  intros o br3.
  destruct (C10_success_never_opens br3 "svc"
              (mkBucket CLOSED None 0
                 (RollingWindow.push_all (RollingWindow.make 10)
                    [RollingWindow.One; RollingWindow.Zero; RollingWindow.One])
                 0 0)
              eq_refl eq_refl) as (Hc & _ & Hs & _).
  split; [exact Hc|exact Hs].
Defined.

End BreakerFacts.
(** ** Request pipeline *)

Section ClientFacts.
Import Errors Client.

Lemma since_app (c c' : t) (es : list Effect) :
  trace c' = trace c ++ es -> since c c' = es.
Proof. intros H. unfold since. rewrite H. apply drop_app_length. Qed.

(** A caller that holds a permit can release it. *)
Lemma release_returns (l : Limiter.t) :
  (0 < Limiter.inFlight l)%Z -> fst (Limiter.release l) = None.
Proof.
  intros H. unfold Limiter.release.
  destruct (Z.leb_spec (Limiter.inFlight l) 0); [lia|].
  by destruct (Limiter.queue l).
Qed.

(** [allow] never writes to a rolling window. *)
Lemma allow_bucket_window (o : Breaker.BreakerOptions) (b : Breaker.BreakerBucket)
    (nowMs : Z) :
  Breaker.window (snd (Breaker.allow_bucket o b nowMs)) = Breaker.window b.
Proof.
  unfold Breaker.allow_bucket.
  destruct (Breaker.state b) eqn:Hst; simpl; rewrite ?Hst; try done.
  - destruct (Js.ltb 0 _); simpl; [done|]. by destruct (Js.leb _ _).
  - by destruct (Js.leb _ _).
Qed.

Lemma allow_window (br : Breaker.t) (key k : string) (nowMs : Z) :
  Breaker.window <$> Breaker.peek (snd (Breaker.allow br key nowMs)) k
  = Breaker.window <$> Breaker.peek br k.
Proof.
  rewrite peek_allow. destruct (Breaker.peek br key) as [b|] eqn:Hb; [|done].
  case_decide as Hk; [|done].
  subst. rewrite Hb. simpl. by rewrite allow_bucket_window.
Qed.

(** The primitives of the pipeline, as equations. *)
Lemma emit_run (e : Event) (c : t) :
  emit e c =
    (match listeners c (trace c) e with Some err => inl err | None => inr tt end,
     logged [Emit e] c).
Proof.
  unfold emit, bind, get, record_effect, throw, ret.
  by destruct (listeners c (trace c) e).
Qed.

Lemma emit_quiet (e : Event) (c : t) :
  quiet c -> emit e c = (inr tt, logged [Emit e] c).
Proof. intros Hq. by rewrite emit_run, Hq. Qed.

Lemma emit_change_run (key : string) (change : Breaker.Change) (c : t) :
  emit_change key change c =
    (if Breaker.changed change
     then match listeners c (trace c)
                  (BreakerStateChanged key (Breaker.from change) (Breaker.to change))
          with Some err => inl err | None => inr tt end
     else inr tt,
     logged (Emit <$> change_events key change) c).
Proof.
  unfold emit_change, change_events.
  destruct (Breaker.changed change); [apply emit_run|].
  unfold ret, logged. simpl. rewrite app_nil_r. by destruct c.
Qed.

Lemma breaker_allow_run (key : string) (nowMs : Z) (c : t) :
  breaker_allow key nowMs c =
    (fst (Breaker.allow (breaker c) key nowMs),
     set_breaker (snd (Breaker.allow (breaker c) key nowMs))
       (logged [CallAllow key nowMs] c)).
Proof.
  unfold breaker_allow, bind, record_effect, with_breaker. simpl.
  by destruct (Breaker.allow (breaker c) key nowMs).
Qed.

Lemma breaker_onSuccess_run (key : string) (c : t) :
  breaker_onSuccess key c =
    (fst (Breaker.onSuccess (breaker c) key),
     set_breaker (snd (Breaker.onSuccess (breaker c) key))
       (logged [CallOnSuccess key] c)).
Proof.
  unfold breaker_onSuccess, bind, record_effect, with_breaker. simpl.
  by destruct (Breaker.onSuccess (breaker c) key).
Qed.

Lemma breaker_onFailure_run (key : string) (nowMs : Z) (c : t) :
  breaker_onFailure key nowMs c =
    (fst (Breaker.onFailure (breaker c) key nowMs),
     set_breaker (snd (Breaker.onFailure (breaker c) key nowMs))
       (logged [CallOnFailure key nowMs] c)).
Proof.
  unfold breaker_onFailure, bind, record_effect, with_breaker. simpl.
  by destruct (Breaker.onFailure (breaker c) key nowMs).
Qed.

Lemma limiter_acquire_run (c : t) :
  limiter_acquire c =
    (inr (fst (Limiter.acquire (limiter c))),
     set_limiter (snd (Limiter.acquire (limiter c))) (logged [CallAcquire] c)).
Proof.
  unfold limiter_acquire, bind, record_effect, with_limiter. simpl.
  by destruct (Limiter.acquire (limiter c)).
Qed.

Lemma limiter_release_run (c : t) :
  limiter_release c =
    (match fst (Limiter.release (limiter c)) with
     | Some e => inl e
     | None => inr tt
     end,
     set_limiter (snd (Limiter.release (limiter c))) (logged [CallRelease] c)).
Proof.
  unfold limiter_release, bind, record_effect, with_limiter, throw, ret. simpl.
  by destruct (Limiter.release (limiter c)) as [[e|] l].
Qed.

(** Segment 1, case by case: [keyFn] throws; [allow] throws; the breaker
    denies; the breaker allows. *)
Lemma begin_effects (c : t) (req : ResilientRequest) (requestId : string) (nowMs : Z) :
  let r := eval (request_begin req requestId nowMs) c in
  let c' := exec (request_begin req requestId nowMs) c in
  match keyFn c req with
  | inl e => r = inl e /\ c' = c
  | inr key =>
      breaker c' = snd (Breaker.allow (breaker c) key nowMs) /\
      match fst (Breaker.allow (breaker c) key nowMs) with
      | inl e =>
          r = inl e /\ limiter c' = limiter c /\
          trace c' = trace c ++ [CallAllow key nowMs]
      | inr decision =>
          if Breaker.allowed decision then
            r = inr (mkCtx key requestId req, fst (Limiter.acquire (limiter c))) /\
            limiter c' = snd (Limiter.acquire (limiter c)) /\
            trace c' = trace c ++ [CallAllow key nowMs; CallAcquire]
          else
            let err := CircuitOpenError key
                         (default 0%Q (Breaker.retryAfterMs decision)) in
            let ev := RequestRejected key requestId req err in
            r = inl (default err
                       (listeners c (trace c ++ [CallAllow key nowMs]) ev)) /\
            limiter c' = limiter c /\
            trace c' = trace c ++ [CallAllow key nowMs; Emit ev]
      end
  end.
Proof.
  intros r c'.
  assert (Hrun : request_begin req requestId nowMs c =
            match keyFn c req with
            | inl e => (inl e, c)
            | inr key =>
                let c1 := set_breaker (snd (Breaker.allow (breaker c) key nowMs))
                            (logged [CallAllow key nowMs] c) in
                match fst (Breaker.allow (breaker c) key nowMs) with
                | inl e => (inl e, c1)
                | inr decision =>
                    if Breaker.allowed decision then
                      (inr (mkCtx key requestId req,
                            fst (Limiter.acquire (limiter c))),
                       set_limiter (snd (Limiter.acquire (limiter c)))
                         (logged [CallAcquire] c1))
                    else
                      let err := CircuitOpenError key
                                   (default 0%Q (Breaker.retryAfterMs decision)) in
                      let ev := RequestRejected key requestId req err in
                      (inl (default err (listeners c1 (trace c1) ev)),
                       logged [Emit ev] c1)
                end
            end).
  { unfold request_begin, call_keyFn, bind, get, returned.
    destruct (keyFn c req) as [e|key]; [done|].
    unfold ret at 1. rewrite breaker_allow_run.
    destruct (fst (Breaker.allow (breaker c) key nowMs)) as [e|d]; [done|].
    destruct (Breaker.allowed d); simpl.
    - by rewrite limiter_acquire_run.
    - rewrite emit_run. by destruct (listeners _ _ _). }
  unfold r, c', eval, exec. rewrite Hrun. clear Hrun.
  destruct (keyFn c req) as [e|key]; [done|].
  destruct (fst (Breaker.allow (breaker c) key nowMs)) as [e|d]; [done|].
  destruct (Breaker.allowed d); simpl;
    (split; [done|]); (split; [done|]); (split; [done|]);
    by rewrite <- app_assoc.
Qed.

(** Segment 2 after a rejected [acquire]: the rejection event, nothing
    else. *)
Lemma acquired_rejected (c : t) (ctx : Ctx) (err : Error) (nowMs : Z) :
  let ev := RequestRejected (ctx_key ctx) (ctx_requestId ctx) (ctx_req ctx) err in
  let r := eval (request_acquired ctx (Some err) nowMs) c in
  let c' := exec (request_acquired ctx (Some err) nowMs) c in
  r = inl (default err (listeners c (trace c) ev)) /\
  breaker c' = breaker c /\
  limiter c' = limiter c /\
  trace c' = trace c ++ [Emit ev].
Proof.
  intros ev r c'. unfold r, c', eval, exec, request_acquired, bind.
  rewrite emit_run. fold ev. by destruct (listeners c (trace c) ev).
Qed.

(** Segment 2 after a fulfilled [acquire]: the start event, then the
    exchange unless a listener of the start event throws. *)
Lemma acquired_start (c : t) (ctx : Ctx) (nowMs : Z) :
  let ev := RequestStart (ctx_key ctx) (ctx_requestId ctx) (ctx_req ctx) in
  let r := eval (request_acquired ctx None nowMs) c in
  let c' := exec (request_acquired ctx None nowMs) c in
  breaker c' = breaker c /\
  limiter c' = limiter c /\
  match listeners c (trace c) ev with
  | Some e => r = inl e /\ trace c' = trace c ++ [Emit ev]
  | None =>
      r = inr (ctx, nowMs) /\
      trace c' = trace c ++ [Emit ev; CallDoHttp (ctx_req ctx) (requestTimeoutMs c)]
  end.
Proof.
  intros ev r c'. unfold r, c', eval, exec, request_acquired, bind.
  rewrite emit_run. fold ev. destruct (listeners c (trace c) ev); [done|].
  simpl. split; [done|]. split; [done|]. split; [done|]. by rewrite <- app_assoc.
Qed.

(** The [catch] block followed by the [finally] block, for a caller that
    holds a permit, a key that has a bucket and listeners that return. *)
Lemma catch_finally_quiet (c : t) (ctx : Ctx) (start : Z) (err : Error)
    (nowSignal nowEnd : Z) (b : Breaker.BreakerBucket) :
  quiet c ->
  (0 < Limiter.inFlight (limiter c))%Z ->
  Breaker.peek (breaker c) (ctx_key ctx) = Some b ->
  let key := ctx_key ctx in
  let change := fst (Breaker.onFailure_bucket (Breaker.opts (breaker c)) b nowSignal) in
  let m := try_finally (request_catch ctx start err nowSignal nowEnd)
             limiter_release in
  fst (Breaker.onFailure (breaker c) key nowSignal) = inr change /\
  eval m c = inl err /\
  breaker (exec m c) = snd (Breaker.onFailure (breaker c) key nowSignal) /\
  limiter (exec m c) = snd (Limiter.release (limiter c)) /\
  trace (exec m c) = trace c ++
    [CallOnFailure key nowSignal]
    ++ (Emit <$> change_events key change)
    ++ [Emit (RequestFailure key (ctx_requestId ctx) (ctx_req ctx) err
                (nowEnd - start)%Z);
        CallRelease].
Proof.
  intros Hq Hpermit Hb key change m.
  pose proof (release_returns (limiter c) Hpermit) as Hrel.
  unfold m, eval, exec, try_finally, request_catch. fold key.
  unfold bind. rewrite breaker_onFailure_run.
  rewrite (onFailure_Some (breaker c) key nowSignal b Hb). simpl. fold change.
  rewrite emit_change_run. simpl.
  rewrite (Hq _ _). replace (if Breaker.changed change then inr tt else inr tt)
    with (@inr Error unit tt) by (by destruct (Breaker.changed change)).
  rewrite emit_run. simpl. rewrite (Hq _ _). simpl.
  rewrite limiter_release_run. simpl. rewrite Hrel. simpl.
  split_and!; try done. by rewrite <- !app_assoc.
Qed.

(** Segment 3 on a completed response, under the same conditions. *)
Lemma completed_response (c : t) (ctx : Ctx) (start : Z) (res : ResilientResponse)
    (nowSignal nowEnd nowSignal2 nowEnd2 : Z) (b : Breaker.BreakerBucket) :
  quiet c ->
  (0 < Limiter.inFlight (limiter c))%Z ->
  Breaker.peek (breaker c) (ctx_key ctx) = Some b ->
  let key := ctx_key ctx in
  let signal := if (500 <=? status res)%Z
                then Breaker.onFailure (breaker c) key nowSignal
                else Breaker.onSuccess (breaker c) key in
  let change := if (500 <=? status res)%Z
                then fst (Breaker.onFailure_bucket (Breaker.opts (breaker c)) b nowSignal)
                else fst (Breaker.onSuccess_bucket (Breaker.opts (breaker c)) b) in
  let m := request_completed ctx start (inr res)
             nowSignal nowEnd nowSignal2 nowEnd2 in
  fst signal = inr change /\
  eval m c = inr res /\
  breaker (exec m c) = snd signal /\
  limiter (exec m c) = snd (Limiter.release (limiter c)) /\
  trace (exec m c) = trace c ++
    [if (500 <=? status res)%Z then CallOnFailure key nowSignal else CallOnSuccess key]
    ++ (Emit <$> change_events key change)
    ++ [Emit (RequestSuccess key (ctx_requestId ctx) (ctx_req ctx) (status res)
                (nowEnd - start)%Z);
        CallRelease].
Proof.
  intros Hq Hpermit Hb key signal change m.
  pose proof (release_returns (limiter c) Hpermit) as Hrel.
  unfold m, eval, exec, request_completed, try_finally, try_catch, request_try.
  fold key. unfold signal, change.
  destruct (500 <=? status res)%Z.
  - unfold bind. rewrite breaker_onFailure_run.
    rewrite (onFailure_Some (breaker c) key nowSignal b Hb). simpl.
    rewrite emit_change_run. simpl. rewrite (Hq _ _).
    match goal with
    | |- context [if ?x then inr tt else inr tt] =>
        replace (if x then inr tt else inr tt) with (@inr Error unit tt)
          by (by destruct x)
    end.
    rewrite emit_run. simpl. rewrite (Hq _ _). simpl.
    rewrite limiter_release_run. simpl. rewrite Hrel. simpl.
    split_and!; try done. by rewrite <- !app_assoc.
  - unfold bind. rewrite breaker_onSuccess_run.
    rewrite (onSuccess_Some (breaker c) key b Hb). simpl.
    rewrite emit_change_run. simpl. rewrite (Hq _ _).
    match goal with
    | |- context [if ?x then inr tt else inr tt] =>
        replace (if x then inr tt else inr tt) with (@inr Error unit tt)
          by (by destruct x)
    end.
    rewrite emit_run. simpl. rewrite (Hq _ _). simpl.
    rewrite limiter_release_run. simpl. rewrite Hrel. simpl.
    split_and!; try done. by rewrite <- !app_assoc.
Qed.

(** Segment 3 on a thrown failure, under the same conditions. *)
Lemma completed_failure (c : t) (ctx : Ctx) (start : Z) (err : Error)
    (nowSignal nowEnd nowSignal2 nowEnd2 : Z) (b : Breaker.BreakerBucket) :
  quiet c ->
  (0 < Limiter.inFlight (limiter c))%Z ->
  Breaker.peek (breaker c) (ctx_key ctx) = Some b ->
  let key := ctx_key ctx in
  let change := fst (Breaker.onFailure_bucket (Breaker.opts (breaker c)) b nowSignal) in
  let m := request_completed ctx start (inl err)
             nowSignal nowEnd nowSignal2 nowEnd2 in
  fst (Breaker.onFailure (breaker c) key nowSignal) = inr change /\
  eval m c = inl err /\
  breaker (exec m c) = snd (Breaker.onFailure (breaker c) key nowSignal) /\
  limiter (exec m c) = snd (Limiter.release (limiter c)) /\
  trace (exec m c) = trace c ++
    [CallOnFailure key nowSignal]
    ++ (Emit <$> change_events key change)
    ++ [Emit (RequestFailure key (ctx_requestId ctx) (ctx_req ctx) err
                (nowEnd - start)%Z);
        CallRelease].
Proof.
  intros Hq Hpermit Hb. unfold request_completed.
  by apply catch_finally_quiet.
Qed.
Lemma signals_app (es1 es2 : list Effect) :
  signals (es1 ++ es2) = signals es1 ++ signals es2.
Proof. unfold signals. apply omap_app. Qed.

Lemma events_app (es1 es2 : list Effect) :
  events (es1 ++ es2) = events es1 ++ events es2.
Proof. unfold events. apply omap_app. Qed.

Lemma signals_emits (evs : list Event) : signals (Emit <$> evs) = [].
Proof. by induction evs. Qed.

Lemma events_emits (evs : list Event) : events (Emit <$> evs) = evs.
Proof.
  unfold events. induction evs as [|ev evs IH]; [done|].
  cbn [fmap list_fmap omap list_omap event_of]. by f_equal.
Qed.

(** C2.  Outcome classification, provided no listener of the
    client's events throws.  For a request that holds a permit (its key
    has a bucket since [allow] admitted it): a response with
    [status >= 500] makes exactly one [onFailure] call and still emits
    [request:success] with that status and the duration; a response with
    [status < 500] makes exactly one [onSuccess] call and emits
    [request:success]; a thrown failure makes exactly one [onFailure] call,
    emits [request:failure] and is rethrown to the caller.  A request
    rejected before admission (circuit open in segment 1, queue full or
    queue timeout in segment 2) makes no [onSuccess] or [onFailure] call,
    starts no outbound exchange, and leaves every rolling window as it
    was; this part holds whatever the listeners do. *)
Theorem C2_outcome_classification
    (c : t) (ctx : Ctx) (b : Breaker.BreakerBucket)
    (start nowSignal nowEnd nowSignal2 nowEnd2 : Z) :
  quiet c ->
  (0 < Limiter.inFlight (limiter c))%Z ->
  Breaker.peek (breaker c) (ctx_key ctx) = Some b ->
  let key := ctx_key ctx in
  (forall res, (500 <= status res)%Z ->
     let m := request_completed ctx start (inr res)
                nowSignal nowEnd nowSignal2 nowEnd2 in
     exists change,
       fst (Breaker.onFailure (breaker c) key nowSignal) = inr change /\
       eval m c = inr res /\
       signals (since c (exec m c)) = [SignalFailure] /\
       breaker (exec m c) = snd (Breaker.onFailure (breaker c) key nowSignal) /\
       events (since c (exec m c)) =
         change_events key change ++
         [RequestSuccess key (ctx_requestId ctx) (ctx_req ctx) (status res)
            (nowEnd - start)%Z]) /\
  (forall res, (status res < 500)%Z ->
     let m := request_completed ctx start (inr res)
                nowSignal nowEnd nowSignal2 nowEnd2 in
     exists change,
       fst (Breaker.onSuccess (breaker c) key) = inr change /\
       eval m c = inr res /\
       signals (since c (exec m c)) = [SignalSuccess] /\
       breaker (exec m c) = snd (Breaker.onSuccess (breaker c) key) /\
       events (since c (exec m c)) =
         change_events key change ++
         [RequestSuccess key (ctx_requestId ctx) (ctx_req ctx) (status res)
            (nowEnd - start)%Z]) /\
  (forall err,
     let m := request_completed ctx start (inl err)
                nowSignal nowEnd nowSignal2 nowEnd2 in
     exists change,
       fst (Breaker.onFailure (breaker c) key nowSignal) = inr change /\
       eval m c = inl err /\
       signals (since c (exec m c)) = [SignalFailure] /\
       breaker (exec m c) = snd (Breaker.onFailure (breaker c) key nowSignal) /\
       events (since c (exec m c)) =
         change_events key change ++
         [RequestFailure key (ctx_requestId ctx) (ctx_req ctx) err
            (nowEnd - start)%Z]) /\
  (forall (c0 : t) (req : ResilientRequest) (requestId : string) (nowMs : Z),
     let m := request_begin req requestId nowMs in
     signals (since c0 (exec m c0)) = [] /\
     filter is_transport (since c0 (exec m c0)) = [] /\
     (forall k, Breaker.window <$> Breaker.peek (breaker (exec m c0)) k
                = Breaker.window <$> Breaker.peek (breaker c0) k) /\
     (forall key0 decision err,
        quiet c0 -> keyFn c0 req = inr key0 ->
        fst (Breaker.allow (breaker c0) key0 nowMs) = inr decision ->
        eval m c0 = inl err ->
        exists retryAfter, err = CircuitOpenError key0 retryAfter)) /\
  (forall (c0 : t) (ctx0 : Ctx) (err : Error) (nowMs : Z),
     let m := request_acquired ctx0 (Some err) nowMs in
     (quiet c0 -> eval m c0 = inl err) /\
     signals (since c0 (exec m c0)) = [] /\
     filter is_transport (since c0 (exec m c0)) = [] /\
     breaker (exec m c0) = breaker c0) /\
  (forall (c0 : t) (h : nat),
     since c0 (exec (limiter_timer_fires h) c0) = [] /\
     breaker (exec (limiter_timer_fires h) c0) = breaker c0).
Proof.
  intros Hq Hpermit Hb key. split_and!.
  - intros res Hst m. unfold m.
    destruct (completed_response c ctx start res nowSignal nowEnd
                nowSignal2 nowEnd2 b Hq Hpermit Hb)
      as (Hc & Hr & Hbr & _ & Ht).
    destruct (Z.leb_spec 500 (status res)); [|lia].
    eexists. split; [exact Hc|].
    rewrite (since_app _ _ _ Ht). fold key in Hbr, Ht |- *.
    split_and!; [done| |done|].
    + by rewrite !signals_app, signals_emits.
    + by rewrite !events_app, events_emits.
  - intros res Hst m. unfold m.
    destruct (completed_response c ctx start res nowSignal nowEnd
                nowSignal2 nowEnd2 b Hq Hpermit Hb)
      as (Hc & Hr & Hbr & _ & Ht).
    destruct (Z.leb_spec 500 (status res)); [lia|].
    eexists. split; [exact Hc|].
    rewrite (since_app _ _ _ Ht). fold key in Hbr, Ht |- *.
    split_and!; [done| |done|].
    + by rewrite !signals_app, signals_emits.
    + by rewrite !events_app, events_emits.
  - intros err m. unfold m.
    destruct (completed_failure c ctx start err nowSignal nowEnd
                nowSignal2 nowEnd2 b Hq Hpermit Hb)
      as (Hc & Hr & Hbr & _ & Ht).
    eexists. split; [exact Hc|].
    rewrite (since_app _ _ _ Ht). fold key in Hbr, Ht |- *.
    split_and!; [done| |done|].
    + by rewrite !signals_app, signals_emits.
    + by rewrite !events_app, events_emits.
  - intros c0 req requestId nowMs m. unfold m.
    pose proof (begin_effects c0 req requestId nowMs) as H. simpl in H.
    destruct (keyFn c0 req) as [e|key0] eqn:Hk.
    { destruct H as (Hr & ->). unfold since. rewrite drop_all.
      split_and!; try done; intros; congruence. }
    destruct H as (Hbr & H).
    assert (Hw : forall k,
              Breaker.window <$> Breaker.peek
                (breaker (exec (request_begin req requestId nowMs) c0)) k
              = Breaker.window <$> Breaker.peek (breaker c0) k).
    { intros k. rewrite Hbr. apply allow_window. }
    destruct (fst (Breaker.allow (breaker c0) key0 nowMs)) as [e|d] eqn:Hd.
    { destruct H as (Hr & _ & Ht). rewrite (since_app _ _ _ Ht).
      split_and!; try done; intros; congruence. }
    destruct (Breaker.allowed d) eqn:Ed.
    + destruct H as (Hr & _ & Ht). rewrite (since_app _ _ _ Ht).
      split_and!; try done; intros; congruence.
    + destruct H as (Hr & _ & Ht). rewrite (since_app _ _ _ Ht).
      split_and!; try done.
      intros key1 d' err Hq0 [= <-] _ He. rewrite Hr, Hq0 in He.
      injection He as <-. eauto.
  - intros c0 ctx0 err nowMs m. unfold m.
    destruct (acquired_rejected c0 ctx0 err nowMs) as (Hr & Hbr & _ & Ht).
    rewrite (since_app _ _ _ Ht). split_and!; try done.
    intros Hq0. by rewrite Hr, Hq0.
  - intros c0 h. split; [|done].
    apply since_app. unfold exec, limiter_timer_fires, with_limiter. simpl.
    by rewrite app_nil_r.
Qed.

Lemma C2_outcome_classification_witness :
  let res := mkResponse 503 [] "" in
  let m := request_completed (ctx_of "svc" "r1") 1000 (inr res)
             1010 1012 1013 1014 in
  eval m scenario_in_transport = inr res /\
  signals (since scenario_in_transport (exec m scenario_in_transport))
    = [SignalFailure] /\
  events (since scenario_in_transport (exec m scenario_in_transport))
    = [BreakerStateChanged "svc" (Some Breaker.CLOSED) (Some Breaker.OPEN);
       RequestSuccess "svc" "r1" (get_req "svc") 503 12].
Proof.
  intros res m.
  destruct (C2_outcome_classification scenario_in_transport (ctx_of "svc" "r1")
              (Breaker.fresh_bucket (RollingWindow.make 5))
              1000 1010 1012 1013 1014
              ltac:(intros tr e; reflexivity)
              ltac:(vm_compute; reflexivity)
              ltac:(vm_compute; reflexivity)) as (H500 & _).
  destruct (H500 res ltac:(vm_compute; discriminate))
    as (change & Hc & Hr & Hs & _ & He).
  split_and!; [exact Hr|exact Hs|].
  fold m in He. rewrite He.
  vm_compute in Hc. injection Hc as <-. reflexivity.
Defined.

(** C2 with a listener that throws: the classification fails.
    [emit("request:success")] sits inside the [try], so the exception of
    a [request:success] listener enters the [catch] block.  For a response
    with status 200 the breaker is then told of a success and of a
    failure, [request:failure] is emitted after [request:success], and the
    caller gets the listener's exception instead of the response. *)
Lemma C2_outcome_classification_counterexample :
  let throwing := fun (_ : list Effect) (e : Event) =>
    match e with
    | RequestSuccess _ _ _ _ _ => Some (PlainError "listener failed")
    | _ => None
    end in
  let c := on throwing scenario_in_transport in
  let res := mkResponse 200 [] "ok" in
  let m := request_completed (ctx_of "svc" "r1") 1000 (inr res)
             1010 1012 1013 1014 in
  (0 < Limiter.inFlight (limiter c))%Z /\
  eval m c = inl (PlainError "listener failed") /\
  signals (since c (exec m c)) = [SignalSuccess; SignalFailure] /\
  events (since c (exec m c))
    = [RequestSuccess "svc" "r1" (get_req "svc") 200 12;
       RequestFailure "svc" "r1" (get_req "svc") (PlainError "listener failed") 14].
Proof.
  intros throwing c res m. split_and!; vm_compute; reflexivity.
Qed.

(** C1 (fails on the code).  A HALF_OPEN probe that [allow] admitted and
    [acquire] then rejected with [QueueFullError] is not released.  In the
    scenario, r1 and r2 are admitted on the fast path; before r3 the bucket
    of ["svc"] is OPEN with [halfOpenInFlight = 0]; segment 1 of r3 is
    allowed as the HALF_OPEN probe and its [acquire] is rejected with
    [QueueFullError(0)]; after the rejection the bucket is HALF_OPEN with
    [halfOpenInFlight = 1] and neither [onSuccess] nor [onFailure] was
    called; and once the limiter is idle again every later request to
    ["svc"] is rejected with [CircuitOpenError("svc", 0)]. *)
Theorem C1_probe_reservation_leak :
  new (fun u => Some u) scenario_options = inr scenario_client /\
  eval (request_begin (get_req "svc") "r1" 1000) scenario_client
    = inr (ctx_of "svc" "r1", Limiter.Resolved) /\
  eval (request_begin (get_req "other") "r2" 1020) scenario_opened
    = inr (ctx_of "other" "r2", Limiter.Resolved) /\
  Breaker.state <$> Breaker.peek (breaker scenario_before_probe) "svc"
    = Some Breaker.OPEN /\
  Breaker.halfOpenInFlight <$> Breaker.peek (breaker scenario_before_probe) "svc"
    = Some 0%Z /\
  eval (request_begin (get_req "svc") "r3" 1200) scenario_before_probe
    = inr (ctx_of "svc" "r3", Limiter.Rejected (QueueFullError 0)) /\
  eval (request_acquired (ctx_of "svc" "r3") (Some (QueueFullError 0)) 1200)
       (exec (request_begin (get_req "svc") "r3" 1200) scenario_before_probe)
    = inl (QueueFullError 0) /\
  Breaker.state <$> Breaker.peek (breaker scenario_probe_rejected) "svc"
    = Some Breaker.HALF_OPEN /\
  Breaker.halfOpenInFlight <$> Breaker.peek (breaker scenario_probe_rejected) "svc"
    = Some 1%Z /\
  signals (since scenario_before_probe scenario_probe_rejected) = [] /\
  Limiter.inFlight (limiter scenario_idle) = 0%Z /\
  (forall nowMs requestId,
     eval (request_begin (get_req "svc") requestId nowMs) scenario_idle
     = inl (CircuitOpenError "svc" 0)).
Proof.
  split_and!; [..|intros nowMs requestId]; vm_compute; reflexivity.
Qed.

End ClientFacts.

(** ** Limiter: accounting, bookkeeping and round trips *)

Section LimiterAuditFacts.
Import Errors Limiter LimiterAudit.

Ltac settle_proj :=
  repeat match goal with
  | |- context [maxInFlight (settle ?p ?s ?l)] =>
      rewrite (proj1 (settle_frame p s l))
  | |- context [maxQueue (settle ?p ?s ?l)] =>
      rewrite (proj1 (proj2 (settle_frame p s l)))
  | |- context [enqueueTimeoutMs (settle ?p ?s ?l)] =>
      rewrite (proj1 (proj2 (proj2 (settle_frame p s l))))
  | |- context [inFlight (settle ?p ?s ?l)] =>
      rewrite (proj1 (proj2 (proj2 (proj2 (settle_frame p s l)))))
  | |- context [queue (settle ?p ?s ?l)] =>
      rewrite (proj1 (proj2 (proj2 (proj2 (proj2 (settle_frame p s l))))))
  | |- context [timers (settle ?p ?s ?l)] =>
      rewrite (proj1 (proj2 (proj2 (proj2 (proj2 (proj2 (settle_frame p s l)))))))
  | |- context [fresh (settle ?p ?s ?l)] =>
      rewrite (proj2 (proj2 (proj2 (proj2 (proj2 (proj2 (settle_frame p s l)))))))
  end.

(** One operation moves [inFlight] by what it grants minus what it takes
    back. *)
Lemma inFlight_step (l : t) (op : Op) :
  inFlight (step l op) = (inFlight l + granted_by l op - returned_by l op)%Z.
Proof.
  destruct op as [| |h]; simpl.
  - destruct (acquire_cases l) as [[H ->]|[(H & H' & ->)|(H & H0 & Hl & Hf & Hi & _)]];
      simpl; [lia|lia|]. rewrite Hi, Hf. lia.
  - destruct (Z.le_gt_cases (inFlight l) 0) as [H|H].
    { rewrite release_throws by done. simpl. lia. }
    destruct (queue l) as [|next rest] eqn:Hql.
    + rewrite release_decrements by done. simpl. lia.
    + rewrite (release_hands_off l next rest) by done. simpl.
      settle_proj. simpl. lia.
  - unfold timer_fires. destruct (timers l !! h) as [e|]; [|lia].
    unfold on_timeout. simpl.
    destruct (list_find _ (queue l)) as [[i w]|]; settle_proj; simpl; lia.
Qed.

Lemma inFlight_run (l : t) (ops : list Op) :
  inFlight (run l ops) = (inFlight l + granted l ops - returned l ops)%Z.
Proof.
  revert l. induction ops as [|op ops IH]; intros l; [simpl; lia|].
  rewrite run_cons, IH, inFlight_step. cbn [granted returned]. lia.
Qed.

Lemma elem_of_delete_other {A} (q : list A) (i : nat) (w w' : A) :
  q !! i = Some w -> w' ∈ q -> w' <> w -> w' ∈ delete i q.
Proof.
  intros Hi Hin Hne. rewrite delete_take_drop.
  rewrite <- (take_drop_middle q i w Hi) in Hin.
  apply elem_of_app in Hin as [Hin|Hin]; apply elem_of_app; [by left|].
  apply elem_of_cons in Hin as [->|Hin]; [done|by right].
Qed.

(** Every operation keeps the books. *)
Lemma books_inv_step (l : t) (op : Op) :
  queue_inv l -> books_inv l -> books_inv (step l op).
Proof.
  intros (Hnd & Hw & Hp & Ht) (Hnn & Harmed & Hpend).
  unfold books_inv, queued in *.
  destruct op as [| |h]; simpl.
  - destruct (acquire_cases l) as [[H ->]|[(H & H' & ->)|(H & H0 & Hl & _)]]; simpl.
    + split_and!; [lia|done|done].
    + done.
    + rewrite acquire_enqueue by done. simpl. split_and!; [done| |].
      * intros h e He. destruct (decide (h = fresh l)) as [->|Hne].
        -- eexists. split; [apply elem_of_app; right; by apply elem_of_cons; left|done].
        -- rewrite lookup_insert_ne in He by done.
           destruct (Harmed h e He) as (w & Hin & Htm).
           exists w. split; [apply elem_of_app; by left|done].
      * intros p Hpr. rewrite fmap_app. apply elem_of_app.
        destruct (decide (p = fresh l)) as [->|Hne].
        -- right. simpl. apply elem_of_cons. by left.
        -- rewrite lookup_insert_ne in Hpr by done. left. by apply Hpend.
  - destruct (Z.le_gt_cases (inFlight l) 0) as [H|H].
    { by rewrite release_throws. }
    destruct (queue l) as [|next rest] eqn:Hql.
    + rewrite release_decrements by done. simpl. rewrite Hql.
      split_and!; [lia|done|done].
    + rewrite (release_hands_off l next rest) by done. simpl.
      destruct (Hw next) as (Hlt & Hrj & Htm & Hpr & Harm);
        [apply elem_of_cons; by left|].
      rewrite settle_unsettled by done. settle_proj. simpl.
      split_and!; [done| |].
      * intros h e He. apply lookup_delete_Some in He as [Hne He].
        destruct (Harmed h e He) as (w & Hin & Htw).
        apply elem_of_cons in Hin as [->|Hin]; [done|]. eauto.
      * intros p Hpp. destruct (decide (p = resolve next)) as [->|Hne].
        -- by rewrite lookup_insert_eq in Hpp.
        -- rewrite lookup_insert_ne in Hpp by done.
           specialize (Hpend p Hpp). simpl in Hpend.
           apply elem_of_cons in Hpend as [->|Hin]; done.
  - unfold timer_fires. destruct (timers l !! h) as [e|] eqn:He; [|done].
    pose proof (Ht h e He) as Hcap. rewrite Hcap.
    destruct (Harmed h e He) as (w0 & Hin0 & Htw0).
    destruct (Hw w0 Hin0) as (_ & _ & Htm0 & _).
    unfold on_timeout. simpl.
    destruct (list_find_elem_of (fun x => resolve x = h) (queue l) w0 Hin0
                ltac:(congruence)) as [[i w] Hfind].
    rewrite Hfind. apply list_find_Some in Hfind as (Hi & Hres & _).
    destruct (Hw w) as (Hlt & Hrj & Htm & Hpr & Harm);
      [by eapply list_elem_of_lookup_2|].
    rewrite settle_unsettled by (simpl; by rewrite <- Hres).
    settle_proj. simpl. split_and!; [done| |].
    + intros h' e' He'.
      apply lookup_delete_Some in He' as [Hne1 He'].
      apply lookup_delete_Some in He' as [Hne2 He'].
      destruct (Harmed h' e' He') as (w' & Hin' & Htw').
      exists w'. split; [|done].
      apply (elem_of_delete_other _ _ w); [done..|]. intros ->. congruence.
    + intros p Hpp. destruct (decide (p = h)) as [->|Hne].
      * by rewrite lookup_insert_eq in Hpp.
      * rewrite lookup_insert_ne in Hpp by done.
        specialize (Hpend p Hpp).
        apply list_elem_of_fmap in Hpend as (w' & -> & Hin').
        apply list_elem_of_fmap. exists w'. split; [done|].
        apply (elem_of_delete_other _ _ w); [done..|]. intros ->. congruence.
Qed.

Lemma reachable_step (l : t) (op : Op) :
  reachable_inv l -> reachable_inv (step l op).
Proof.
  intros (Hc & Hcap & Hq & Hb). split_and!.
  - by apply step_configured.
  - by apply capacity_step.
  - by apply queue_inv_step.
  - by apply books_inv_step.
Qed.

Lemma reachable_run (l : t) (ops : list Op) :
  reachable_inv l -> reachable_inv (run l ops).
Proof.
  revert l. induction ops as [|op ops IH]; intros l H; [done|].
  rewrite run_cons. by apply IH, reachable_step.
Qed.

Lemma reachable_new (o : Options) (l0 : t) :
  new o = inr l0 -> reachable_inv l0.
Proof.
  intros H. split_and!.
  - by eapply new_configured.
  - by eapply new_capacity.
  - by eapply new_queue_inv.
  - destruct (new_fields o l0 H) as (Hi & Hq & Ht & Hp).
    unfold books_inv. rewrite Hi, Ht, Hp. split_and!; [lia| |].
    + intros h e He. by rewrite lookup_empty in He.
    + intros p Hpp. by rewrite lookup_empty in Hpp.
Qed.

(** X1. Permit conservation: on every run from a constructed limiter,
    [inFlight] is the number of permits handed out (fast-path acquires and
    hand-offs) minus the number of releases that did not throw; that
    difference is never negative and stays below [maxInFlight + 1], hence
    within [0 .. maxInFlight] when [maxInFlight] is an integer. *)
Theorem limiter_permit_conservation (o : Options) (l0 : t) (ops : list Op) :
  new o = inr l0 ->
  inFlight (run l0 ops) = (granted l0 ops - returned l0 ops)%Z /\
  (0 <= granted l0 ops - returned l0 ops)%Z /\
  (Js.num (granted l0 ops - returned l0 ops) < opt_maxInFlight o + 1)%Q /\
  (Js.is_integer (opt_maxInFlight o) = true ->
     (Js.num (granted l0 ops - returned l0 ops) <= opt_maxInFlight o)%Q).
Proof.
  intros Hnew.
  destruct (new_fields o l0 Hnew) as (Hi & _).
  destruct (new_config o l0 Hnew) as (Hmax & _).
  pose proof (inFlight_run l0 ops) as Hrun. rewrite Hi in Hrun.
  destruct (reachable_run l0 ops (reachable_new o l0 Hnew))
    as (_ & (Hle & _) & _ & (Hnn & _)).
  destruct (run_config l0 ops) as (Hc & _). rewrite Hc, Hmax in Hle.
  replace (granted l0 ops - returned l0 ops)%Z with (inFlight (run l0 ops))
    by lia.
  split_and!; [lia|done|by apply le_ceiling_lt_succ|].
  intros Hint%is_integer_ceiling. rewrite <- Hint.
  unfold Js.num. by rewrite <- Zle_Qle.
Qed.

Lemma limiter_permit_conservation_witness :
  let l0 := mk 2 1 50 0 [] ∅ ∅ 0 in
  let ops := [OpAcquire; OpAcquire; OpAcquire; OpRelease; OpRelease; OpRelease;
              OpRelease] in
  inFlight (run l0 ops) = 0%Z /\ granted l0 ops = 3%Z /\ returned l0 ops = 3%Z.
Proof.
  intros l0 ops.
  destruct (limiter_permit_conservation (mkOptions 2 1 50) l0 ops eq_refl)
    as [Hin _].
  split_and!; [|reflexivity|reflexivity].
  rewrite Hin. reflexivity.
Defined.

(** X2. The books are exact: in every reachable state a timer is armed
    exactly for the queued waiters, a promise is unsettled exactly when its
    waiter is queued, and the callback of every armed timer finds its
    waiter in the queue (the [idx >= 0] test of the callback never fails). *)
Theorem limiter_books_exact (o : Options) (l0 : t) (ops : list Op) :
  new o = inr l0 ->
  let l := run l0 ops in
  (forall h, is_Some (timers l !! h) <-> exists w, w ∈ queue l /\ timer w = h) /\
  (forall p, promises l !! p = Some Unsettled <-> p ∈ queued l) /\
  (forall h e, timers l !! h = Some e ->
     delay e = opt_enqueueTimeoutMs o /\
     exists i w, list_find (fun w => resolve w = captured_resolve e) (queue l)
                 = Some (i, w) /\ timer w = h).
Proof.
  intros Hnew l.
  destruct (reachable_run l0 ops (reachable_new o l0 Hnew))
    as (_ & _ & (Hnd & Hw & Hp & Ht) & (_ & Harmed & Hpend)).
  fold l in Hnd, Hw, Hp, Ht, Harmed, Hpend.
  destruct (run_config l0 ops) as (_ & _ & Hto). fold l in Hto.
  destruct (new_config o l0 Hnew) as (_ & _ & Hto0).
  split_and!.
  - intros h. split.
    + intros [e He]. by eapply Harmed.
    + intros (w & Hin & <-). destruct (Hw w Hin) as (_ & _ & _ & _ & Harm). eauto.
  - intros p. split; [apply Hpend|].
    intros Hin. apply list_elem_of_fmap in Hin as (w & -> & Hin).
    by destruct (Hw w Hin) as (_ & _ & _ & Hpr & _).
  - intros h e He. destruct (Harmed h e He) as (w0 & Hin0 & Htw0).
    destruct (Hw w0 Hin0) as (_ & Hrj0 & Htm0 & _ & Harm0).
    rewrite Htw0, He in Harm0. injection Harm0 as ->. simpl.
    split; [congruence|].
    destruct (list_find_elem_of (fun x => resolve x = resolve w0) (queue l) w0 Hin0
                eq_refl) as [[i w] Hfind].
    exists i, w. split; [done|].
    apply list_find_Some in Hfind as (Hi & Hres & _).
    destruct (Hw w) as (_ & _ & Htm & _); [by eapply list_elem_of_lookup_2|].
    congruence.
Qed.

Lemma limiter_books_exact_witness :
  let l := run (mk 1 5 50 0 [] ∅ ∅ 0)
               [OpAcquire; OpAcquire; OpAcquire; OpTimerFires 0; OpRelease] in
  queued l = [] /\ ~ is_Some (timers l !! 1) /\ promises l !! 1 <> Some Unsettled.
Proof.
  intros l.
  destruct (limiter_books_exact (mkOptions 1 5 50) (mk 1 5 50 0 [] ∅ ∅ 0)
              [OpAcquire; OpAcquire; OpAcquire; OpTimerFires 0; OpRelease] eq_refl)
    as (Harmed & Hpend & _).
  fold l in Harmed, Hpend.
  assert (Hq : queue l = []) by reflexivity.
  split_and!.
  - reflexivity.
  - intros Hs. apply Harmed in Hs as (w & Hin & _).
    rewrite Hq in Hin. by apply elem_of_nil in Hin.
  - intros Hu. apply Hpend in Hu. unfold queued in Hu.
    rewrite Hq in Hu. by apply elem_of_nil in Hu.
Defined.

Lemma promises_step_settled (l : t) (op : Op) (p : nat) (s : PromiseState) :
  queue_inv l -> promises l !! p = Some s -> s <> Unsettled ->
  promises (step l op) !! p = Some s.
Proof.
  intros (Hnd & Hw & Hp & Ht) Hps Hs.
  destruct op as [| |h]; simpl.
  - destruct (acquire_cases l) as [[H ->]|[(H & H' & ->)|(H & H0 & Hl & _)]];
      simpl; [done|done|].
    rewrite acquire_enqueue by done. simpl.
    rewrite lookup_insert_ne; [done|].
    assert (p < fresh l) by (apply Hp; eauto). lia.
  - destruct (Z.le_gt_cases (inFlight l) 0) as [H|H].
    { by rewrite release_throws. }
    destruct (queue l) as [|next rest] eqn:Hql.
    + by rewrite release_decrements.
    + rewrite (release_hands_off l next rest) by done. simpl.
      by apply settle_keeps_settled.
  - unfold timer_fires. destruct (timers l !! h) as [e|]; [|done].
    unfold on_timeout. simpl.
    destruct (list_find _ (queue l)) as [[i w]|]; by apply settle_keeps_settled.
Qed.

(** X3. Promises settle once: a waiter's promise that has been fulfilled or
    rejected keeps that outcome under every later operation. *)
Theorem limiter_settled_is_final
    (o : Options) (l0 : t) (ops later : list Op) (p : nat) (s : PromiseState) :
  new o = inr l0 ->
  promises (run l0 ops) !! p = Some s -> s <> Unsettled ->
  promises (run (run l0 ops) later) !! p = Some s.
Proof.
  intros Hnew.
  assert (Hinv : queue_inv (run l0 ops))
    by (apply queue_inv_run; by eapply new_queue_inv).
  generalize dependent (run l0 ops). intros l Hinv Hps Hs.
  revert l Hinv Hps. induction later as [|op later IH]; intros l Hinv Hps; [done|].
  rewrite run_cons. apply IH; [by apply queue_inv_step|].
  by apply promises_step_settled.
Qed.

Lemma limiter_settled_is_final_witness :
  let l0 := mk 1 5 50 0 [] ∅ ∅ 0 in
  promises (run (run l0 [OpAcquire; OpAcquire; OpTimerFires 0])
                [OpRelease; OpAcquire; OpAcquire; OpRelease; OpTimerFires 0]) !! 0
  = Some (RejectedWith (QueueTimeoutError 50)).
Proof.
  intros l0.
  apply (limiter_settled_is_final (mkOptions 1 5 50) l0
           [OpAcquire; OpAcquire; OpTimerFires 0]
           [OpRelease; OpAcquire; OpAcquire; OpRelease; OpTimerFires 0] 0
           (RejectedWith (QueueTimeoutError 50)) eq_refl);
    [reflexivity|discriminate].
Defined.

Lemma set_inFlight_back (l : t) (n m : Z) :
  n = inFlight l -> set_inFlight n (set_inFlight m l) = l.
Proof. intros ->. by destruct l. Qed.

Lemma release_after_fast_acquire (l l' : t) :
  capacity_inv l -> (0 <= inFlight l)%Z ->
  acquire l = (Resolved, l') -> release l' = (None, l).
Proof.
  intros (Hle & Hq & Hne) Hnn Hacq.
  destruct (acquire_cases l) as [[H He]|[(H & H' & He)|(H & H0 & Hl & Hf & _)]].
  - rewrite He in Hacq. injection Hacq as <-.
    assert (Hqe : queue l = []).
    { destruct (queue l) eqn:E; [done|]. rewrite Hne in H; [lia|done]. }
    rewrite release_decrements by (simpl; (lia || done)).
    f_equal. apply set_inFlight_back. simpl. lia.
  - rewrite He in Hacq. discriminate Hacq.
  - rewrite Hacq in Hf. discriminate Hf.
Qed.

(** X4. Acquire and release are inverse on the fast path: in every
    reachable state, releasing right after a fast-path [acquire] restores
    the state exactly, and a fast-path [acquire] right after a [release]
    that found no waiter does too. *)
Theorem limiter_acquire_release_round_trip (o : Options) (l0 : t) (ops : list Op) :
  new o = inr l0 ->
  let l := run l0 ops in
  (forall l', acquire l = (Resolved, l') -> release l' = (None, l)) /\
  (forall l', release l = (None, l') -> queue l = [] ->
     acquire l' = (Resolved, l)).
Proof.
  intros Hnew l.
  destruct (reachable_run l0 ops (reachable_new o l0 Hnew))
    as (_ & (Hle & Hq & Hne) & _ & (Hnn & _)).
  fold l in Hle, Hq, Hne, Hnn.
  split.
  - intros l' Hacq. by apply release_after_fast_acquire.
  - intros l' Hrel Hqe.
    destruct (Z.le_gt_cases (inFlight l) 0) as [H|H].
    { rewrite release_throws in Hrel by done. discriminate Hrel. }
    rewrite release_decrements in Hrel by done. injection Hrel as <-.
    rewrite acquire_fast by (simpl; lia).
    f_equal. apply set_inFlight_back. simpl. lia.
Qed.

Lemma limiter_acquire_release_round_trip_witness :
  let l := run (mk 2 5 50 0 [] ∅ ∅ 0) [OpAcquire] in
  release (snd (acquire l)) = (None, l) /\
  acquire (snd (release l)) = (Resolved, l).
Proof.
  intros l.
  destruct (limiter_acquire_release_round_trip (mkOptions 2 5 50)
              (mk 2 5 50 0 [] ∅ ∅ 0) [OpAcquire] eq_refl) as [H1 H2].
  split.
  - apply H1. reflexivity.
  - apply H2; reflexivity.
Defined.

(** X5. With [maxQueue = 0] the queue is disabled: no waiter, timer or
    promise is ever created, and every [acquire] settles at once, resolved
    when a permit is free ([inFlight < maxInFlight]) and rejected with
    [QueueFullError(maxQueue)], that is [QueueFullError(0)], when none
    is. *)
Theorem limiter_queue_disabled (o : Options) (l0 : t) (ops : list Op) :
  new o = inr l0 -> (opt_maxQueue o == 0)%Q ->
  let l := run l0 ops in
  queue l = [] /\ timers l = ∅ /\ promises l = ∅ /\
  ((Js.num (inFlight l) < opt_maxInFlight o)%Q -> fst (acquire l) = Resolved) /\
  ((opt_maxInFlight o <= Js.num (inFlight l))%Q ->
     acquire l = (Rejected (QueueFullError (opt_maxQueue o)), l)).
Proof.
  intros Hnew Hq0 l.
  destruct (new_config o l0 Hnew) as (Hmax0 & Hmq0 & _).
  destruct (run_config l0 ops) as (Hmax & Hmq & _). fold l in Hmax, Hmq.
  rewrite Hmax0 in Hmax. rewrite Hmq0 in Hmq.
  assert (Hp0 : forall q : Q, (q == 0)%Q -> permits q = 0%Z).
  { intros q Hq. unfold permits. rewrite Hq. apply (Qceiling_Z 0). }
  assert (Hinv : queue l = [] /\ timers l = ∅ /\ promises l = ∅).
  { unfold l. clear Hmax Hmq l.
    assert (H0 : permits (maxQueue l0) = 0%Z) by (apply Hp0; by rewrite Hmq0).
    destruct (new_fields o l0 Hnew) as (_ & Hq & Ht & Hp).
    clear Hnew Hmax0 Hmq0 Hq0.
    revert l0 H0 Hq Ht Hp.
    induction ops as [|op ops IH]; intros l0 H0 Hq Ht Hp; [done|].
    rewrite run_cons.
    assert (Hstep : permits (maxQueue (step l0 op)) = 0%Z /\
                    queue (step l0 op) = [] /\
                    timers (step l0 op) = ∅ /\ promises (step l0 op) = ∅).
    { destruct (step_config l0 op) as (_ & Hc & _). rewrite Hc.
      split; [done|]. destruct op as [| |h]; simpl.
      - destruct (acquire_cases l0)
          as [[H ->]|[(H & H' & ->)|(H & Hne & _)]]; simpl; done.
      - unfold release. rewrite Hq. by destruct (inFlight l0 <=? 0)%Z.
      - unfold timer_fires. by rewrite Ht, lookup_empty. }
    destruct Hstep as (? & ? & ? & ?). by apply IH. }
  destruct Hinv as (Hq & Ht & Hp). split_and!; [done..| |].
  - intros Hlt. rewrite <- Hmax in Hlt. by rewrite acquire_fast_test.
  - intros Hge. rewrite <- Hmax in Hge. rewrite <- Hmq.
    apply acquire_full_test; [done|]. left. by rewrite Hmq.
Qed.

Lemma limiter_queue_disabled_witness :
  let l := run (mk 1 0 50 0 [] ∅ ∅ 0) [OpAcquire; OpAcquire; OpTimerFires 0] in
  queue l = [] /\ acquire l = (Rejected (QueueFullError 0), l).
Proof.
  intros l.
  destruct (limiter_queue_disabled (mkOptions 1 0 50) (mk 1 0 50 0 [] ∅ ∅ 0)
              [OpAcquire; OpAcquire; OpTimerFires 0] eq_refl
              ltac:(reflexivity))
    as (Hq & _ & _ & _ & Hfull).
  split; [exact Hq|]. apply Hfull. vm_compute. discriminate.
Defined.

(** X6. No barging: while any waiter is queued, an [acquire] never takes the
    fast path; it is either rejected with [QueueFullError] or enqueued
    behind every waiter already there. *)
Theorem limiter_no_barging (o : Options) (l0 : t) (ops : list Op) :
  new o = inr l0 ->
  let l := run l0 ops in
  queue l <> [] ->
  (acquire l = (Rejected (QueueFullError (opt_maxQueue o)), l)) \/
  (exists p w, fst (acquire l) = Pending p /\ resolve w = p /\
     queue (snd (acquire l)) = queue l ++ [w] /\
     inFlight (snd (acquire l)) = inFlight l).
Proof.
  intros Hnew l Hne.
  destruct (reachable_run l0 ops (reachable_new o l0 Hnew))
    as (_ & (Hle & Hq & Hfull) & _).
  fold l in Hle, Hq, Hfull. specialize (Hfull Hne).
  destruct (new_config o l0 Hnew) as (_ & Hmq0 & _).
  destruct (run_config l0 ops) as (_ & Hmq & _). fold l in Hmq.
  destruct (acquire_cases l) as [[H He]|[(H & H' & He)|(H & H0 & Hl & Hf & Hi & Hq')]].
  - lia.
  - left. by rewrite He, Hmq, Hmq0.
  - right. eexists _, _. split; [exact Hf|]. split; [|split; [exact Hq'|exact Hi]].
    done.
Qed.

Lemma limiter_no_barging_witness :
  let l := run (mk 1 5 50 0 [] ∅ ∅ 0) [OpAcquire; OpAcquire] in
  fst (acquire l) <> Resolved.
Proof.
  intros l.
  destruct (limiter_no_barging (mkOptions 1 5 50) (mk 1 5 50 0 [] ∅ ∅ 0)
              [OpAcquire; OpAcquire] eq_refl ltac:(vm_compute; discriminate))
    as [Hrej|(p & w & Hf & _)]; fold l in Hrej || fold l in Hf.
  - rewrite Hrej. discriminate.
  - rewrite Hf. discriminate.
Defined.

End LimiterAuditFacts.
(** ** Circuit breaker: keys, runs and reports *)

Section BreakerAuditFacts.
Import Errors Breaker BreakerAudit.

Lemma brun_cons (br : t) (op : Op) (ops : list Op) :
  run br (op :: ops) = run (step br op) ops.
Proof. done. Qed.

Lemma brun_snoc (br : t) (ops : list Op) (op : Op) :
  run br (ops ++ [op]) = step (run br ops) op.
Proof. unfold run. by rewrite fold_left_app. Qed.

Lemma peek_step (br : t) (op : Op) (k : string) :
  peek (step br op) k =
    if decide (op_key op = k)
    then (fun b => step_bucket (opts br) b op) <$> peek br k
    else peek br k.
Proof.
  destruct op as [key now|key|key now]; simpl;
    rewrite ?peek_allow, ?peek_onSuccess, ?peek_onFailure;
    (case_decide as Hk; [subst k; by destruct (peek br key)|]);
    by destruct (peek br key).
Qed.

Lemma peek_step_Some (br : t) (op : Op) (b : BreakerBucket) :
  peek br (op_key op) = Some b ->
  peek (step br op) (op_key op) = Some (step_bucket (opts br) b op).
Proof. intros H. by rewrite peek_step, decide_True, H. Qed.

Lemma peek_run_filter (br br' : t) (ops : list Op) (k : string) :
  opts br = opts br' -> peek br k = peek br' k ->
  peek (run br ops) k = peek (run br' (filter (fun op => op_key op = k) ops)) k.
Proof.
  revert br br'. induction ops as [|op ops IH]; intros br br' Ho Hp; [done|].
  rewrite brun_cons. destruct (decide (op_key op = k)) as [Hk|Hk].
  - rewrite filter_cons_True by done. rewrite brun_cons.
    apply IH; [by rewrite !step_opts|].
    rewrite !peek_step. rewrite !decide_True by done. by rewrite Ho, Hp.
  - rewrite filter_cons_False by done.
    apply IH; [by rewrite step_opts|].
    rewrite peek_step. by rewrite decide_False.
Qed.

(** X7. Keys are independent: after any run of calls, the bucket of a key
    is what the calls on that key alone would have produced. *)
Theorem breaker_keys_independent (br : t) (ops : list Op) (k : string) :
  peek (run br ops) k = peek (run br (filter (fun op => op_key op = k) ops)) k.
Proof. by apply peek_run_filter. Qed.

(** Reading the clock before [t0 + cooldownMs] is having less than the
    cooldown elapsed since [t0]. *)
Lemma before_deadline (nowMs t0 : Z) (c : Q) :
  (Js.num nowMs < Js.num t0 + c)%Q <-> (Js.num (nowMs - t0) < c)%Q.
Proof.
  unfold Js.num, Z.sub. rewrite inject_Z_plus, inject_Z_opp. split; intros; lra.
Qed.

Lemma bucket_step_open (o : BreakerOptions) (b : BreakerBucket) (op : Op)
    (t0 : Z) :
  state b = OPEN -> openedAtMs b = Some t0 ->
  allow_before (op_key op) (Js.num t0 + cooldownMs o) op ->
  step_bucket o b op = b.
Proof.
  intros Hst Hat Hop. destruct op as [k now|k|k now]; simpl in *.
  - unfold allow_bucket. rewrite Hst, Hat. simpl.
    specialize (Hop eq_refl). apply before_deadline, cooldown_test in Hop.
    by rewrite Hop.
  - unfold onSuccess_bucket. by rewrite Hst.
  - unfold onFailure_bucket. by rewrite Hst.
Qed.

Lemma peek_run_open (br : t) (key : string) (t0 : Z) (d : Q) (ops : list Op)
    (b : BreakerBucket) :
  peek br key = Some b ->
  state b = OPEN -> openedAtMs b = Some t0 ->
  d = (Js.num t0 + cooldownMs (opts br))%Q ->
  Forall (allow_before key d) ops ->
  peek (run br ops) key = Some b.
Proof.
  revert br. induction ops as [|op ops IH]; intros br Hpk Hst Hat Hd Hops; [done|].
  apply Forall_cons in Hops as [Hop Hops]. rewrite brun_cons.
  assert (Hsame : peek (step br op) key = Some b).
  { rewrite peek_step. case_decide as Hk; [|done]. rewrite Hpk. simpl. f_equal.
    apply (bucket_step_open _ _ _ t0); [done|done|]. by rewrite Hk, <- Hd. }
  apply IH; [done|done|done|by rewrite step_opts|done].
Qed.

Lemma allow_open_denies (br : t) (key : string) (t0 nowMs : Z) (b : BreakerBucket) :
  peek br key = Some b ->
  state b = OPEN -> openedAtMs b = Some t0 ->
  (Js.num nowMs < Js.num t0 + cooldownMs (opts br))%Q ->
  allow br key nowMs
  = (inr (mkDecision false OPEN
            (Some (cooldownMs (opts br) - Js.num (nowMs - t0))%Q)), br).
Proof.
  intros Hpk Hst Hat Hnow. rewrite (allow_Some br key nowMs b Hpk).
  unfold allow_bucket. rewrite Hst, Hat. simpl.
  apply before_deadline, cooldown_test in Hnow. rewrite Hnow. simpl.
  f_equal. apply store_back; [done|]. by rewrite Hst.
Qed.

(** With a positive probe count, a denied [allow] changes nothing. *)
Lemma allow_denied_unchanged (br : t) (key : string) (nowMs : Z)
    (d : BreakerDecision) :
  (0 < halfOpenProbeCount (opts br))%Q ->
  fst (allow br key nowMs) = inr d -> allowed d = false ->
  snd (allow br key nowMs) = br.
Proof.
  intros Hp%probes_pos.
  destruct (peek br key) as [b|] eqn:Hpk.
  2: { destruct (allow_None br key nowMs Hpk) as [e ->]. done. }
  rewrite (allow_Some br key nowMs b Hpk). simpl. intros [= <-].
  unfold allow_bucket.
  destruct (state b) eqn:Hst; simpl; rewrite ?Hst; simpl.
  - discriminate.
  - destruct (Js.ltb 0 _); simpl.
    + intros _. apply store_back; [done|]. by rewrite Hst.
    + rewrite probe_test.
      destruct (Z.leb_spec (probes (opts br)) 0); [lia|]. simpl.
      discriminate.
  - destruct (Js.leb _ _); simpl; [|discriminate].
    intros _. apply store_back; [done|]. by rewrite Hst.
Qed.

(** X8. OPEN holds for the whole cooldown: once a bucket is OPEN since
    [t0], no run of calls whose [allow]s on that key read a clock before
    [t0 + cooldownMs] changes the bucket (results reported meanwhile are
    ignored), and every such [allow] is denied with the time that is
    left. *)
Theorem breaker_open_until_cooldown
    (br : t) (key : string) (t0 : Z) (ops : list Op) (nowMs : Z)
    (b : BreakerBucket) :
  peek br key = Some b ->
  state b = OPEN ->
  openedAtMs b = Some t0 ->
  Forall (allow_before key (Js.num t0 + cooldownMs (opts br))) ops ->
  (Js.num nowMs < Js.num t0 + cooldownMs (opts br))%Q ->
  peek (run br ops) key = Some b /\
  fst (allow (run br ops) key nowMs)
    = inr (mkDecision false OPEN
             (Some (cooldownMs (opts br) - Js.num (nowMs - t0))%Q)) /\
  snd (allow (run br ops) key nowMs) = run br ops.
Proof.
  intros Hpk Hst Hat Hops Hnow.
  pose proof (peek_run_open br key t0 _ ops b Hpk Hst Hat eq_refl Hops) as Hpeek.
  split; [done|].
  rewrite (allow_open_denies (run br ops) key t0 nowMs b);
    rewrite ?run_opts; done.
Qed.

Lemma breaker_open_until_cooldown_witness :
  let br := run (mk (mkOptions 5 1 1 100 2) ∅) [OpOnFailure "svc" 1000] in
  let ops := [OpAllow "svc" 1050; OpOnSuccess "svc"; OpOnFailure "svc" 1200;
              OpAllow "other" 5000; OpAllow "svc" 1099] in
  peek (run br ops) "svc" = peek br "svc" /\
  fst (allow (run br ops) "svc" 1070)
    = inr (mkDecision false OPEN (Some (100 - Js.num (1070 - 1000))%Q)).
Proof.
  intros br ops.
  destruct (breaker_open_until_cooldown br "svc" 1000 ops 1070
              (mkBucket OPEN (Some 1000%Z) 0
                 (RollingWindow.push (RollingWindow.make 5) RollingWindow.One) 0 0)
              eq_refl eq_refl eq_refl)
    as (H1 & H2 & _).
  - repeat constructor; simpl; intros; first [reflexivity | discriminate | done].
  - vm_compute. reflexivity.
  - split; [exact H1|exact H2].
Defined.

(** A push moves the count up by at most one, never down, never past the
    size. *)
Lemma count_push (w : RollingWindow.t) (v : RollingWindow.Bit01) :
  RollingWindow.wf w ->
  RollingWindow.count w <= RollingWindow.count (RollingWindow.push w v)
    <= RollingWindow.count w + 1 /\
  RollingWindow.count (RollingWindow.push w v) <= RollingWindow.size w.
Proof.
  intros (Hs & Hl & Hi). unfold RollingWindow.count, RollingWindow.push; simpl.
  destruct (decide (RollingWindow.idx w + 1 < RollingWindow.size w)) as [Hlt|Hge].
  - rewrite Nat.mod_small by lia.
    destruct (Nat.eqb_spec (RollingWindow.idx w + 1) 0); [lia|].
    destruct (RollingWindow.filled w); lia.
  - assert (RollingWindow.idx w + 1 = RollingWindow.size w) as -> by lia.
    rewrite Nat.Div0.mod_same. simpl.
    destruct (RollingWindow.filled w); lia.
Qed.

Lemma step_bucket_window_inv (o : BreakerOptions) (b : BreakerBucket) (op : Op) :
  window_inv o b -> window_inv o (step_bucket o b op).
Proof.
  intros [Hwf Hsz]. unfold window_inv.
  destruct op as [k now|k|k now]; simpl.
  - by rewrite allow_bucket_window.
  - unfold onSuccess_bucket. destruct (state b); simpl.
    + split; [by apply wf_push|done].
    + done.
    + destruct (Js.leb _ _); simpl; [|done].
      split; [by apply wf_reset|done].
  - unfold onFailure_bucket. destruct (state b); simpl.
    + destruct (_ && _); simpl; (split; [by apply wf_push|done]).
    + done.
    + done.
Qed.

Lemma fresh_window_inv (o : BreakerOptions) (w : RollingWindow.t) :
  RollingWindow.new (windowSize o) = inr w -> window_inv o (fresh_bucket w).
Proof.
  intros Hw. destruct (new_inr _ _ Hw) as (N & HN & -> & _).
  split; [by apply wf_make|done].
Qed.

Lemma windows_inv_run (o : BreakerOptions) (br0 : t) (ops : list Op) (key : string)
    (b : BreakerBucket) :
  new o = inr br0 -> peek (run br0 ops) key = Some b -> window_inv o b.
Proof.
  intros Hnew. pose proof (new_valid o br0 Hnew) as (-> & _).
  revert b. induction ops as [|op ops IH] using rev_ind; intros b.
  - unfold peek, bucket; simpl. rewrite lookup_empty.
    destruct (RollingWindow.new (windowSize o)) as [e|w] eqn:Hw; simpl; [done|].
    intros [= <-]. by apply fresh_window_inv.
  - rewrite brun_snoc, peek_step, run_opts. simpl.
    case_decide as Hk; [|apply IH].
    destruct (peek (run (mk o ∅) ops) key) as [b0|]; simpl; [|done].
    intros [= <-]. apply step_bucket_window_inv. by apply IH.
Qed.

Lemma outcomes_for_cons (key : string) (op : Op) (ops : list Op) :
  outcomes_for key (op :: ops) =
    (if decide (op_key op = key) then (if is_outcome op then 1 else 0) else 0)
    + outcomes_for key ops.
Proof.
  unfold outcomes_for. rewrite filter_cons.
  destruct (decide (op_key op = key)) as [Hk|Hk], (is_outcome op) eqn:Ho;
    case_decide as Hd; simpl; try done; destruct Hd; done.
Qed.

Lemma len_lt (n m : nat) (q : Q) :
  n <= m -> (Js.len m < q)%Q -> (Js.len n < q)%Q.
Proof.
  intros Hle Hlt. eapply Qle_lt_trans; [|exact Hlt].
  unfold Js.len. rewrite <- Zle_Qle. lia.
Qed.

Lemma closed_while_few (br : t) (key : string) (ops : list Op) (b : BreakerBucket) :
  peek br key = Some b ->
  window_inv (opts br) b ->
  state b = CLOSED ->
  (Js.len (RollingWindow.count (window b) + outcomes_for key ops)
   < minRequests (opts br))%Q ->
  exists b', peek (run br ops) key = Some b' /\ state b' = CLOSED.
Proof.
  revert br b. induction ops as [|op ops IH]; intros br b Hpk Hw Hst Hlt; [eauto|].
  rewrite brun_cons. rewrite outcomes_for_cons in Hlt.
  pose proof Hw as [Hwf Hsz].
  destruct (decide (op_key op = key)) as [Hk|Hk].
  - assert (Hpk' : peek (step br op) key = Some (step_bucket (opts br) b op)).
    { rewrite <- Hk. apply peek_step_Some. by rewrite Hk. }
    apply (IH _ _ Hpk'); rewrite ?step_opts.
    + by apply step_bucket_window_inv.
    + destruct op as [k now|k|k now]; simpl in *.
      * unfold allow_bucket. rewrite Hst. simpl. by rewrite Hst.
      * unfold onSuccess_bucket. by rewrite Hst.
      * unfold onFailure_bucket. rewrite Hst. simpl.
        pose proof (count_push (window b) RollingWindow.One Hwf)
          as [[_ Hc] _].
        destruct (Js.leb (minRequests (opts br)) _) eqn:E; [|done].
        apply leb_le in E. exfalso. apply (Qlt_not_le _ _ Hlt).
        eapply Qle_trans; [exact E|]. unfold Js.len. rewrite <- Zle_Qle. lia.
    + destruct op as [k now|k|k now]; simpl in *.
      * unfold allow_bucket. rewrite Hst. simpl. by rewrite Hst.
      * unfold onSuccess_bucket. rewrite Hst. simpl.
        pose proof (count_push (window b) RollingWindow.Zero Hwf)
          as [[_ Hc] _]. eapply len_lt; [|exact Hlt]. lia.
      * unfold onFailure_bucket. rewrite Hst. simpl.
        pose proof (count_push (window b) RollingWindow.One Hwf)
          as [[_ Hc] _].
        destruct (_ && _); simpl; (eapply len_lt; [|exact Hlt]); lia.
  - assert (Hpk' : peek (step br op) key = Some b).
    { by rewrite peek_step, decide_False. }
    simpl in Hlt.
    apply (IH _ _ Hpk'); rewrite ?step_opts; done.
Qed.

(** X9. The [minRequests] guard: on a new breaker whose window size is an
    array length, a key on which fewer than [minRequests] results have
    been reported is CLOSED, whatever the results were and whatever
    happened on other keys. *)
Theorem breaker_closed_below_min_requests
    (o : BreakerOptions) (br0 : t) (ops : list Op) (key : string)
    (w0 : RollingWindow.t) :
  new o = inr br0 ->
  RollingWindow.new (windowSize o) = inr w0 ->
  (Js.len (outcomes_for key ops) < minRequests o)%Q ->
  state <$> peek (run br0 ops) key = Some CLOSED /\
  fst (allow (run br0 ops) key 0) = inr (mkDecision true CLOSED None).
Proof.
  intros Hnew Hw0 Hlt.
  pose proof (new_valid o br0 Hnew) as (Hbr & _).
  assert (Hpk0 : peek br0 key = Some (fresh_bucket w0)).
  { subst br0. apply peek_fresh; [apply lookup_empty|done]. }
  assert (Hst : exists b', peek (run br0 ops) key = Some b' /\ state b' = CLOSED).
  { apply (closed_while_few br0 key ops (fresh_bucket w0) Hpk0).
    - subst br0. by apply fresh_window_inv.
    - done.
    - subst br0. simpl.
      destruct (new_inr _ _ Hw0) as (N & _ & -> & _). exact Hlt. }
  destruct Hst as (b' & Hpk & Hst). rewrite Hpk. split; [by rewrite <- Hst|].
  rewrite (allow_Some _ key 0 b' Hpk). simpl. unfold allow_bucket.
  rewrite Hst. simpl. by rewrite Hst.
Qed.

Lemma breaker_closed_below_min_requests_witness :
  let br0 := mk (mkOptions 10 4 (1 # 2) 1000 2) ∅ in
  state <$> peek (run br0 [OpOnFailure "svc" 1; OpOnFailure "svc" 2;
                           OpOnFailure "other" 3; OpOnFailure "svc" 4]) "svc"
  = Some CLOSED.
Proof.
  intros br0.
  apply (breaker_closed_below_min_requests (mkOptions 10 4 (1 # 2) 1000 2) br0
           [OpOnFailure "svc" 1; OpOnFailure "svc" 2;
            OpOnFailure "other" 3; OpOnFailure "svc" 4] "svc"
           (RollingWindow.make 10) eq_refl eq_refl).
  vm_compute. reflexivity.
Defined.

(** X10. Closing starts over: whenever [onSuccess] reports a change, the
    bucket was HALF_OPEN and the bucket it leaves is exactly the bucket of
    a key never seen before (CLOSED, counters zero, window of the
    configured size and empty). *)
Theorem breaker_close_restores_initial_bucket
    (o : BreakerOptions) (br0 : t) (ops : list Op) (key : string)
    (change : Change) :
  new o = inr br0 ->
  let br := run br0 ops in
  fst (onSuccess br key) = inr change ->
  changed change = true ->
  exists b w0,
    peek br key = Some b /\ state b = HALF_OPEN /\
    RollingWindow.new (windowSize o) = inr w0 /\
    peek (snd (onSuccess br key)) key = Some (fresh_bucket w0) /\
    RollingWindow.count w0 = 0 /\ RollingWindow.failures w0 = 0.
Proof.
  intros Hnew br Hfst Hch.
  assert (Ho : opts br = o).
  { unfold br. rewrite run_opts. by apply new_valid in Hnew as (-> & _). }
  destruct (peek br key) as [b|] eqn:Hpk.
  2: { destruct (onSuccess_None br key Hpk) as [e He].
       rewrite He in Hfst. discriminate Hfst. }
  pose proof (windows_inv_run o br0 ops key b Hnew Hpk) as [Hwf Hsz].
  rewrite (onSuccess_Some br key b Hpk) in Hfst |- *. simpl in Hfst |- *.
  rewrite peek_store, decide_True by done.
  injection Hfst as <-.
  unfold onSuccess_bucket in Hch |- *.
  destruct (state b) eqn:Hst; simpl in Hch; try discriminate Hch.
  destruct (Js.leb _ _); simpl in Hch |- *; [|discriminate Hch].
  exists b, (RollingWindow.make (RollingWindow.size (window b))).
  split_and!; try done.
  unfold toClosed, fresh_bucket. simpl. by rewrite reset_is_make.
Qed.

Lemma breaker_close_restores_initial_bucket_witness :
  let o := mkOptions 5 1 1 50 2 in
  let br := run (mk o ∅) [OpOnFailure "svc" 1000; OpAllow "svc" 1060;
                          OpAllow "svc" 1061; OpOnSuccess "svc"] in
  peek (snd (onSuccess br "svc")) "svc"
    = Some (fresh_bucket (RollingWindow.make 5)).
Proof.
  intros o br.
  destruct (breaker_close_restores_initial_bucket o (mk o ∅)
              [OpOnFailure "svc" 1000; OpAllow "svc" 1060;
               OpAllow "svc" 1061; OpOnSuccess "svc"] "svc"
              (mkChange true (Some HALF_OPEN) (Some CLOSED)) eq_refl eq_refl eq_refl)
    as (b & w0 & _ & _ & Hw0 & H & _).
  injection Hw0 as <-. exact H.
Defined.

(** X11. The change report is truthful: for [onSuccess] and [onFailure]
    alike on a key that has a bucket or can get one, [changed] is true
    exactly when the state of the bucket after the call differs from the
    state before it; then [from] and [to] are those two states, and
    otherwise both are absent. *)
Theorem breaker_change_report_truthful
    (br : t) (key : string) (nowMs : Z) (b : BreakerBucket) :
  peek br key = Some b ->
  let before := state b in
  let report (r : (Error + Change) * t) :=
    exists change b',
      fst r = inr change /\ peek (snd r) key = Some b' /\
      (changed change = true <-> state b' <> before) /\
      (changed change = true ->
         from change = Some before /\ to change = Some (state b')) /\
      (changed change = false -> from change = None /\ to change = None) in
  report (onSuccess br key) /\ report (onFailure br key nowMs).
Proof.
  intros Hpk before report. unfold report, before.
  rewrite (onSuccess_Some br key b Hpk), (onFailure_Some br key nowMs b Hpk).
  simpl. rewrite !peek_store, !decide_True by done.
  split; eexists _, _; (split; [reflexivity|]); (split; [reflexivity|]).
  - unfold onSuccess_bucket.
    destruct (state b) eqn:Hst; simpl; rewrite ?Hst.
    + repeat split; intros; congruence.
    + repeat split; intros; congruence.
    + destruct (Js.leb _ _); simpl; rewrite ?Hst; repeat split; intros; congruence.
  - unfold onFailure_bucket.
    destruct (state b) eqn:Hst; simpl; rewrite ?Hst.
    + destruct (_ && _); simpl; rewrite ?Hst; repeat split; intros; congruence.
    + repeat split; intros; congruence.
    + repeat split; intros; congruence.
Qed.

(** X12. The decision is consistent with the bucket: the state in the
    decision is the state the call leaves the bucket in; a denial always
    carries [retryAfterMs], positive when the bucket stays OPEN and zero
    when HALF_OPEN is saturated; an allowance carries none and never leaves
    the bucket OPEN. *)
Theorem breaker_decision_consistent
    (br : t) (key : string) (nowMs : Z) (b : BreakerBucket) :
  peek br key = Some b ->
  exists d b',
    fst (allow br key nowMs) = inr d /\
    peek (snd (allow br key nowMs)) key = Some b' /\
    decided_in d = state b' /\
    (allowed d = false ->
       (state b' = OPEN /\ exists r, retryAfterMs d = Some r /\ (0 < r)%Q) \/
       (state b' = HALF_OPEN /\ retryAfterMs d = Some 0%Q /\
        (halfOpenProbeCount (opts br) <= Js.num (halfOpenInFlight b'))%Q)) /\
    (allowed d = true -> retryAfterMs d = None /\ state b' <> OPEN).
Proof.
  intros Hpk.
  rewrite (allow_Some br key nowMs b Hpk). simpl.
  rewrite peek_store, decide_True by done.
  eexists _, _. split; [reflexivity|]. split; [reflexivity|].
  unfold allow_bucket.
  destruct (state b) eqn:Hst; simpl; rewrite ?Hst; simpl.
  - rewrite Hst. repeat split; intros; congruence.
  - destruct (Js.ltb 0 _) eqn:E; simpl.
    + rewrite Hst. split; [done|]. split; [|intros; congruence].
      intros _. left. split; [done|]. apply ltb_lt in E. eauto.
    + destruct (Js.leb (halfOpenProbeCount (opts br)) (Js.num 0)) eqn:E0; simpl.
      * split; [done|]. split; [|intros; congruence].
        intros _. right. apply leb_le in E0. split_and!; done.
      * split; [done|]. split; [intros; congruence|]. by intros _.
  - destruct (Js.leb (halfOpenProbeCount (opts br)) (Js.num (halfOpenInFlight b)))
      eqn:E; simpl; rewrite ?Hst.
    + split; [done|]. split; [|intros; congruence].
      intros _. right. apply leb_le in E. split_and!; done.
    + split; [done|]. split; [intros; congruence|]. by intros _.
Qed.

Lemma breaker_change_report_truthful_witness :
  let br := run (mk (mkOptions 5 1 1 50 2) ∅) [OpOnFailure "svc" 1000] in
  fst (onFailure br "svc" 1001) = inr (mkChange false None None).
Proof.
  intros br.
  destruct (breaker_change_report_truthful br "svc" 1001
              (mkBucket OPEN (Some 1000%Z) 0
                 (RollingWindow.push (RollingWindow.make 5) RollingWindow.One) 0 0)
              eq_refl)
    as (_ & change & b' & Hf & Hb' & Hiff & _ & Hnone).
  rewrite Hf. f_equal.
  vm_compute in Hb'. injection Hb' as <-.
  assert (Hc : changed change = false).
  { destruct (changed change) eqn:E; [|done].
    exfalso. by apply (proj1 Hiff). }
  destruct (Hnone Hc) as [Hfrom Hto].
  destruct change as [ch fr to']. simpl in *. by subst.
Defined.

Lemma breaker_decision_consistent_witness :
  let br := run (mk (mkOptions 5 1 1 50 1) ∅)
                [OpOnFailure "svc" 1000; OpAllow "svc" 1060] in
  exists d, fst (allow br "svc" 1061) = inr d /\ retryAfterMs d = Some 0%Q.
Proof.
  intros br.
  destruct (breaker_decision_consistent br "svc" 1061
              (mkBucket HALF_OPEN None 1
                 (RollingWindow.push (RollingWindow.make 5) RollingWindow.One) 0 0)
              eq_refl)
    as (d & b' & Hd & Hb' & _ & Hdeny & _).
  exists d. split; [exact Hd|].
  vm_compute in Hd. injection Hd as <-.
  destruct (Hdeny eq_refl) as [(Hst & _)|(_ & Hr & _)]; [|exact Hr].
  vm_compute in Hb'. injection Hb' as <-. discriminate Hst.
Defined.

Lemma dom_bucket (br : t) (key : string) (w0 : RollingWindow.t) :
  RollingWindow.new (windowSize (opts br)) = inr w0 ->
  dom (buckets (snd (bucket br key))) = {[key]} ∪ dom (buckets br).
Proof.
  intros Hw. unfold bucket. destruct (buckets br !! key) as [b|] eqn:Hb; simpl.
  - apply (elem_of_dom_2 (D := gset string)) in Hb.
    symmetry. apply subseteq_union_1_L. by apply singleton_subseteq_l.
  - rewrite Hw. simpl. by rewrite dom_insert_L.
Qed.

Lemma peek_is_Some (br : t) (key : string) (w0 : RollingWindow.t) :
  RollingWindow.new (windowSize (opts br)) = inr w0 -> is_Some (peek br key).
Proof.
  intros Hw. unfold peek, bucket.
  destruct (buckets br !! key); [eauto|]. rewrite Hw. eauto.
Qed.

Lemma dom_step (br : t) (op : Op) (w0 : RollingWindow.t) :
  RollingWindow.new (windowSize (opts br)) = inr w0 ->
  dom (buckets (step br op)) = {[op_key op]} ∪ dom (buckets br).
Proof.
  intros Hw.
  destruct (peek_is_Some br (op_key op) w0 Hw) as [b Hb].
  destruct op as [k now|k|k now]; simpl in *;
    rewrite ?(allow_Some _ _ _ _ Hb), ?(onSuccess_Some _ _ _ Hb),
      ?(onFailure_Some _ _ _ _ Hb); simpl;
    by rewrite dom_insert_L.
Qed.

Lemma dom_run (br : t) (ops : list Op) (w0 : RollingWindow.t) :
  RollingWindow.new (windowSize (opts br)) = inr w0 ->
  dom (buckets (run br ops)) = dom (buckets br) ∪ list_to_set (op_key <$> ops).
Proof.
  revert br. induction ops as [|op ops IH]; intros br Hw.
  - simpl. by rewrite (right_id_L ∅ (∪)).
  - rewrite brun_cons, IH by (by rewrite step_opts).
    rewrite (dom_step br op w0 Hw), fmap_cons. simpl.
    rewrite (comm_L (∪) {[op_key op]} (dom (buckets br))).
    by rewrite (assoc_L (∪)).
Qed.

(** X13. Buckets are created on first reference and never evicted: on a
    breaker whose window size is an array length, after any run of calls
    the registered keys are the keys registered before plus every key a
    call named.  The accessor [state(key)] registers its key as well; it
    answers CLOSED for a key never seen, and apart from the registration it
    is invisible: every key denotes the same bucket after the call as
    before, and a key already registered leaves the breaker untouched. *)
Theorem breaker_buckets_lazy_and_kept
    (br : t) (ops : list Op) (key : string) (w0 : RollingWindow.t) :
  RollingWindow.new (windowSize (opts br)) = inr w0 ->
  dom (buckets (run br ops)) = dom (buckets br) ∪ list_to_set (op_key <$> ops) /\
  inr <$> (state <$> peek br key) = Some (fst (state_call br key)) /\
  dom (buckets (snd (state_call br key))) = {[key]} ∪ dom (buckets br) /\
  (forall k, peek (snd (state_call br key)) k = peek br k) /\
  (buckets br !! key = None -> fst (state_call br key) = inr CLOSED) /\
  (is_Some (buckets br !! key) -> snd (state_call br key) = br).
Proof.
  intros Hw.
  destruct (peek_is_Some br key w0 Hw) as [b Hb].
  assert (Hcall : state_call br key = (inr (state b), store br key b)).
  { unfold state_call. by rewrite (bucket_Some br key b Hb). }
  rewrite Hcall, Hb. simpl. split_and!.
  - by apply (dom_run br ops w0).
  - done.
  - by rewrite dom_insert_L.
  - intros k. rewrite peek_store. case_decide; by subst.
  - intros Hnone. rewrite (peek_fresh br key w0 Hnone Hw) in Hb.
    by injection Hb as <-.
  - intros [b0 Hb0]. apply store_registered.
    rewrite (peek_registered br key b0 Hb0) in Hb. congruence.
Qed.

Lemma breaker_buckets_lazy_and_kept_witness :
  let br := mk (mkOptions 5 1 1 50 1) ∅ in
  fst (state_call br "svc") = inr CLOSED /\
  snd (state_call (snd (state_call br "svc")) "svc") = snd (state_call br "svc").
Proof.
  intros br.
  destruct (breaker_buckets_lazy_and_kept br [] "svc" (RollingWindow.make 5) eq_refl)
    as (_ & _ & _ & _ & Hn & _).
  destruct (breaker_buckets_lazy_and_kept (snd (state_call br "svc")) [] "svc"
              (RollingWindow.make 5) eq_refl)
    as (_ & _ & _ & _ & _ & Hs).
  split; [apply Hn; reflexivity|apply Hs].
  vm_compute. eauto.
Defined.

Lemma run_unbuildable (br : t) (ops : list Op) (e : Error) :
  RollingWindow.new (windowSize (opts br)) = inl e ->
  buckets br = ∅ ->
  run br ops = br.
Proof.
  intros Hw Hb. induction ops as [|op ops IH] using rev_ind; [done|].
  rewrite brun_snoc, IH.
  assert (Hk : bucket br (op_key op) = (inl e, br)).
  { unfold bucket. by rewrite Hb, lookup_empty, Hw. }
  destruct op; simpl in *; unfold allow, onSuccess, onFailure, on_bucket;
    by rewrite Hk.
Qed.

(** X25. A window size that is not an array length: the constructor of the
    breaker accepts any positive finite [windowSize], but a window is built
    by [new Array(size)] on the first reference to a key, which throws a
    [RangeError] unless [size] is an integer below 2^32.  So on a breaker
    constructed with such a size (1.5, say) every [allow], [onSuccess],
    [onFailure] and [state], on every key and after any calls, throws that
    [RangeError] and leaves the breaker as constructed, without a single
    bucket. *)
Theorem breaker_unbuildable_window_throws
    (o : BreakerOptions) (br0 : t) (ops : list Op) (key : string) (nowMs : Z) :
  new o = inr br0 ->
  Js.array_length (windowSize o) = None ->
  let br := run br0 ops in
  let e := RangeError "Invalid array length" in
  br = br0 /\ buckets br = ∅ /\
  allow br key nowMs = (inl e, br) /\
  onSuccess br key = (inl e, br) /\
  onFailure br key nowMs = (inl e, br) /\
  state_call br key = (inl e, br).
Proof.
  intros Hnew Hlen br e.
  assert (Hpos : Js.leb (windowSize o) 0 = false).
  { unfold new in Hnew. by destruct (Js.leb (windowSize o) 0). }
  pose proof (new_valid o br0 Hnew) as (Hbr & _).
  assert (Hw : RollingWindow.new (windowSize (opts br0)) = inl e).
  { subst br0. simpl. unfold RollingWindow.new. by rewrite Hpos, Hlen. }
  assert (Hb0 : buckets br0 = ∅) by (by subst br0).
  assert (Hrun : br = br0) by (by apply (run_unbuildable br0 ops e)).
  rewrite Hrun.
  assert (Hk : bucket br0 key = (inl e, br0)).
  { unfold bucket. by rewrite Hb0, lookup_empty, Hw. }
  unfold allow, onSuccess, onFailure, state_call, on_bucket. rewrite Hk.
  by split_and!.
Qed.

Lemma breaker_unbuildable_window_throws_witness :
  let br0 := mk (mkOptions (3 # 2) 1 1 50 1) ∅ in
  allow (run br0 [OpOnFailure "svc" 1; OpAllow "other" 2]) "svc" 3
  = (inl (RangeError "Invalid array length"), br0).
Proof.
  intros br0.
  destruct (breaker_unbuildable_window_throws (mkOptions (3 # 2) 1 1 50 1) br0
              [OpOnFailure "svc" 1; OpAllow "other" 2] "svc" 3 eq_refl eq_refl)
    as (Hrun & _ & Ha & _).
  rewrite Ha. by f_equal.
Defined.

End BreakerAuditFacts.

(** ** Rolling window: bounds and forgetting *)

Section WindowAuditFacts.
Import Errors RollingWindow.

Lemma push_all_snoc (w : t) (xs : list Bit01) (v : Bit01) :
  push_all w (xs ++ [v]) = push (push_all w xs) v.
Proof. unfold push_all. by rewrite fold_left_app. Qed.

Lemma bits_push_all (w : t) (xs : list Bit01) :
  Forall (fun x => x <= 1) (buf w) ->
  Forall (fun x => x <= 1) (buf (push_all w xs)).
Proof.
  induction xs as [|x xs IH] using rev_ind; intros Hw; [done|].
  rewrite push_all_snoc. simpl. apply Forall_insert; [by apply IH|].
  destruct x; simpl; lia.
Qed.

(** X14. The ring never grows: after any pushes into a constructed window
    of size [N] the buffer still has [N] slots, each 0 or 1, the write
    index is below [N], and one more push moves the count up by at most
    one, never down and never past [N]; a window that has filled stays
    filled. *)
Theorem window_ring_bounded (sz : Q) (xs : list Bit01) (v : Bit01) (w0 : t) :
  new sz = inr w0 ->
  let N := size w0 in
  let w := push_all w0 xs in
  (Js.len N == sz)%Q /\
  length (buf w) = N /\
  idx w < N /\
  Forall (fun x => x <= 1) (buf w) /\
  count w <= count (push w v) <= count w + 1 /\
  count (push w v) <= N /\
  (filled w = true -> filled (push w v) = true).
Proof.
  intros Hnew. apply new_inr in Hnew as (N & HN & -> & Hsz0). simpl.
  set (w := push_all (make N) xs).
  pose proof (wf_push_all (make N) xs (wf_make N HN)) as Hwf. fold w in Hwf.
  assert (Hsz : size w = N) by (unfold w; by rewrite size_push_all).
  destruct (count_push w v Hwf) as [Hc Hle].
  destruct Hwf as (_ & Hlen & Hidx).
  split_and!; try lia; try done.
  - apply bits_push_all. simpl. apply Forall_replicate. lia.
  - intros Hf. simpl. rewrite Hf. by destruct (_ =? 0).
Qed.

Lemma window_ring_bounded_witness :
  let w := push_all (make 2) [One; One; Zero] in
  length (buf w) = 2 /\ count (push w One) <= 2.
Proof.
  intros w.
  destruct (window_ring_bounded 2 [One; One; Zero] One (make 2) eq_refl)
    as (_ & Hl & _ & _ & _ & Hc & _).
  split; [exact Hl|exact Hc].
Defined.

Lemma last_n_app_r {A} (n : nat) (xs ys : list A) :
  n <= length ys -> last_n n (xs ++ ys) = last_n n ys.
Proof.
  intros Hn. unfold last_n. rewrite length_app.
  replace (length xs + length ys - n) with (length xs + (length ys - n)) by lia.
  apply drop_app_add.
Qed.

(** X15. The window forgets: once at least [N] outcomes have been pushed
    since some point, what was pushed before that point no longer shows in
    [count], [failures] or [failureRate]. *)
Theorem window_forgets_old (sz : Q) (xs ys : list Bit01) (w0 : t) :
  new sz = inr w0 -> (sz <= Js.len (length ys))%Q ->
  count (push_all w0 (xs ++ ys)) = count (push_all w0 ys) /\
  failures (push_all w0 (xs ++ ys)) = failures (push_all w0 ys) /\
  failureRate (push_all w0 (xs ++ ys)) = failureRate (push_all w0 ys).
Proof.
  intros Hnew Hlen. apply new_inr in Hnew as (N & HN & -> & Hsz).
  assert (Hle : N <= length ys).
  { rewrite <- Hsz in Hlen. unfold Js.len in Hlen. rewrite <- Zle_Qle in Hlen. lia. }
  clear Hlen Hsz.
  pose proof (tracks_push_all (make N) [] (xs ++ ys) (tracks_make N HN)) as H1.
  pose proof (tracks_push_all (make N) [] ys (tracks_make N HN)) as H2.
  simpl in H1, H2.
  assert (Hc : count (push_all (make N) (xs ++ ys)) = count (push_all (make N) ys)).
  { rewrite (count_tracks _ _ H1), (count_tracks _ _ H2), !size_push_all.
    simpl. rewrite length_app. lia. }
  assert (Hf : failures (push_all (make N) (xs ++ ys))
               = failures (push_all (make N) ys)).
  { rewrite (failures_tracks _ _ H1), (failures_tracks _ _ H2), !size_push_all.
    simpl. rewrite length_app.
    rewrite !Nat.min_l by lia. by rewrite last_n_app_r. }
  split_and!; [done|done|]. unfold failureRate. by rewrite Hc, Hf.
Qed.

Lemma window_forgets_old_witness :
  failures (push_all (make 3) ([One; One; One; One] ++ [Zero; Zero; Zero])) = 0.
Proof.
  destruct (window_forgets_old 3 [One; One; One; One] [Zero; Zero; Zero] (make 3)
              eq_refl ltac:(vm_compute; discriminate)) as (_ & Hf & _).
  rewrite Hf. reflexivity.
Defined.

End WindowAuditFacts.

(** ** Transport adapter *)

Section HttpFacts.
Import Errors Http.
Variable toLowerCase : string -> string.

Lemma normalize_snoc (entries : list (string * HeaderValue)) (kv : string * HeaderValue) :
  normalizeHeaders toLowerCase (Some (entries ++ [kv]))
  = assign (toLowerCase (fst kv)) (render (snd kv))
      (normalizeHeaders toLowerCase (Some entries)).
Proof. unfold normalizeHeaders. by rewrite fold_left_app. Qed.

Lemma assign_lookup (name value k : string) (out : gmap string string) :
  assign name value out !! k
  = if decide (name = k /\ k <> "__proto__") then Some value else out !! k.
Proof.
  unfold assign. destruct (decide (name = "__proto__")) as [Hp|Hp].
  - rewrite decide_False; [done|]. intros [<- Hk]. done.
  - destruct (decide (name = k)) as [<-|Hk].
    + rewrite decide_True by done. apply lookup_insert_eq.
    + rewrite decide_False by (by intros [? _]). by apply lookup_insert_ne.
Qed.

Lemma normalize_lookup (entries : list (string * HeaderValue)) (k : string) :
  normalizeHeaders toLowerCase (Some entries) !! k
  = if decide (k = "__proto__") then None
    else (fun kv => render (snd kv)) <$> last (named toLowerCase k entries).
Proof.
  induction entries as [|kv entries IH] using rev_ind.
  - simpl. rewrite lookup_empty. by case_decide.
  - rewrite normalize_snoc, assign_lookup. unfold named in *. rewrite filter_app.
    destruct (decide (toLowerCase (fst kv) = k)) as [Hk|Hk].
    + rewrite filter_cons_True by done. rewrite filter_nil.
      rewrite last_snoc.
      destruct (decide (k = "__proto__")) as [Hp|Hp].
      * rewrite decide_False by (by intros [_ ?]). by rewrite IH.
      * by rewrite decide_True.
    + rewrite filter_cons_False by done. rewrite filter_nil, app_nil_r.
      rewrite decide_False by (by intros [? _]). apply IH.
Qed.

(** X16. [normalizeHeaders]: the result has no property ["__proto__"]
    (assigning a string to that name of a plain object is ignored); under
    any other name the value stored is the rendered value of the last
    entry whose lower-cased name it is, so every name in the result is a
    lower-cased input name, a later entry overrides an earlier one that
    differs in case only, an entry whose lower-cased name is
    ["__proto__"] changes nothing, an array of values is joined with
    [", "], and absent headers give the empty object. *)
Theorem normalizeHeaders_lookup (entries : list (string * HeaderValue)) (k : string) :
  normalizeHeaders toLowerCase None = ∅ /\
  normalizeHeaders toLowerCase (Some entries) !! "__proto__" = None /\
  (k <> "__proto__" ->
   normalizeHeaders toLowerCase (Some entries) !! k
     = (fun kv => render (snd kv)) <$> last (named toLowerCase k entries)) /\
  (is_Some (normalizeHeaders toLowerCase (Some entries) !! k) <->
     k <> "__proto__" /\ exists kv, kv ∈ entries /\ k = toLowerCase (fst kv)) /\
  (forall name v,
     toLowerCase name <> "__proto__" ->
     normalizeHeaders toLowerCase (Some (entries ++ [(name, v)])) !! toLowerCase name
     = Some (render v)) /\
  (forall name v,
     toLowerCase name = "__proto__" ->
     normalizeHeaders toLowerCase (Some (entries ++ [(name, v)]))
     = normalizeHeaders toLowerCase (Some entries)) /\
  (forall a b rest,
     render (HArray (a :: b :: rest))
     = (a +:+ ", " +:+ render (HArray (b :: rest)))%string).
Proof.
  split_and!.
  - done.
  - rewrite normalize_lookup. by rewrite decide_True.
  - intros Hk. rewrite normalize_lookup. by rewrite decide_False.
  - rewrite normalize_lookup.
    destruct (decide (k = "__proto__")) as [Hp|Hp].
    { split; [by intros [? ?]|by intros [? _]]. }
    rewrite fmap_is_Some. split.
    + intros [kv Hl]. split; [done|]. exists kv. apply last_Some in Hl as [l' Hl].
      assert (Hin : kv ∈ named toLowerCase k entries).
      { rewrite Hl. apply elem_of_app. right. by apply elem_of_cons; left. }
      unfold named in Hin. apply list_elem_of_filter in Hin as [Hk Hin]. done.
    + intros (_ & kv & Hin & ->).
      assert (Hin' : kv ∈ named toLowerCase (toLowerCase (fst kv)) entries).
      { unfold named. by apply list_elem_of_filter. }
      destruct (named toLowerCase (toLowerCase (fst kv)) entries) as [|x l] eqn:E
        using rev_ind; [by apply elem_of_nil in Hin'|].
      rewrite last_snoc. eauto.
  - intros name v Hn. rewrite normalize_snoc, assign_lookup. simpl.
    by rewrite decide_True.
  - intros name v Hn. rewrite normalize_snoc. simpl. unfold assign.
    by rewrite decide_True.
  - done.
Qed.

(** X17. [doHttpRequest] surfaces a response exactly when the exchange
    completed, with the status and body it got and the headers normalised;
    an error named ["AbortError"], whether from the request or from reading
    the body, always surfaces as [RequestTimeoutError] carrying the
    deadline it was called with, and no error named ["AbortError"] ever
    surfaces as a transport error. *)
Theorem doHttpRequest_outcomes (x : Exchange) (requestTimeoutMs : Q) :
  (forall r, doHttpRequest toLowerCase x requestTimeoutMs = inr r <->
     exists statusCode hs b,
       x = Completed statusCode hs b /\
       r = mkHttpResponse statusCode (normalizeHeaders toLowerCase hs) b) /\
  (forall e, doHttpRequest toLowerCase x requestTimeoutMs = inl e ->
     (e = RequestTimeoutError requestTimeoutMs /\
      (x = RequestThrew "AbortError" \/
       exists s hs, x = BodyThrew s hs "AbortError")) \/
     (exists name, e = TransportError name /\ name <> "AbortError" /\
        (x = RequestThrew name \/ exists s hs, x = BodyThrew s hs name))).
Proof.
  split.
  - intros r. split.
    + destruct x; simpl; intros H; try discriminate H.
      injection H as <-. eauto.
    + intros (s & hs & b & -> & ->). done.
  - intros e. destruct x as [name|s hs name|s hs b]; simpl; intros H;
      try discriminate H; injection H as <-; unfold on_catch;
      destruct (decide (name = "AbortError")) as [->|Hne]; eauto 10.
Qed.

End HttpFacts.

Lemma normalizeHeaders_lookup_witness :
  Http.normalizeHeaders Http.ascii_lower
    (Some [("Content-Type", Http.HString "text/plain");
           ("Set-Cookie", Http.HArray ["a=1"; "b=2"]);
           ("content-type", Http.HString "text/html")]) !! "content-type"
  = Some "text/html" /\
  is_Some (Http.normalizeHeaders Http.ascii_lower
             (Some [("Set-Cookie", Http.HArray ["a=1"; "b=2"])]) !! "set-cookie") /\
  Http.normalizeHeaders Http.ascii_lower
    (Some ([("Set-Cookie", Http.HArray ["a=1"; "b=2"])]
           ++ [("__PROTO__", Http.HString "x")]))
  = Http.normalizeHeaders Http.ascii_lower
      (Some [("Set-Cookie", Http.HArray ["a=1"; "b=2"])]).
Proof.
  destruct (normalizeHeaders_lookup Http.ascii_lower
              [("Content-Type", Http.HString "text/plain");
               ("Set-Cookie", Http.HArray ["a=1"; "b=2"])] "")
    as (_ & _ & _ & _ & Hlast & _).
  destruct (normalizeHeaders_lookup Http.ascii_lower
              [("Set-Cookie", Http.HArray ["a=1"; "b=2"])] "set-cookie")
    as (_ & _ & _ & Hsome & _ & Hproto & _).
  split_and!.
  - apply (Hlast "content-type" (Http.HString "text/html")).
    vm_compute. discriminate.
  - apply Hsome. split; [vm_compute; discriminate|].
    eexists. split; [apply elem_of_cons; by left|reflexivity].
  - apply (Hproto "__PROTO__" (Http.HString "x")). reflexivity.
Defined.

Lemma doHttpRequest_outcomes_witness :
  Http.doHttpRequest Http.ascii_lower (Http.BodyThrew 200 None "AbortError") 500
  = inl (Errors.RequestTimeoutError 500).
Proof.
  destruct (Http.doHttpRequest Http.ascii_lower
              (Http.BodyThrew 200 None "AbortError") 500) as [e|r] eqn:E.
  - destruct (proj2 (doHttpRequest_outcomes Http.ascii_lower
                       (Http.BodyThrew 200 None "AbortError") 500) e E)
      as [[-> _]|(name & -> & Hne & [Hx|(s & hs & Hx)])].
    + reflexivity.
    + discriminate Hx.
    + injection Hx as _ _ <-. done.
  - vm_compute in E. discriminate E.
Defined.
(** ** Request pipeline: whole requests *)

Section PipelineFacts.
Import Errors Client Pipeline.

Lemma transports_app (es1 es2 : list Effect) :
  transports (es1 ++ es2) = transports es1 ++ transports es2.
Proof. unfold transports. apply filter_app. Qed.

Lemma transports_emits (evs : list Event) : transports (Emit <$> evs) = [].
Proof. induction evs as [|ev evs IH]; [done|]. simpl. exact IH. Qed.

Lemma since_trans (c c1 c2 : t) (es1 es2 : list Effect) :
  trace c1 = trace c ++ es1 -> trace c2 = trace c1 ++ es2 ->
  since c c2 = es1 ++ es2.
Proof.
  intros H1 H2. apply since_app. by rewrite H2, H1, <- app_assoc.
Qed.

Lemma config_quiet (c c' : t) : config c' = config c -> quiet c -> quiet c'.
Proof. intros [= _ _ Hl] Hq tr e. rewrite Hl. apply Hq. Qed.

Lemma config_keyFn (c c' : t) : config c' = config c -> keyFn c' = keyFn c.
Proof. by intros [= _ Hk _]. Qed.

Lemma config_timeout (c c' : t) :
  config c' = config c -> requestTimeoutMs c' = requestTimeoutMs c.
Proof. by intros [= Ht _ _]. Qed.

(** *** What the segments do to the breaker *)

Section Confined.
Variable key : string.
Variable deadline : Q.

Lemma confined_silent {A} (c0 : t) (m : M A) (c : t) :
  breaker (snd (m c)) = breaker c0 -> config (snd (m c)) = config c0 ->
  confined_from c0 key deadline m c.
Proof. intros Hb Hc. exists []. by split_and!. Qed.

Lemma confined_call {A} (m : M A) (c : t) (bop : Breaker.Op) :
  breaker (snd (m c)) = Breaker.step (breaker c) bop ->
  config (snd (m c)) = config c ->
  BreakerAudit.allow_before key deadline bop ->
  confined_from c key deadline m c.
Proof.
  intros Hb Hc Hop. exists [bop]. split_and!; [done| |done].
  by apply Forall_singleton.
Qed.

Lemma confined_trans {A B} (c0 : t) (m : M A) (c : t) (m' : M B) (c' : t) (r : t) :
  confined_from c0 key deadline m c ->
  snd (m c) = c' ->
  confined_from c' key deadline m' c' ->
  snd (m' c') = r ->
  exists bops,
    breaker r = Breaker.run (breaker c0) bops /\
    Forall (BreakerAudit.allow_before key deadline) bops /\
    config r = config c0.
Proof.
  intros (bops1 & Hb1 & Hf1 & Hc1) <- (bops2 & Hb2 & Hf2 & Hc2) <-.
  exists (bops1 ++ bops2). split_and!.
  - rewrite Hb2, Hb1. unfold Breaker.run. by rewrite fold_left_app.
  - by apply Forall_app.
  - by rewrite Hc2.
Qed.

Lemma confined_bind {A B} (c0 : t) (m : M A) (k : A -> M B) (c : t) :
  confined_from c0 key deadline m c ->
  (forall a, fst (m c) = inr a ->
     confined_from (snd (m c)) key deadline (k a) (snd (m c))) ->
  confined_from c0 key deadline (bind m k) c.
Proof.
  intros Hm Hk. unfold confined_from, bind.
  destruct (m c) as [[e|a] c1] eqn:E; simpl in *.
  - destruct Hm as (bops & ? & ? & ?). rewrite E in *. eauto.
  - apply (confined_trans c0 m c (k a) c1); [done|by rewrite E|by apply Hk|done].
Qed.

Lemma confined_try_catch {A} (c0 : t) (m : M A) (h : Error -> M A) (c : t) :
  confined_from c0 key deadline m c ->
  (forall e, fst (m c) = inl e ->
     confined_from (snd (m c)) key deadline (h e) (snd (m c))) ->
  confined_from c0 key deadline (try_catch m h) c.
Proof.
  intros Hm Hh. unfold confined_from, try_catch.
  destruct (m c) as [[e|a] c1] eqn:E; simpl in *.
  - apply (confined_trans c0 m c (h e) c1); [done|by rewrite E|by apply Hh|done].
  - destruct Hm as (bops & ? & ? & ?). rewrite E in *. eauto.
Qed.

Lemma confined_try_finally {A} (c0 : t) (m : M A) (f : M unit) (c : t) :
  confined_from c0 key deadline m c ->
  confined_from (snd (m c)) key deadline f (snd (m c)) ->
  confined_from c0 key deadline (try_finally m f) c.
Proof.
  intros Hm Hf.
  assert (Hs : snd (try_finally m f c) = snd (f (snd (m c)))).
  { unfold try_finally. destruct (m c) as [r c1]. simpl.
    by destruct (f c1) as [[e|u] c2]. }
  unfold confined_from. rewrite Hs.
  by apply (confined_trans c0 m c f (snd (m c))).
Qed.

Lemma confined_ret {A} (a : A) (c : t) : confined_from c key deadline (ret a) c.
Proof. by apply confined_silent. Qed.

Lemma confined_throw {A} (e : Error) (c : t) :
  confined_from c key deadline (@throw A e) c.
Proof. by apply confined_silent. Qed.

Lemma confined_get {A} (f : t -> A) (c : t) :
  confined_from c key deadline (get f) c.
Proof. by apply confined_silent. Qed.

Lemma confined_record (e : Effect) (c : t) :
  confined_from c key deadline (record_effect e) c.
Proof. by apply confined_silent. Qed.

Lemma confined_emit (e : Event) (c : t) :
  confined_from c key deadline (emit e) c.
Proof. apply confined_silent; by rewrite emit_run. Qed.

Lemma confined_emit_change (k : string) (change : Breaker.Change) (c : t) :
  confined_from c key deadline (emit_change k change) c.
Proof. apply confined_silent; by rewrite emit_change_run. Qed.

Lemma confined_release (c : t) :
  confined_from c key deadline limiter_release c.
Proof. apply confined_silent; by rewrite limiter_release_run. Qed.

Lemma confined_acquire (c : t) :
  confined_from c key deadline limiter_acquire c.
Proof. apply confined_silent; by rewrite limiter_acquire_run. Qed.

Lemma confined_timer (h : nat) (c : t) :
  confined_from c key deadline (limiter_timer_fires h) c.
Proof. by apply confined_silent. Qed.

Lemma confined_onSuccess (k : string) (c : t) :
  confined_from c key deadline (breaker_onSuccess k) c.
Proof.
  apply (confined_call _ _ (Breaker.OpOnSuccess k));
    by rewrite ?breaker_onSuccess_run.
Qed.

Lemma confined_onFailure (k : string) (nowMs : Z) (c : t) :
  confined_from c key deadline (breaker_onFailure k nowMs) c.
Proof.
  apply (confined_call _ _ (Breaker.OpOnFailure k nowMs));
    by rewrite ?breaker_onFailure_run.
Qed.

Lemma confined_allow (k : string) (nowMs : Z) (c : t) :
  (k = key -> (Js.num nowMs < deadline)%Q) ->
  confined_from c key deadline (breaker_allow k nowMs) c.
Proof.
  intros Hk. apply (confined_call _ _ (Breaker.OpAllow k nowMs));
    by rewrite ?breaker_allow_run.
Qed.

Ltac confine :=
  repeat first
    [ apply confined_ret | apply confined_throw | apply confined_get
    | apply confined_record | apply confined_emit | apply confined_emit_change
    | apply confined_release | apply confined_acquire | apply confined_timer
    | apply confined_onSuccess | apply confined_onFailure
    | apply confined_try_finally
    | apply confined_try_catch; [|intros ? _]
    | apply confined_bind; [|intros ? _] ].

Lemma confined_catch (ctx : Ctx) (start : Z) (err : Error) (nowSignal nowEnd : Z)
    (c : t) :
  confined_from c key deadline (request_catch ctx start err nowSignal nowEnd) c.
Proof. unfold request_catch. confine. Qed.

Lemma confined_try (ctx : Ctx) (start : Z) (res : ResilientResponse)
    (nowSignal nowEnd : Z) (c : t) :
  confined_from c key deadline (request_try ctx start res nowSignal nowEnd) c.
Proof. unfold request_try. destruct (500 <=? status res)%Z; confine. Qed.

Lemma confined_completed (ctx : Ctx) (start : Z)
    (result : Error + ResilientResponse) (nowSignal nowEnd nowSignal2 nowEnd2 : Z)
    (c : t) :
  confined_from c key deadline
    (request_completed ctx start result nowSignal nowEnd nowSignal2 nowEnd2) c.
Proof.
  unfold request_completed. apply confined_try_finally; [|confine].
  destruct result as [err|res]; [apply confined_catch|].
  apply confined_try_catch; [apply confined_try|intros; apply confined_catch].
Qed.

Lemma confined_acquired (ctx : Ctx) (outcome : option Error) (nowMs : Z) (c : t) :
  confined_from c key deadline (request_acquired ctx outcome nowMs) c.
Proof. unfold request_acquired. destruct outcome; confine. Qed.

Lemma confined_begin (req : ResilientRequest) (requestId : string) (nowMs : Z)
    (c : t) :
  (keyFn c req = inr key -> (Js.num nowMs < deadline)%Q) ->
  confined_from c key deadline (request_begin req requestId nowMs) c.
Proof.
  intros Hk. unfold request_begin, call_keyFn.
  apply confined_bind.
  { apply confined_bind; [confine|]. intros r _. destruct r; confine. }
  intros k Hfst.
  assert (Hkey : keyFn c req = inr k).
  { unfold bind, get, returned in Hfst.
    destruct (keyFn c req) as [e|k']; simpl in Hfst; congruence. }
  assert (Hsame : snd ((r <- get (fun c0 => keyFn c0 req) ;; returned r) c) = c).
  { unfold bind, get, returned. by destruct (keyFn c req). }
  rewrite Hsame.
  apply confined_bind.
  { apply confined_allow. intros ->. by apply Hk. }
  intros d _. destruct (negb (Breaker.allowed d)); confine.
Qed.

Lemma confined_step (c0 c : t) (op : Op) :
  config c = config c0 ->
  begins_before c0 key deadline op ->
  exists bops,
    breaker (step c op) = Breaker.run (breaker c) bops /\
    Forall (BreakerAudit.allow_before key deadline) bops /\
    config (step c op) = config c.
Proof.
  intros Hc Hop. destruct op as [req requestId nowMs|ctx outcome nowMs
                                |ctx start result s e s2 e2|h]; simpl.
  - apply confined_begin. by rewrite (config_keyFn _ _ Hc).
  - apply confined_acquired.
  - apply confined_completed.
  - apply confined_timer.
Qed.

Lemma confined_run (c0 c : t) (ops : list Op) :
  config c = config c0 ->
  Forall (begins_before c0 key deadline) ops ->
  exists bops,
    breaker (run c ops) = Breaker.run (breaker c) bops /\
    Forall (BreakerAudit.allow_before key deadline) bops /\
    config (run c ops) = config c.
Proof.
  revert c. induction ops as [|op ops IH]; intros c Hc Hops.
  { exists []. by split_and!. }
  apply Forall_cons in Hops as [Hop Hops].
  destruct (confined_step c0 c op Hc Hop) as (bops1 & Hb1 & Hf1 & Hc1).
  destruct (IH (step c op)) as (bops2 & Hb2 & Hf2 & Hc2);
    [by rewrite Hc1|done|].
  exists (bops1 ++ bops2). split_and!.
  - change (run c (op :: ops)) with (run (step c op) ops).
    rewrite Hb2, Hb1. unfold Breaker.run. by rewrite fold_left_app.
  - by apply Forall_app.
  - change (run c (op :: ops)) with (run (step c op) ops). by rewrite Hc2.
Qed.

(** When the exchange failed, the first call into the breaker is
    [onFailure(key)] with the clock [nowSignal]; whatever follows in
    segment 3 is confined. *)
Lemma confined_after_failure (ctx : Ctx) (start : Z)
    (result : Error + ResilientResponse) (nowSignal nowEnd nowSignal2 nowEnd2 : Z)
    (c : t) :
  failed result ->
  let m := request_completed ctx start result
             nowSignal nowEnd nowSignal2 nowEnd2 in
  exists bops,
    breaker (exec m c)
      = Breaker.run (snd (Breaker.onFailure (breaker c) (ctx_key ctx) nowSignal))
          bops /\
    Forall (BreakerAudit.allow_before key deadline) bops /\
    config (exec m c) = config c.
Proof.
  intros Hfail m.
  set (c1 := snd (breaker_onFailure (ctx_key ctx) nowSignal c)).
  assert (Hb1 : breaker c1
                = snd (Breaker.onFailure (breaker c) (ctx_key ctx) nowSignal)).
  { unfold c1. by rewrite breaker_onFailure_run. }
  assert (Hc1 : config c1 = config c).
  { unfold c1. by rewrite breaker_onFailure_run. }
  rewrite <- Hb1, <- Hc1.
  assert (Hfirst : confined_from c1 key deadline
                     (breaker_onFailure (ctx_key ctx) nowSignal) c).
  { by apply confined_silent. }
  change (confined_from c1 key deadline m c).
  unfold m, request_completed. apply confined_try_finally; [|confine].
  destruct result as [err|res]; simpl in Hfail.
  - unfold request_catch. apply confined_bind; [exact Hfirst|]. intros; confine.
  - apply confined_try_catch; [|intros; apply confined_catch].
    unfold request_try.
    destruct (Z.leb_spec 500 (status res)) as [_|Hlt]; [|lia].
    apply confined_bind; [|intros; confine].
    apply confined_bind; [exact Hfirst|]. intros; confine.
Qed.

End Confined.

(** No segment writes the configuration. *)
Lemma begin_config (c : t) (req : ResilientRequest) (requestId : string) (nowMs : Z) :
  config (exec (request_begin req requestId nowMs) c) = config c.
Proof.
  destruct (confined_begin "k" (Js.num nowMs + 1)%Q req requestId nowMs c)
    as (_ & _ & _ & H); [|done].
  intros _. lra.
Qed.

Lemma acquired_config (c : t) (ctx : Ctx) (outcome : option Error) (nowMs : Z) :
  config (exec (request_acquired ctx outcome nowMs) c) = config c.
Proof. by destruct (confined_acquired "k" 0 ctx outcome nowMs c) as (_ & _ & _ & H). Qed.

Lemma allow_inr_peek (br : Breaker.t) (key : string) (nowMs : Z)
    (d : Breaker.BreakerDecision) :
  fst (Breaker.allow br key nowMs) = inr d ->
  exists b,
    Breaker.peek br key = Some b /\
    d = fst (Breaker.allow_bucket (Breaker.opts br) b nowMs) /\
    Breaker.peek (snd (Breaker.allow br key nowMs)) key
      = Some (snd (Breaker.allow_bucket (Breaker.opts br) b nowMs)).
Proof.
  destruct (Breaker.peek br key) as [b|] eqn:Hpk.
  - rewrite (allow_Some br key nowMs b Hpk). simpl. intros [= <-].
    exists b. split_and!; [done|done|]. by rewrite peek_store, decide_True.
  - destruct (allow_None br key nowMs Hpk) as [e ->]. done.
Qed.

(** Segment 3 for a caller that holds a permit, on a key that has a bucket
    and with listeners that return: the request settles to what the
    transport settled to, the permit is released, no exchange is started. *)
Lemma completed_any (c : t) (ctx : Ctx) (start : Z)
    (result : Error + ResilientResponse) (nowSignal nowEnd nowSignal2 nowEnd2 : Z)
    (b : Breaker.BreakerBucket) :
  quiet c ->
  (0 < Limiter.inFlight (limiter c))%Z ->
  Breaker.peek (breaker c) (ctx_key ctx) = Some b ->
  let m := request_completed ctx start result nowSignal nowEnd nowSignal2 nowEnd2 in
  eval m c = result /\
  limiter (exec m c) = snd (Limiter.release (limiter c)) /\
  exists es, trace (exec m c) = trace c ++ es /\ transports es = [].
Proof.
  intros Hq Hpermit Hb m. unfold m. destruct result as [err|res].
  - destruct (completed_failure c ctx start err nowSignal nowEnd nowSignal2 nowEnd2
                b Hq Hpermit Hb) as (_ & Hr & _ & Hl & Ht).
    split_and!; [done|done|].
    eexists. split; [exact Ht|].
    by rewrite !transports_app, transports_emits.
  - destruct (completed_response c ctx start res nowSignal nowEnd nowSignal2 nowEnd2
                b Hq Hpermit Hb) as (_ & Hr & _ & Hl & Ht).
    split_and!; [done|done|].
    eexists. split; [exact Ht|].
    rewrite !transports_app, transports_emits.
    by destruct (500 <=? status res)%Z.
Qed.

(** X18. A request that runs to its end gives back what it took: on a
    client whose listeners do not throw, when [keyFn] gives a key, the
    breaker answers and [request] is not left waiting in the queue, the
    limiter is afterwards exactly as it was before the call, whether the
    request was rejected by the breaker, rejected by the limiter, answered,
    or failed.  It starts exactly one outbound exchange, with the client's
    [requestTimeoutMs], if it was admitted and none otherwise; an admitted
    request settles to what the transport settled to, a request the limiter
    refused to [QueueFullError(maxQueue)], and a request the breaker
    refused to a [CircuitOpenError] for its key.  It is left waiting
    exactly when the breaker allows it and [acquire] enqueues it. *)
Theorem request_returns_permit
    (c : t) (req : ResilientRequest) (requestId : string) (clk : Clocks)
    (result : Error + ResilientResponse)
    (key : string) (d : Breaker.BreakerDecision) :
  quiet c ->
  Limiter.capacity_inv (limiter c) ->
  (0 <= Limiter.inFlight (limiter c))%Z ->
  keyFn c req = inr key ->
  fst (Breaker.allow (breaker c) key (atAllow clk)) = inr d ->
  let m := request_uninterrupted req requestId clk result in
  let allowed := Breaker.allowed d in
  let free := Js.ltb (Js.num (Limiter.inFlight (limiter c)))
                     (Limiter.maxInFlight (limiter c)) in
  (eval m c = inr None <->
     allowed = true /\
     exists p, fst (Limiter.acquire (limiter c)) = Limiter.Pending p) /\
  (eval m c <> inr None ->
     limiter (exec m c) = limiter c /\
     transports (since c (exec m c))
       = (if allowed && free then [CallDoHttp req (requestTimeoutMs c)] else []) /\
     (allowed = false ->
        exists retry, eval m c = inl (CircuitOpenError key retry)) /\
     (allowed = true -> free = false ->
        eval m c = inl (QueueFullError (Limiter.maxQueue (limiter c)))) /\
     (allowed = true -> free = true ->
        eval m c = match result with
                   | inl e => inl e
                   | inr res => inr (Some res)
                   end)).
Proof.
  intros Hq Hcap Hnn Hkey Hd m allowed free.
  pose proof (begin_effects c req requestId (atAllow clk)) as Hb.
  pose proof (begin_config c req requestId (atAllow clk)) as Hcfg1.
  destruct (allow_inr_peek _ _ _ _ Hd) as (b0 & _ & _ & Hpk1).
  cbv zeta in Hb. rewrite Hkey, Hd in Hb. destruct Hb as [Hbr1 Hb].
  fold allowed in Hb.
  unfold eval, exec in *. set (rc := m c).
  assert (Hrc : rc = request_uninterrupted req requestId clk result c) by done.
  clearbody rc. unfold request_uninterrupted, bind in Hrc.
  destruct (request_begin req requestId (atAllow clk) c) as [r1 c1] eqn:E1.
  simpl in Hb, Hbr1, Hcfg1.
  rewrite <- Hbr1 in Hpk1.
  pose proof (config_quiet _ _ Hcfg1 Hq) as Hq1.
  destruct allowed eqn:Ha.
  - destruct Hb as (-> & Hl1 & Ht1).
    destruct (acquire_cases (limiter c))
      as [[H He]|[(H & H' & He)|(H & H0 & Hl & Hf & _)]].
    + rewrite He in *. cbn [fst snd] in *.
      assert (Hfree : free = true).
      { unfold free. rewrite ltb_ceiling. by apply Z.ltb_lt. }
      rewrite Hfree.
      set (ctx := mkCtx key requestId req) in *.
      pose proof (acquired_start c1 ctx (atStart clk)) as Hs.
      pose proof (acquired_config c1 ctx None (atStart clk)) as Hcfg2.
      cbv zeta in Hs. rewrite (Hq1 _ _) in Hs.
      unfold eval, exec in Hs, Hcfg2.
      destruct (request_acquired ctx None (atStart clk) c1) as [r2 c2] eqn:E2.
      simpl in Hs, Hcfg2. destruct Hs as (Hbr2 & Hl2 & -> & Ht2).
      assert (Hpermit : (0 < Limiter.inFlight (limiter c2))%Z).
      { rewrite Hl2, Hl1. simpl. lia. }
      rewrite <- Hbr2 in Hpk1.
      destruct (completed_any c2 ctx (atStart clk) result (atSignal clk) (atEnd clk)
                  (atSignal2 clk) (atEnd2 clk) _
                  (config_quiet _ _ Hcfg2 Hq1) Hpermit Hpk1)
        as (Hr & Hl3 & es & Ht3 & Hes).
      unfold eval, exec in Hr, Hl3, Ht3.
      destruct (request_completed ctx (atStart clk) result (atSignal clk)
                  (atEnd clk) (atSignal2 clk) (atEnd2 clk) c2) as [r3 c3] eqn:E3.
      simpl in Hr, Hl3, Ht3. subst r3.
      assert (Hrc' : rc = (match result with
                           | inl e => inl e
                           | inr res => inr (Some res)
                           end, c3)).
      { rewrite Hrc. by destruct result. }
      rewrite Hrc'. cbn [fst snd].
      split.
      * split; [by destruct result|]. intros (_ & p & Hp). discriminate Hp.
      * intros _. split_and!.
        -- rewrite Hl3, Hl2, Hl1.
           apply (f_equal snd
                    (release_after_fast_acquire (limiter c) _ Hcap Hnn He)).
        -- rewrite (since_app c c3
                      ([CallAllow key (atAllow clk); CallAcquire]
                       ++ [Emit (RequestStart key requestId req);
                           CallDoHttp req (requestTimeoutMs c1)] ++ es)).
           ++ rewrite !transports_app, Hes, (config_timeout _ _ Hcfg1). done.
           ++ rewrite Ht3, Ht2, Ht1. by rewrite <- !app_assoc.
        -- discriminate.
        -- discriminate.
        -- done.
    + rewrite He in *. cbn [fst snd] in *.
      assert (Hfree : free = false).
      { unfold free. rewrite ltb_ceiling. by apply Z.ltb_ge. }
      rewrite Hfree.
      set (ctx := mkCtx key requestId req) in *.
      pose proof (acquired_rejected c1 ctx
                    (QueueFullError (Limiter.maxQueue (limiter c))) (atStart clk))
        as Hs.
      cbv zeta in Hs. rewrite (Hq1 _ _) in Hs.
      unfold eval, exec in Hs.
      destruct (request_acquired ctx _ (atStart clk) c1) as [r2 c2] eqn:E2.
      simpl in Hs. destruct Hs as (-> & Hbr2 & Hl2 & Ht2).
      rewrite Hrc. cbn [fst snd].
      split.
      * split; [discriminate|]. intros (_ & p & Hp). discriminate Hp.
      * intros _. split_and!; [congruence| |discriminate|done|discriminate].
        rewrite (since_trans _ _ _ _ _ Ht1 Ht2). done.
    + rewrite Hf in *. rewrite Hrc. cbn [fst snd]. split.
      * split; [eauto|done].
      * intros Hne. by destruct Hne.
  - destruct Hb as (-> & Hl1 & Ht1). rewrite Hrc. cbn [fst snd].
    split.
    + split; [discriminate|]. intros [Hc _]. discriminate Hc.
    + intros _. split_and!; [done| | |discriminate|discriminate].
      * by rewrite (since_app _ _ _ Ht1).
      * intros _. rewrite (Hq _ _). simpl. eauto.
Qed.

Lemma request_returns_permit_witness :
  let clk := mkClocks 1000 1000 1010 1010 1010 1010 in
  let m := request_uninterrupted (get_req "svc") "r1" clk
             (inr (mkResponse 200 [] "ok")) in
  eval m scenario_client = inr (Some (mkResponse 200 [] "ok")) /\
  limiter (exec m scenario_client) = limiter scenario_client /\
  transports (since scenario_client (exec m scenario_client))
    = [CallDoHttp (get_req "svc") 500].
Proof.
  intros clk m.
  assert (He : eval m scenario_client = inr (Some (mkResponse 200 [] "ok")))
    by reflexivity.
  destruct (request_returns_permit scenario_client (get_req "svc") "r1" clk
              (inr (mkResponse 200 [] "ok")) "svc"
              (Breaker.mkDecision true Breaker.CLOSED None)) as [_ Hsome].
  - intros tr e. reflexivity.
  - unfold Limiter.capacity_inv. vm_compute. split_and!; try discriminate. done.
  - simpl. lia.
  - reflexivity.
  - reflexivity.
  - destruct Hsome as (Hl & Ht & _).
    + fold m. rewrite He. discriminate.
    + split_and!; [exact He|exact Hl|exact Ht].
Defined.

(** X24. A listener of [request:start] that throws: the exception rejects the
    request after the permit was taken and before the [try], so nothing
    releases the permit, the breaker hears of no result, and no exchange is
    started. *)
Theorem start_listener_exception_keeps_permit
    (c : t) (req : ResilientRequest) (requestId : string) (clk : Clocks)
    (result : Error + ResilientResponse)
    (key : string) (d : Breaker.BreakerDecision) (e : Error) :
  keyFn c req = inr key ->
  fst (Breaker.allow (breaker c) key (atAllow clk)) = inr d ->
  Breaker.allowed d = true ->
  Js.ltb (Js.num (Limiter.inFlight (limiter c)))
         (Limiter.maxInFlight (limiter c)) = true ->
  listeners c (trace c ++ [CallAllow key (atAllow clk); CallAcquire])
            (RequestStart key requestId req) = Some e ->
  let m := request_uninterrupted req requestId clk result in
  eval m c = inl e /\
  Limiter.inFlight (limiter (exec m c)) = (Limiter.inFlight (limiter c) + 1)%Z /\
  limiter (exec m c) = snd (Limiter.acquire (limiter c)) /\
  breaker (exec m c) = snd (Breaker.allow (breaker c) key (atAllow clk)) /\
  since c (exec m c)
    = [CallAllow key (atAllow clk); CallAcquire;
       Emit (RequestStart key requestId req)].
Proof.
  intros Hkey Hd Ha Hfree Hthrow m.
  pose proof (begin_effects c req requestId (atAllow clk)) as Hb.
  pose proof (begin_config c req requestId (atAllow clk)) as Hcfg1.
  cbv zeta in Hb. rewrite Hkey, Hd, Ha in Hb. destruct Hb as (Hbr1 & Hr1 & Hl1 & Ht1).
  rewrite ltb_ceiling in Hfree. apply Z.ltb_lt in Hfree.
  pose proof (acquire_fast (limiter c) Hfree) as He.
  unfold eval, exec in *. set (rc := m c).
  assert (Hrc : rc = request_uninterrupted req requestId clk result c) by done.
  clearbody rc. unfold request_uninterrupted, bind in Hrc.
  destruct (request_begin req requestId (atAllow clk) c) as [r1 c1] eqn:E1.
  simpl in Hr1, Hbr1, Hl1, Ht1, Hcfg1. subst r1. rewrite He in *.
  cbn [fst snd] in *.
  set (ctx := mkCtx key requestId req) in *.
  pose proof (acquired_start c1 ctx (atStart clk)) as Hs.
  cbv zeta in Hs.
  assert (Hl : listeners c1 (trace c1)
                 (RequestStart (ctx_key ctx) (ctx_requestId ctx) (ctx_req ctx))
               = Some e).
  { injection Hcfg1 as _ _ ->. by rewrite Ht1. }
  rewrite Hl in Hs.
  unfold eval, exec in Hs.
  destruct (request_acquired ctx None (atStart clk) c1) as [r2 c2] eqn:E2.
  simpl in Hs. destruct Hs as (Hbr2 & Hl2 & -> & Ht2).
  rewrite Hrc. cbn [fst snd].
  split_and!; [done| | | |].
  - by rewrite Hl2, Hl1.
  - by rewrite Hl2, Hl1.
  - by rewrite Hbr2.
  - by rewrite (since_trans _ _ _ _ _ Ht1 Ht2).
Qed.

Lemma start_listener_exception_keeps_permit_witness :
  let clk := mkClocks 1000 1000 1010 1010 1010 1010 in
  let c := on (fun _ ev => match ev with
                           | RequestStart _ _ _ => Some (PlainError "listener failed")
                           | _ => None
                           end) scenario_client in
  let m := request_uninterrupted (get_req "svc") "r1" clk
             (inr (mkResponse 200 [] "ok")) in
  eval m c = inl (PlainError "listener failed") /\
  Limiter.inFlight (limiter (exec m c)) = 1%Z.
Proof.
  intros clk c m.
  destruct (start_listener_exception_keeps_permit c (get_req "svc") "r1" clk
              (inr (mkResponse 200 [] "ok")) "svc"
              (Breaker.mkDecision true Breaker.CLOSED None)
              (PlainError "listener failed")
              eq_refl eq_refl eq_refl eq_refl eq_refl) as (He & Hi & _).
  split; [exact He|exact Hi].
Defined.

Lemma allow_denied_retry (br : Breaker.t) (key : string) (nowMs : Z)
    (d : Breaker.BreakerDecision) :
  fst (Breaker.allow br key nowMs) = inr d ->
  Breaker.allowed d = false ->
  exists retry, Breaker.retryAfterMs d = Some retry /\ (0 <= retry)%Q.
Proof.
  intros (b & _ & -> & _)%allow_inr_peek.
  unfold Breaker.allow_bucket.
  destruct (Breaker.state b) eqn:Hst; simpl; rewrite ?Hst; simpl.
  - discriminate.
  - destruct (Js.ltb 0 _) eqn:E; simpl.
    + intros _. eexists. split; [done|]. apply ltb_lt in E. by apply Qlt_le_weak.
    + destruct (Js.leb _ _); simpl; [|discriminate].
      intros _. eexists. split; [done|]. apply Qle_refl.
  - destruct (Js.leb _ _); simpl; [|discriminate].
    intros _. eexists. split; [done|]. apply Qle_refl.
Qed.

(** X19. A request the breaker refuses leaves no mark but the log: the
    error built for the caller is [CircuitOpenError] with the key and the
    [retryAfterMs] of the decision (which is always present, so the [?? 0]
    default is never used), and the caller gets it unless a listener of
    [request:rejected] throws, in which case the caller gets what the
    listener threw; the limiter and the breaker are exactly as before,
    [acquire] is not called and no exchange is started. *)
Theorem circuit_open_rejection_is_inert
    (c : t) (req : ResilientRequest) (requestId : string) (nowMs : Z)
    (key : string) (d : Breaker.BreakerDecision) :
  (0 < Breaker.halfOpenProbeCount (Breaker.opts (breaker c)))%Q ->
  keyFn c req = inr key ->
  fst (Breaker.allow (breaker c) key nowMs) = inr d ->
  Breaker.allowed d = false ->
  let m := request_begin req requestId nowMs in
  exists retry,
    Breaker.retryAfterMs d = Some retry /\ (0 <= retry)%Q /\
    let err := CircuitOpenError key retry in
    let ev := RequestRejected key requestId req err in
    eval m c = inl (default err (listeners c (trace c ++ [CallAllow key nowMs]) ev)) /\
    (quiet c -> eval m c = inl err) /\
    limiter (exec m c) = limiter c /\
    breaker (exec m c) = breaker c /\
    since c (exec m c) = [CallAllow key nowMs; Emit ev].
Proof.
  intros Hp Hkey Hd Ha m.
  destruct (allow_denied_retry (breaker c) key nowMs d Hd Ha) as (retry & Hr & Hnn).
  pose proof (begin_effects c req requestId nowMs) as Hb.
  cbv zeta in Hb. rewrite Hkey, Hd, Ha, Hr in Hb. simpl in Hb.
  destruct Hb as (Hbr & He & Hl & Ht).
  exists retry. split; [done|]. split; [done|]. cbv zeta.
  split_and!; [done| |done| |by apply since_app].
  - intros Hq. unfold m. rewrite He, (Hq _ _). done.
  - unfold m. rewrite Hbr. by apply (allow_denied_unchanged _ _ _ d).
Qed.

Lemma circuit_open_rejection_is_inert_witness :
  eval (request_begin (get_req "svc") "r9" 1050) scenario_opened
    = inl (CircuitOpenError "svc" 60) /\
  breaker (exec (request_begin (get_req "svc") "r9" 1050) scenario_opened)
    = breaker scenario_opened.
Proof.
  destruct (circuit_open_rejection_is_inert scenario_opened (get_req "svc") "r9" 1050
              "svc" (Breaker.mkDecision false Breaker.OPEN (Some (100 - Js.num (1050 - 1010))%Q))
              ltac:(vm_compute; reflexivity) eq_refl eq_refl eq_refl)
    as (retry & Hr & _ & _ & He & _ & Hb & _).
  injection Hr as <-.
  split; [|exact Hb].
  rewrite He; [reflexivity|]. intros tr e. reflexivity.
Defined.

Lemma onFailure_opened (br : Breaker.t) (key : string) (nowMs : Z)
    (change : Breaker.Change) :
  fst (Breaker.onFailure br key nowMs) = inr change ->
  Breaker.changed change = true ->
  exists b',
    Breaker.peek (snd (Breaker.onFailure br key nowMs)) key = Some b' /\
    Breaker.state b' = Breaker.OPEN /\
    Breaker.openedAtMs b' = Some nowMs.
Proof.
  destruct (Breaker.peek br key) as [b|] eqn:Hpk.
  2: { destruct (onFailure_None br key nowMs Hpk) as [e ->]. done. }
  rewrite (onFailure_Some br key nowMs b Hpk). simpl. intros [= <-].
  rewrite peek_store, decide_True by done.
  unfold Breaker.onFailure_bucket.
  destruct (Breaker.state b); simpl.
  - destruct (_ && _); simpl; [eauto|discriminate].
  - discriminate.
  - eauto.
Qed.

(** X20. Trip, then fail fast: when the failure of an admitted request
    makes the breaker report a change, then whatever happens on the client
    afterwards (segments of other requests for any key, whatever their
    results, and timers of the limiter), as long as every request for the
    same key that begins in between reads a clock before [cooldownMs] has
    passed since that failure, a request for the key that enters before
    that time is rejected in segment 1: the error built for it is
    [CircuitOpenError(key, cooldownMs - elapsed)], which the caller gets
    unless a listener of [request:rejected] throws; it does not touch the
    limiter or the breaker, calls [allow] and emits [request:rejected] and
    nothing else, and starts no exchange. *)
Theorem tripped_breaker_fails_fast
    (c : t) (ctx : Ctx) (start : Z) (result : Error + ResilientResponse)
    (nowSignal nowEnd nowSignal2 nowEnd2 : Z) (change : Breaker.Change)
    (ops : list Op)
    (req : ResilientRequest) (requestId : string) (nowMs : Z) :
  Pipeline.failed result ->
  fst (Breaker.onFailure (breaker c) (ctx_key ctx) nowSignal) = inr change ->
  Breaker.changed change = true ->
  let key := ctx_key ctx in
  let cooldown := Breaker.cooldownMs (Breaker.opts (breaker c)) in
  let deadline := (Js.num nowSignal + cooldown)%Q in
  Forall (begins_before c key deadline) ops ->
  keyFn c req = inr key ->
  (Js.num nowMs < deadline)%Q ->
  let c' := exec (request_completed ctx start result
                    nowSignal nowEnd nowSignal2 nowEnd2) c in
  let c'' := Pipeline.run c' ops in
  let m := request_begin req requestId nowMs in
  let err := CircuitOpenError key (cooldown - Js.num (nowMs - nowSignal))%Q in
  let ev := RequestRejected key requestId req err in
  eval m c'' = inl (default err (listeners c (trace c'' ++ [CallAllow key nowMs]) ev)) /\
  (quiet c -> eval m c'' = inl err) /\
  limiter (exec m c'') = limiter c'' /\
  breaker (exec m c'') = breaker c'' /\
  since c'' (exec m c'') = [CallAllow key nowMs; Emit ev] /\
  transports (since c'' (exec m c'')) = [].
Proof.
  intros Hfail Hfst Hch key cooldown deadline Hops Hkey Hnow c' c'' m err ev.
  destruct (confined_after_failure key deadline ctx start result
              nowSignal nowEnd nowSignal2 nowEnd2 c Hfail)
    as (bops1 & Hb1 & Hf1 & Hc1).
  fold c' in Hb1, Hc1.
  destruct (confined_run key deadline c c' ops Hc1 Hops) as (bops2 & Hb2 & Hf2 & Hc2).
  fold c'' in Hb2, Hc2.
  destruct (onFailure_opened _ _ _ _ Hfst Hch) as (b' & Hpk & Hst & Hat).
  fold key in Hb1, Hpk.
  set (br1 := snd (Breaker.onFailure (breaker c) key nowSignal)) in *.
  assert (Ho1 : Breaker.opts br1 = Breaker.opts (breaker c)).
  { apply on_bucket_opts. }
  assert (Hbr : breaker c'' = Breaker.run br1 (bops1 ++ bops2)).
  { rewrite Hb2, Hb1. unfold Breaker.run. by rewrite fold_left_app. }
  assert (Hpk'' : Breaker.peek (breaker c'') key = Some b').
  { rewrite Hbr. apply (peek_run_open br1 key nowSignal deadline); try done.
    - unfold deadline, cooldown. by rewrite Ho1.
    - by apply Forall_app. }
  assert (Ho'' : Breaker.opts (breaker c'') = Breaker.opts (breaker c)).
  { by rewrite Hbr, run_opts. }
  assert (Hallow : Breaker.allow (breaker c'') key nowMs
            = (inr (Breaker.mkDecision false Breaker.OPEN
                      (Some (cooldown - Js.num (nowMs - nowSignal))%Q)),
               breaker c'')).
  { unfold cooldown. rewrite <- Ho''.
    apply (allow_open_denies _ _ _ _ b'); [done|done|done|]. by rewrite Ho''. }
  assert (Hcfg : config c'' = config c) by (by rewrite Hc2).
  pose proof (begin_effects c'' req requestId nowMs) as Hb.
  cbv zeta in Hb. rewrite (config_keyFn _ _ Hcfg), Hkey, Hallow in Hb.
  simpl in Hb. destruct Hb as (Hbr' & He & Hl & Ht).
  assert (Hls : listeners c'' = listeners c) by (by injection Hcfg).
  rewrite Hls in He.
  unfold m. split_and!; [done| |done|done|by apply since_app|].
  - intros Hq. rewrite He, (Hq _ _). done.
  - by rewrite (since_app _ _ _ Ht).
Qed.

Lemma tripped_breaker_fails_fast_witness :
  let c' := Pipeline.run scenario_opened
              [OpBegin (get_req "other") "r2" 1020;
               OpAcquired (ctx_of "other" "r2") None 1020;
               OpBegin (get_req "svc") "r3" 1050;
               OpCompleted (ctx_of "other" "r2") 1020
                 (inr (mkResponse 200 [] "ok")) 1060 1060 1060 1060;
               OpCompleted (ctx_of "svc" "r0") 900
                 (inr (mkResponse 200 [] "ok")) 1070 1070 1070 1070] in
  eval (request_begin (get_req "svc") "r9" 1100) c'
  = inl (CircuitOpenError "svc" (100 - Js.num (1100 - 1010))%Q).
Proof.
  intros c'.
  destruct (tripped_breaker_fails_fast scenario_in_transport (ctx_of "svc" "r1") 1000
              (inl (TransportError "ECONNREFUSED")) 1010 1010 1010 1010
              (Breaker.mkChange true (Some Breaker.CLOSED) (Some Breaker.OPEN))
              [OpBegin (get_req "other") "r2" 1020;
               OpAcquired (ctx_of "other" "r2") None 1020;
               OpBegin (get_req "svc") "r3" 1050;
               OpCompleted (ctx_of "other" "r2") 1020
                 (inr (mkResponse 200 [] "ok")) 1060 1060 1060 1060;
               OpCompleted (ctx_of "svc" "r0") 900
                 (inr (mkResponse 200 [] "ok")) 1070 1070 1070 1070]
              (get_req "svc") "r9" 1100) as (_ & He & _).
  - exact I.
  - reflexivity.
  - reflexivity.
  - repeat constructor; simpl; intros; try discriminate; vm_compute; reflexivity.
  - reflexivity.
  - vm_compute. reflexivity.
  - apply He. intros tr e. reflexivity.
Defined.

(** X21. The transport adapter under the pipeline: on a client whose
    listeners do not throw, for a request that holds a permit and whose
    key has a bucket, an exchange aborted by the deadline (in the request
    or while the body is read) settles [request] to
    [RequestTimeoutError(requestTimeoutMs)] with the client's own
    [requestTimeoutMs], is reported to the breaker as exactly one failure
    and emits [request:failure] carrying that error; a completed exchange
    hands the caller the status and body it got and is reported once, as a
    failure when the status is 500 or more and as a success otherwise. *)
Theorem timeout_is_reported_as_failure
    (toLowerCase : string -> string) (c : t) (ctx : Ctx) (start : Z)
    (x : Http.Exchange) (nowSignal nowEnd nowSignal2 nowEnd2 : Z)
    (b : Breaker.BreakerBucket) :
  quiet c ->
  (0 < Limiter.inFlight (limiter c))%Z ->
  Breaker.peek (breaker c) (ctx_key ctx) = Some b ->
  let m := request_after_exchange toLowerCase ctx start x
             nowSignal nowEnd nowSignal2 nowEnd2 in
  let timeout := RequestTimeoutError (requestTimeoutMs c) in
  ((x = Http.RequestThrew "AbortError" \/
    exists s hs, x = Http.BodyThrew s hs "AbortError") ->
     eval m c = inl timeout /\
     signals (since c (exec m c)) = [SignalFailure] /\
     last (events (since c (exec m c)))
       = Some (RequestFailure (ctx_key ctx) (ctx_requestId ctx) (ctx_req ctx)
                 timeout (nowEnd - start)%Z)) /\
  (forall s hs body, x = Http.Completed s hs body ->
     exists res, eval m c = inr res /\ status res = s /\ resp_body res = body /\
       signals (since c (exec m c))
         = [if (500 <=? s)%Z then SignalFailure else SignalSuccess]).
Proof.
  intros Hq Hpermit Hb m timeout. unfold m, request_after_exchange, eval, exec.
  split.
  - intros Hx.
    assert (Hres : transport_result toLowerCase c x = inl timeout).
    { destruct Hx as [->|(s & hs & ->)]; reflexivity. }
    rewrite Hres.
    destruct (completed_failure c ctx start timeout nowSignal nowEnd
                nowSignal2 nowEnd2 b Hq Hpermit Hb) as (_ & Hr & _ & _ & Ht).
    unfold eval, exec in Hr, Ht.
    rewrite (since_app _ _ _ Ht). split; [done|].
    rewrite !signals_app, !events_app, signals_emits, events_emits.
    unfold change_events. destruct (Breaker.changed _); simpl; done.
  - intros s hs body ->.
    set (res := to_response (Http.mkHttpResponse s
                               (Http.normalizeHeaders toLowerCase hs) body)).
    change (transport_result toLowerCase c (Http.Completed s hs body)) with
      (@inr Error _ res).
    destruct (completed_response c ctx start res nowSignal nowEnd
                nowSignal2 nowEnd2 b Hq Hpermit Hb) as (_ & Hr & _ & _ & Ht).
    unfold eval, exec in Hr, Ht.
    exists res. rewrite (since_app _ _ _ Ht).
    split_and!; [done|done|done|].
    rewrite !signals_app, signals_emits. change (status res) with s.
    clear Ht Hr.
    by destruct (500 <=? s)%Z.
Qed.

Lemma timeout_is_reported_as_failure_witness :
  let m := request_after_exchange Http.ascii_lower (ctx_of "svc" "r1") 1000
             (Http.RequestThrew "AbortError") 1500 1501 1502 1503 in
  eval m scenario_in_transport = inl (RequestTimeoutError 500) /\
  signals (since scenario_in_transport (exec m scenario_in_transport))
    = [SignalFailure].
Proof.
  intros m.
  destruct (timeout_is_reported_as_failure Http.ascii_lower scenario_in_transport
              (ctx_of "svc" "r1") 1000 (Http.RequestThrew "AbortError")
              1500 1501 1502 1503
              (Breaker.fresh_bucket (RollingWindow.make 5))
              ltac:(intros tr e; reflexivity)
              ltac:(vm_compute; reflexivity) eq_refl) as [Habort _].
  destruct (Habort (or_introl eq_refl)) as (He & Hs & _).
  split; [exact He|exact Hs].
Defined.

End PipelineFacts.

(** ** Load generator *)

Section LoadgenFacts.
Import Errors Client Loadgen.

Lemma chunkIndices_snoc (n w : nat) :
  chunkIndices (S n) w =
    match chunkIndices n w with
    | None => None
    | Some chunks =>
        if w =? 0 then None
        else Some (alter (fun ch => ch ++ [n]) (n mod w) chunks)
    end.
Proof.
  unfold chunkIndices. rewrite seq_S, fold_left_app. done.
Qed.

(** The chunks after [n] indices, for a positive number of workers. *)
Lemma chunkIndices_shape (n w : nat) :
  0 < w ->
  exists chunks, chunkIndices n w = Some chunks /\
    length chunks = w /\
    forall j, j < w ->
      chunks !! j = Some (filter (fun i => i mod w = j) (seq 0 n)).
Proof.
  intros Hw. induction n as [|n (chunks & Hc & Hlen & Hj)].
  - exists (replicate w []). split; [done|]. split; [apply length_replicate|].
    intros j Hlt. simpl. by apply lookup_replicate_2.
  - rewrite chunkIndices_snoc, Hc.
    destruct (Nat.eqb_spec w 0); [lia|].
    eexists. split; [done|]. split; [by rewrite length_alter|].
    intros j Hlt. rewrite seq_S, filter_app. simpl.
    destruct (decide (n mod w = j)) as [Heq|Hne].
    + rewrite filter_cons_True by done. rewrite filter_nil.
      subst j. rewrite list_lookup_alter_eq, (Hj _ Hlt). done.
    + rewrite filter_cons_False by done. rewrite filter_nil, app_nil_r.
      rewrite list_lookup_alter_ne by done. by apply Hj.
Qed.

Lemma mjoin_alter_snoc (l : list (list nat)) (j x : nat) :
  j < length l ->
  mjoin (alter (fun ch => ch ++ [x]) j l) ≡ₚ mjoin l ++ [x].
Proof.
  revert j. induction l as [|ch l IH]; intros j Hj; simpl in Hj; [lia|].
  destruct j as [|j]; simpl.
  - rewrite <- !app_assoc. apply Permutation_app_head, Permutation_app_comm.
  - rewrite <- app_assoc. apply Permutation_app_head, IH. lia.
Qed.

Lemma chunkIndices_perm (n w : nat) (chunks : list (list nat)) :
  0 < w -> chunkIndices n w = Some chunks -> mjoin chunks ≡ₚ seq 0 n.
Proof.
  intros Hw. revert chunks. induction n as [|n IH]; intros chunks Hc.
  - unfold chunkIndices in Hc. simpl in Hc. injection Hc as <-.
    clear. induction w as [|w IHw]; simpl; [done|exact IHw].
  - rewrite chunkIndices_snoc in Hc.
    destruct (chunkIndices_shape n w Hw) as (chunks0 & Hc0 & Hlen & _).
    rewrite Hc0 in Hc. destruct (Nat.eqb_spec w 0); [lia|].
    injection Hc as <-. rewrite mjoin_alter_snoc.
    + rewrite seq_S. simpl. by rewrite (IH chunks0 Hc0).
    + rewrite Hlen. apply Nat.mod_upper_bound. lia.
Qed.

Lemma succ_div_mod (n w : nat) :
  0 < w ->
  (n mod w + 1 < w /\ S n / w = n / w /\ S n mod w = n mod w + 1) \/
  (n mod w + 1 = w /\ S n / w = n / w + 1 /\ S n mod w = 0).
Proof.
  intros Hw. pose proof (Nat.div_mod_eq n w) as Hn.
  pose proof (Nat.mod_upper_bound n w ltac:(lia)) as Hlt.
  destruct (decide (n mod w + 1 < w)) as [H|H].
  - left. split; [done|]. split.
    + symmetry. apply (Nat.div_unique _ _ _ (n mod w + 1)); lia.
    + symmetry. apply (Nat.mod_unique _ _ (n / w)); lia.
  - right. split; [lia|]. split.
    + symmetry. apply (Nat.div_unique _ _ _ 0); lia.
    + symmetry. apply (Nat.mod_unique _ _ (n / w + 1)); lia.
Qed.

Lemma residue_count (n w j : nat) :
  0 < w -> j < w ->
  length (filter (fun i => i mod w = j) (seq 0 n))
  = n / w + (if j <? n mod w then 1 else 0).
Proof.
  intros Hw Hj. induction n as [|n IH].
  - simpl. rewrite Nat.Div0.div_0_l, Nat.Div0.mod_0_l. done.
  - rewrite seq_S, filter_app, length_app, IH. simpl.
    destruct (succ_div_mod n w Hw) as [(H1 & -> & ->)|(H1 & -> & ->)];
      destruct (decide (n mod w = j)) as [Heq|Hne];
      rewrite ?filter_cons_True, ?filter_cons_False, ?filter_nil by done;
      simpl;
      destruct (Nat.ltb_spec j (n mod w)); try lia;
      destruct (Nat.ltb_spec j (n mod w + 1)); lia.
Qed.

(** X22. [chunkIndices] deals the job indices round-robin: for a positive
    number of workers there is one chunk per worker, chunk [j] holds
    exactly the indices congruent to [j] in increasing order, every index
    below [total] lands in exactly one chunk, and chunk sizes differ by at
    most one.  With zero workers and at least one job it throws (there is
    no chunk to push to); with zero workers and no job it returns the empty
    list. *)
Theorem chunkIndices_round_robin (total workers : nat) :
  (0 < workers ->
     exists chunks, chunkIndices total workers = Some chunks /\
       length chunks = workers /\
       (forall j, j < workers ->
          chunks !! j = Some (filter (fun i => i mod workers = j) (seq 0 total))) /\
       mjoin chunks ≡ₚ seq 0 total /\
       (forall j ch, chunks !! j = Some ch ->
          length ch = total / workers + (if j <? total mod workers then 1 else 0))) /\
  chunkIndices 0 0 = Some [] /\
  (0 < total -> chunkIndices total 0 = None).
Proof.
  split_and!.
  - intros Hw. destruct (chunkIndices_shape total workers Hw)
      as (chunks & Hc & Hlen & Hj).
    exists chunks. split_and!; [done|done|done|by eapply chunkIndices_perm|].
    intros j ch Hch.
    assert (Hlt : j < workers).
    { rewrite <- Hlen. by eapply lookup_lt_Some. }
    rewrite (Hj j Hlt) in Hch. injection Hch as <-. by apply residue_count.
  - done.
  - intros Ht. induction total as [|n IH]; [lia|].
    rewrite chunkIndices_snoc. by destruct (chunkIndices n 0).
Qed.

Lemma chunkIndices_round_robin_witness :
  (exists chunks, chunkIndices 7 3 = Some chunks /\ length chunks = 3 /\
     chunks !! 0 = Some [0; 3; 6] /\ mjoin chunks ≡ₚ seq 0 7) /\
  chunkIndices 2 0 = None.
Proof.
  destruct (chunkIndices_round_robin 7 3) as (Hpos & _).
  destruct (chunkIndices_round_robin 2 0) as (_ & _ & Hzero).
  split; [|apply Hzero; lia].
  destruct (Hpos ltac:(lia)) as (chunks & Hc & Hlen & Hj & Hperm & _).
  exists chunks. split_and!; [done|done| |done].
  rewrite (Hj 0 ltac:(lia)). reflexivity.
Defined.

Lemma counted_as_snoc (k : string) (os : list (Error + ResilientResponse))
    (o : Error + ResilientResponse) :
  counted_as k (os ++ [o])
  = counted_as k os ++ (if decide (counter_of o = k) then [o] else []).
Proof.
  unfold counted_as. rewrite filter_app. f_equal.
Qed.

Lemma counter_of_named (o : Error + ResilientResponse) :
  counter_of o ∈ counter_names.
Proof.
  unfold counter_names.
  destruct o as [[]|res]; simpl; try destruct (_ <=? _)%Z;
    repeat first [by apply elem_of_cons; left | apply elem_of_cons; right].
Qed.

Lemma tally_lookup (outcomes : list (Error + ResilientResponse)) (k : string) :
  k ∈ counter_names ->
  fold_left tally outcomes counters0 !! k = Some (length (counted_as k outcomes)).
Proof.
  intros Hk. induction outcomes as [|o os IH] using rev_ind.
  - simpl. unfold counter_names in Hk.
    repeat (apply elem_of_cons in Hk as [->|Hk]; [done|]).
    by apply elem_of_nil in Hk.
  - rewrite fold_left_app. simpl. unfold tally at 1, bump.
    rewrite counted_as_snoc, length_app.
    destruct (decide (counter_of o = k)) as [Heq|Hne].
    + rewrite Heq, lookup_alter_eq, IH. simpl. f_equal. lia.
    + rewrite lookup_alter_ne by done. rewrite IH. simpl. f_equal. lia.
Qed.

Lemma classes_cover (outcomes : list (Error + ResilientResponse)) :
  length (counted_as "ok" outcomes) + length (counted_as "http5xx" outcomes)
  + length (counted_as "timeout" outcomes) + length (counted_as "queueFull" outcomes)
  + length (counted_as "queueTimeout" outcomes)
  + length (counted_as "circuitOpen" outcomes)
  + length (counted_as "otherErr" outcomes)
  = length outcomes.
Proof.
  induction outcomes as [|o os IH]; [done|].
  unfold counted_as in *. rewrite !filter_cons. simpl length at 8.
  rewrite <- IH. clear IH.
  destruct o as [[]|res]; cbn [counter_of classifyErr];
    try destruct (500 <=? _)%Z;
    repeat (case_decide; try done); simpl; lia.
Qed.

(** X23. The load generator counts every finished request exactly once:
    after any sequence of outcomes each counter holds the number of
    outcomes of its class (responses below 500, responses from 500 up, and
    the four library errors by type, anything else under ["otherErr"]), no
    counter is added or lost, and the sum the progress report takes modulo
    50 is the number of requests finished. *)
Theorem loadgen_counts_each_request_once
    (outcomes : list (Error + ResilientResponse)) :
  let c := fold_left tally outcomes counters0 in
  (forall k, k ∈ counter_names -> c !! k = Some (length (counted_as k outcomes))) /\
  dom c = dom counters0 /\
  finished c = length outcomes.
Proof.
  intros c. split_and!.
  - intros k Hk. by apply tally_lookup.
  - unfold c. induction outcomes as [|o os IH] using rev_ind; [done|].
    rewrite fold_left_app. simpl. unfold tally at 1, bump.
    by rewrite dom_alter_L.
  - unfold finished, c.
    rewrite !tally_lookup
      by (unfold counter_names;
          repeat first [by apply elem_of_cons; left | apply elem_of_cons; right]).
    simpl. apply classes_cover.
Qed.

Lemma loadgen_counts_each_request_once_witness :
  let c := fold_left tally
             [inr (mkResponse 200 [] "ok"); inr (mkResponse 503 [] "");
              inl (QueueFullError 0); inl (TransportError "ECONNRESET");
              inl (CircuitOpenError "svc" 10)] counters0 in
  c !! "otherErr" = Some 1 /\ finished c = 5.
Proof.
  intros c.
  destruct (loadgen_counts_each_request_once
              [inr (mkResponse 200 [] "ok"); inr (mkResponse 503 [] "");
               inl (QueueFullError 0); inl (TransportError "ECONNRESET");
               inl (CircuitOpenError "svc" 10)]) as (Hk & _ & Hf).
  split; [|exact Hf].
  unfold c. rewrite (Hk "otherErr"); [reflexivity|].
  unfold counter_names.
  repeat first [by apply elem_of_cons; left | apply elem_of_cons; right].
Defined.

End LoadgenFacts.
